(** * neuron-descriptions: ablation driver, classifier wrapper, language
      model training loop and masked featurizers.

    A shallow embedding of the parts of

      - [run_cnn_ablations.py]        (module [Driver]),
      - [src/milan/classifiers.py]    (module [Classifiers]),
      - [lv/models/lms.py]            (module [Lms]),
      - [lv/models/featurizers.py]    (modules [Featurizer] and
                                       [PretrainedPyramidFeaturizer])

    that the specification talks about, followed by the properties the
    specification states about them and by further properties the code
    has (from [Further properties] on).  The modules [Py] and [Torch] hold
    the few builtins of Python, NumPy and PyTorch the sources rely on;
    [Training] holds the early stopper of [lv/utils/training.py].

    Conventions used throughout.

      - The ablation fractions are IEEE 754 doubles (module [F64]): the
        sweep of [numpy.arange], the product [fraction * len(indices)]
        and [int] round as the machine does.  Scores and losses, which
        are only compared, and accuracies, each a single quotient of two
        integers, are rationals [Q]: a rational stands for the double
        nearest to it, and [==] compares values.  The arithmetic of
        tensor elements in the featurizer is left abstract.
      - A one-dimensional tensor is a list; the first (batch) axis of a
        higher-dimensional tensor is a list of rows.
      - A Python exception is an explicit [Raise] result.
      - Objects that the sources share and update in place (the parameter
        tensors of a module) live in an explicit store, and references to
        them are locations of that store. *)

From Stdlib Require Import ZArith QArith Qround Qpower List Sorted Permutation.
From Stdlib Require Import Lia Lqa String Ascii SpecFloat.
From stdpp Require Import base list gmap strings functions.
From Equations Require Import Equations.
Import ListNotations.
Open Scope Z_scope.
Set Warnings "-register-all,-clear-no-such-hyp".

(** ** Exceptions *)

Inductive exn : Set :=
| IndexError
| ZeroDivisionError
| AssertionError
| ValueError
| TypeError
| KeyError
| OverflowError
| RuntimeError.

Inductive result (A : Type) : Type :=
| Ok (a : A)
| Raise (e : exn).
Arguments Ok {A} a.
Arguments Raise {A} e.

#[global] Instance result_ret : MRet result := @Ok.
#[global] Instance result_bind : MBind result :=
  fun A B f r => match r with Ok a => f a | Raise e => Raise e end.
#[global] Instance result_fmap : FMap result :=
  fun A B f r => match r with Ok a => Ok (f a) | Raise e => Raise e end.

Definition raises {A} (r : result A) : Prop := exists e, r = Raise e.

(** A loop that builds a list and stops at the first exception. *)
Fixpoint traverse {A B} (f : A -> result B) (l : list A) : result (list B) :=
  match l with
  | [] => Ok []
  | x :: l' =>
      match f x with
      | Raise e => Raise e
      | Ok y =>
          match traverse f l' with
          | Raise e => Raise e
          | Ok ys => Ok (y :: ys)
          end
      end
  end.

(** ** IEEE 754 double precision

    The doubles of Python and NumPy, over the Standard Library's
    specification of binary floating-point arithmetic ([SpecFloat], the
    one the primitive floats of Rocq are specified against) at
    precision 53 and maximal exponent 1024.  Every operation rounds to
    nearest, ties to even. *)

Module F64.

Definition float : Set := spec_float.
Definition prec : Z := 53.
Definition emax : Z := 1024.

(** The exponent of the last place of a number of magnitude [2 ^ e]. *)
Definition fexp (e : Z) : Z := SpecFloat.fexp prec emax e.

(** The representations that are doubles: the mantissa has 53 bits, or
    fewer at the smallest exponent. *)
Definition valid (x : float) : bool := valid_binary prec emax x.

Definition is_finite (x : float) : bool :=
  match x with
  | S754_zero _ | S754_finite _ _ _ => true
  | S754_infinity _ | S754_nan => false
  end.

Definition is_zero (x : float) : bool :=
  match x with
  | S754_zero _ => true
  | _ => false
  end.

Definition signbit (x : float) : bool :=
  match x with
  | S754_zero s | S754_infinity s | S754_finite s _ _ => s
  | S754_nan => false
  end.

Definition add : float -> float -> float := SFadd prec emax.
Definition sub : float -> float -> float := SFsub prec emax.
Definition mul : float -> float -> float := SFmul prec emax.
Definition div : float -> float -> float := SFdiv prec emax.

(** The conversion of an integer to a double. *)
Definition of_Z (n : Z) : float := binary_normalize prec emax n 0 false.

(** The double a decimal literal or a quotient of two integers denotes:
    the double nearest to the rational (numerator and denominator are
    below [2 ^ 53] wherever this is used, so that both convert
    exactly and one correctly rounded division gives it). *)
Definition of_Q (q : Q) : float := div (of_Z (Qnum q)) (of_Z (Zpos (Qden q))).

Definition sgn (s : bool) : Q := if s then (-1)%Q else 1%Q.

(** The value of a finite double (and 0 for the others). *)
Definition to_Q (x : float) : Q :=
  match x with
  | S754_finite s m e => (sgn s * (inject_Z (Zpos m) * 2 ^ e))%Q
  | _ => 0%Q
  end.

(** Truncation toward zero. *)
Definition truncate (q : Q) : Z := Z.quot (Qnum q) (Zpos (Qden q)).

(** [M] is the integer nearest to [y], the even one of the two when [y]
    lies half way. *)
Definition nearest_even (y : Q) (M : Z) : Prop :=
  (inject_Z M - (1 # 2) <= y <= inject_Z M + (1 # 2))%Q /\
  ((y == inject_Z M - (1 # 2) \/ y == inject_Z M + (1 # 2))%Q
   -> Z.even M = true).

(** [r] is the positive number [q] rounded to 53 significant bits (to a
    multiple of [2 ^ -1074] below the normal range), exponents being
    unbounded above. *)
Definition rounding (q r : Q) : Prop :=
  exists m M : Z,
    (2 ^ (m - 1) <= q < 2 ^ m)%Q /\
    nearest_even (q / 2 ^ fexp m) M /\
    (r == inject_Z M * 2 ^ fexp m)%Q.

(** [x] is what a positive magnitude [q], with sign [s], rounds to: the
    nearest double, or the infinity when that rounding reaches
    [2 ^ 1024]. *)
Definition rounds_to (s : bool) (q : Q) (x : float) : Prop :=
  exists r : Q,
    rounding q r /\ valid x = true /\
    ((r < 2 ^ emax)%Q /\ is_finite x = true /\ (to_Q x == sgn s * r)%Q \/
     (2 ^ emax <= r)%Q /\ x = S754_infinity s).

(** A double that is finite and not negative (a zero of either sign
    included). *)
Definition nonneg (x : float) : Prop :=
  valid x = true /\ is_finite x = true /\ (0 <= to_Q x)%Q.

(** The double with mantissa [M] at exponent [c], as the rounding
    functions of [SpecFloat] put it together. *)
Definition pack (s : bool) (M c : Z) : float :=
  match M with
  | Z0 => S754_zero s
  | Zpos m =>
      if M =? 2 ^ prec
      then (if c + 1 <=? emax - prec
            then S754_finite s (Z.to_pos (2 ^ (prec - 1))) (c + 1)
            else S754_infinity s)
      else (if c <=? emax - prec then S754_finite s m c else S754_infinity s)
  | Zneg _ => S754_nan
  end.

End F64.

(** ** Python and NumPy primitives used by the sources *)

Module Py.

(** [int(x)] on a float: truncation toward zero; a NaN is a
    [ValueError] and an infinity an [OverflowError]. *)
Definition int (x : F64.float) : result Z :=
  match x with
  | S754_nan => Raise ValueError
  | S754_infinity _ => Raise OverflowError
  | _ => Ok (F64.truncate (F64.to_Q x))
  end.

(** [l[:k]]: a negative bound counts from the end, and the bound is
    clamped to the length of the list. *)
Definition slice_to {A} (k : Z) (l : list A) : list A :=
  if k <? 0 then take (Z.to_nat (Z.max 0 (k + Z.of_nat (length l)))) l
  else take (Z.to_nat k) l.

Definition Qltb (x y : Q) : bool := negb (Qle_bool y x).

Section Sorting.
Context {A : Type} (key : A -> Q).

(** One step of a stable insertion: [x], which comes before every
    element of [l] in the input, goes in front of the first element
    whose key is not smaller than its own.  Only [<] on keys is used,
    as in CPython. *)
Fixpoint insert_stable (x : A) (l : list A) : list A :=
  match l with
  | [] => [x]
  | y :: l' => if Qltb (key y) (key x) then y :: insert_stable x l'
               else x :: y :: l'
  end.

Definition stable_sort (l : list A) : list A := foldr insert_stable [] l.

(** [sorted(l, key=key, reverse=reverse)].  The sort is stable; with
    [reverse=True] CPython reverses the list, sorts it, and reverses
    the result, which keeps equal keys in their original order. *)
Definition sorted (reverse : bool) (l : list A) : list A :=
  if reverse then rev (stable_sort (rev l)) else stable_sort l.

Definition key_le (x y : A) : Prop := (key x <= key y)%Q.
(** Whether the key of [x] is [k]. *)
Definition has_key (k : Q) (x : A) : bool := Qeq_bool (key x) k.
End Sorting.

(** [range(n)]. *)
Definition range (n : nat) : list nat := seq 0 n.

(** The length [numpy.arange] gives a range of doubles: the ceiling of
    [(stop - start) / step], which must be a number, within the range
    of array sizes. *)
Definition safe_ceil_to_intp (value : F64.float) : result Z :=
  match value with
  | S754_nan => Raise ValueError
  | S754_infinity _ => Raise OverflowError
  | _ => let n := Qceiling (F64.to_Q value) in
         if (- 2 ^ 63 <=? n) && (n <=? 2 ^ 63) then Ok n
         else Raise OverflowError
  end.

(** The entries of a range of doubles: NumPy writes [start] and
    [next = start + step] into the first two places and fills the
    others from these two, entry [i] being [start + i * delta] with
    [delta = next - start], every operation rounding. *)
Definition fill (start next : F64.float) (i : nat) : F64.float :=
  match i with
  | 0%nat => start
  | 1%nat => next
  | _ => F64.add start (F64.mul (F64.of_Z (Z.of_nat i)) (F64.sub next start))
  end.

(** [numpy.arange(start, stop, step)] on doubles, as NumPy computes it:
    the length is the ceiling of [(stop - start) / step], a subtraction
    and a division of doubles (the division by a zero step is an error;
    a quotient that is zero for a difference that is not gives one
    entry, or none below zero); the entries are those of [fill]. *)
Definition arange (start stop step : F64.float) : result (list F64.float) :=
  if F64.is_zero step then Raise ZeroDivisionError
  else
    let difference := F64.sub stop start in
    let value := F64.div difference step in
    len ← (if F64.is_zero value && negb (F64.is_zero difference)
           then Ok (if F64.signbit value then 0 else 1)
           else safe_ceil_to_intp value);
    let next := F64.add start step in
    Ok (List.map (fill start next) (seq 0 (Z.to_nat len))).

(** [sep.join(parts)]. *)
Fixpoint join (sep : string) (parts : list string) : string :=
  match parts with
  | [] => EmptyString
  | p :: parts' =>
      match parts' with
      | [] => p
      | _ :: _ => String.append p (String.append sep (join sep parts'))
      end
  end.

(** The first piece of [s.split(sep)] and the pieces after it, for a
    separator of one character. *)
Fixpoint split_aux (sep : ascii) (s : string) : string * list string :=
  match s with
  | EmptyString => (EmptyString, [])
  | String c s' =>
      let '(w, ws) := split_aux sep s' in
      if Ascii.eqb c sep then (EmptyString, w :: ws) else (String c w, ws)
  end.

(** [s.split(sep)]: the pieces of [s] between the occurrences of [sep];
    there is always at least one piece. *)
Definition split (sep : ascii) (s : string) : list string :=
  let '(w, ws) := split_aux sep s in w :: ws.

(** [c in s] and [s.count(c)] for a character [c]. *)
Fixpoint contains (c : ascii) (s : string) : bool :=
  match s with
  | EmptyString => false
  | String c' s' => Ascii.eqb c' c || contains c s'
  end.

Fixpoint count (c : ascii) (s : string) : nat :=
  match s with
  | EmptyString => 0%nat
  | String c' s' => ((if Ascii.eqb c' c then 1 else 0) + count c s')%nat
  end.

(** The line feed ['\n'] and the carriage return ['\r']. *)
Definition LF : ascii := "010"%char.
Definition CR : ascii := "013"%char.

(** What reading a text file in the default mode does to its content
    (universal newlines): a carriage return, alone or followed by a line
    feed, is read as one line feed. *)
Fixpoint universal_newlines (s : string) : string :=
  match s with
  | EmptyString => EmptyString
  | String c s' =>
      if Ascii.eqb c CR then
        match s' with
        | String c' s'' =>
            if Ascii.eqb c' LF then String LF (universal_newlines s'')
            else String LF (universal_newlines s')
        | EmptyString => String LF EmptyString
        end
      else String c (universal_newlines s')
  end.

(** [d.setdefault(key, value)], for the dictionary it leaves. *)
Definition setdefault {V} (key : string) (value : V) (d : gmap string V)
  : gmap string V :=
  match d !! key with
  | Some _ => d
  | None => <[key := value]> d
  end.

End Py.

(** ** PyTorch primitives used by the sources *)

Module Torch.

(** [torch.cat(tensors)] along the first axis; an empty list of tensors
    is rejected. *)
Definition cat {A} (tensors : list (list A)) : result (list A) :=
  match tensors with
  | [] => Raise RuntimeError
  | _ => Ok (concat tensors)
  end.

(** The batches a sequential [DataLoader] cuts a dataset into:
    consecutive runs of [batch_size] samples, the last one possibly
    shorter. *)
Equations? batches {A} (batch_size : nat) (dataset : list A) : list (list A)
  by wf (length dataset) lt :=
  batches 0 _ := [];
  batches (S n) [] := [];
  batches (S n) (x :: l) := (x :: take n l) :: batches (S n) (drop n l).
Proof. rewrite length_drop. simpl. lia. Qed.

(** [DataLoader(dataset, batch_size=batch_size)]: the constructor
    rejects a batch size that is not positive. *)
Definition DataLoader {A} (dataset : list A) (batch_size : nat)
  : result (list (list A)) :=
  if (batch_size =? 0)%nat then Raise ValueError
  else Ok (batches batch_size dataset).

(** [a.eq(b)] on one-dimensional tensors, with broadcasting of a
    length-one operand; other length mismatches are errors. *)
Definition eq (a b : list Z) : result (list bool) :=
  if (length a =? length b)%nat then Ok (zip_with Z.eqb a b)
  else match a, b with
       | [x], _ => Ok (List.map (Z.eqb x) b)
       | _, [y] => Ok (List.map (fun x => Z.eqb x y) a)
       | _, _ => Raise RuntimeError
       end.

(** [t.sum().item()] of a boolean tensor. *)
Definition sum (t : list bool) : Z := Z.of_nat (length (List.filter id t)).

(** [t[i]] along the first axis, for an index that is not negative. *)
Definition index {X} (t : list X) (i : nat) : result X :=
  match t !! i with
  | Some x => Ok x
  | None => Raise IndexError
  end.

(** [torch.tensor(rows)] on a list of lists: the rows must have one
    length. *)
Definition tensor {X} (rows : list (list X)) : result (list (list X)) :=
  match rows with
  | [] => Ok []
  | r :: rows' =>
      if forallb (fun r' => (length r' =? length r)%nat) rows' then Ok rows
      else Raise ValueError
  end.

End Torch.

(** ** [run_cnn_ablations.py] *)

Module Driver.

Inductive order := ORDER_INCREASING | ORDER_DECREASING.

Definition is_decreasing (o : order) : bool :=
  match o with ORDER_DECREASING => true | ORDER_INCREASING => false end.

(** The command-line arguments that shape the ablation sweep
    ([--ablation-min], [--ablation-max], [--ablation-step-size], all
    parsed with [type=float]). *)
Record args := {
  ablation_min : F64.float;
  ablation_max : F64.float;
  ablation_step_size : F64.float;
}.

(** A spaCy token as the driver reads it: its dependency label, its
    part of speech and its syntactic children. *)
Inductive token : Type :=
  Token { dep_ : string; pos_ : string; children : list token }.

(** The loop that looks for the root keeps the last token labelled
    [ROOT]:
    [[
      root = None
      for token in tokens:
          if token.dep_ == 'ROOT':
              root = token
    ]] *)
Definition find_root (tokens : list token) : option token :=
  fold_left (fun root tok =>
               if String.eqb (dep_ tok) "ROOT" then Some tok else root)
            tokens None.

Fixpoint size (t : token) : nat :=
  match t with Token _ _ cs => S (sum_list (List.map size cs)) end.

Definition frontier_size (frontier : list (token * nat)) : nat :=
  sum_list (List.map (fun p => size (fst p)) frontier).

(** [for child in current.children: frontier.append((child, depth + 1))].
    The frontier is kept top first: the head of the Rocq list is the
    last element of the Python list, the one [frontier.pop()] takes. *)
Definition push_children (cs : list token) (depth : nat)
    (frontier : list (token * nat)) : list (token * nat) :=
  fold_left (fun fr c => (c, S depth) :: fr) cs frontier.

(** The [while frontier:] loop of the parse-depth experiment:
    [[
      while frontier:
          current, depth = frontier.pop()
          for child in current.children:
              frontier.append((child, depth + 1))
          if depth > deepest:
              deepest = depth
    ]] *)
Equations? search (frontier : list (token * nat)) (deepest : nat) : nat
  by wf (frontier_size frontier) lt :=
  search [] deepest := deepest;
  search ((current, depth) :: rest) deepest :=
    search (push_children (children current) depth rest)
           (if (deepest <? depth)%nat then depth else deepest).
Proof.
  assert (Hpush : forall cs fr,
             frontier_size (push_children cs depth fr)
             = (sum_list (List.map size cs) + frontier_size fr)%nat).
  { induction cs as [|c cs IH]; intros fr; simpl; [reflexivity|].
    rewrite IH. unfold frontier_size. simpl. lia. }
  rewrite Hpush. destruct current as [d p cs].
  unfold frontier_size. simpl. lia.
Qed.

(** The score of one caption in the [EXPERIMENT_PARSE_DEPTH] branch;
    [assert root is not None] fails on a caption without a [ROOT]. *)
Definition parse_depth (tokens : list token) : result nat :=
  match find_root tokens with
  | None => Raise AssertionError
  | Some root => Ok (search [(root, 0%nat)] 0%nat)
  end.

(** [scores] of the parse-depth experiment, one per tokenized caption. *)
Definition parse_depth_scores (tokenized : list (list token))
  : result (list Q) :=
  traverse (fun tokens => (fun d : nat => inject_Z (Z.of_nat d)) <$> parse_depth tokens)
       tokenized.

(** The experiments the driver accepts ([EXPERIMENTS]). *)
Inductive experiment :=
| EXPERIMENT_RANDOM
| EXPERIMENT_SEM_AIRLINER
| EXPERIMENT_SEM_CAR
| EXPERIMENT_SEM_CHIHUAHUA
| EXPERIMENT_SEM_FINCH
| EXPERIMENT_SEM_FROG
| EXPERIMENT_SEM_GAZELLE
| EXPERIMENT_SEM_HORSE
| EXPERIMENT_SEM_SHIP
| EXPERIMENT_SEM_TABBY
| EXPERIMENT_SEM_TRUCK
| EXPERIMENT_N_NOUNS
| EXPERIMENT_N_VERBS
| EXPERIMENT_N_ADPS
| EXPERIMENT_N_ADJS
| EXPERIMENT_CAPTION_LENGTH
| EXPERIMENT_MAX_WORD_DIFFERENCE
| EXPERIMENT_PARSE_DEPTH.

(** The string each experiment stands for. *)
Definition value (e : experiment) : string :=
  match e with
  | EXPERIMENT_RANDOM => "random"
  | EXPERIMENT_SEM_AIRLINER => "airliner"
  | EXPERIMENT_SEM_CAR => "car"
  | EXPERIMENT_SEM_CHIHUAHUA => "chihuahua"
  | EXPERIMENT_SEM_FINCH => "finch"
  | EXPERIMENT_SEM_FROG => "frog"
  | EXPERIMENT_SEM_GAZELLE => "gazelle"
  | EXPERIMENT_SEM_HORSE => "horse"
  | EXPERIMENT_SEM_SHIP => "ship"
  | EXPERIMENT_SEM_TABBY => "tabby"
  | EXPERIMENT_SEM_TRUCK => "truck"
  | EXPERIMENT_N_NOUNS => "n-nouns"
  | EXPERIMENT_N_VERBS => "n-verbs"
  | EXPERIMENT_N_ADPS => "n-adpositions"
  | EXPERIMENT_N_ADJS => "n-adjectives"
  | EXPERIMENT_CAPTION_LENGTH => "caption-length"
  | EXPERIMENT_MAX_WORD_DIFFERENCE => "max-word-difference"
  | EXPERIMENT_PARSE_DEPTH => "parse-depth"
  end.

Inductive group :=
| GROUP_RANDOM
| GROUP_SEMANTIC
| GROUP_SYNTACTIC
| GROUP_STRUCTURAL.

Definition GROUPS_BY_EXPERIMENT (e : experiment) : group :=
  match e with
  | EXPERIMENT_RANDOM => GROUP_RANDOM
  | EXPERIMENT_SEM_AIRLINER | EXPERIMENT_SEM_CAR | EXPERIMENT_SEM_CHIHUAHUA
  | EXPERIMENT_SEM_FINCH | EXPERIMENT_SEM_FROG | EXPERIMENT_SEM_GAZELLE
  | EXPERIMENT_SEM_HORSE | EXPERIMENT_SEM_SHIP | EXPERIMENT_SEM_TABBY
  | EXPERIMENT_SEM_TRUCK => GROUP_SEMANTIC
  | EXPERIMENT_N_NOUNS | EXPERIMENT_N_VERBS | EXPERIMENT_N_ADPS
  | EXPERIMENT_N_ADJS => GROUP_SYNTACTIC
  | EXPERIMENT_CAPTION_LENGTH | EXPERIMENT_MAX_WORD_DIFFERENCE
  | EXPERIMENT_PARSE_DEPTH => GROUP_STRUCTURAL
  end.

(** The part of speech a syntactic experiment counts (a dictionary
    indexed by the experiment). *)
Definition pos_of (e : experiment) : result string :=
  match e with
  | EXPERIMENT_N_NOUNS => Ok "NOUN"%string
  | EXPERIMENT_N_VERBS => Ok "VERB"%string
  | EXPERIMENT_N_ADPS => Ok "ADP"%string
  | EXPERIMENT_N_ADJS => Ok "ADJ"%string
  | _ => Raise KeyError
  end.

(** [sum(token.pos_ == pos for token in tokens)]. *)
Definition count_pos (pos : string) (tokens : list token) : Q :=
  inject_Z (Z.of_nat (length (List.filter (fun t => String.eqb (pos_ t) pos)
                                          tokens))).

(** [((u - v) ** 2).sum()]. *)
Definition squared_distance (u v : list Q) : Q :=
  foldr Qplus 0%Q (zip_with (fun a b => (a - b) * (a - b))%Q u v).

(** [t.max().item()], of a tensor with first entry [x] and others [l]. *)
Definition max_of (x : Q) (l : list Q) : Q :=
  fold_left (fun m y => if Py.Qltb m y then y else m) l x.

Section Scores.
(** The spaCy pipeline [nlp], [Doc.similarity], [token.vector], and the
    numbers [torch.rand] draws in each trial. *)
Variable nlp : string -> list token.
Variable similarity : list token -> list token -> Q.
Variable vector : token -> list Q.
Variable rand : nat -> nat -> Q.

(** The score of one caption in the [EXPERIMENT_MAX_WORD_DIFFERENCE]
    branch: the largest squared distance between the vectors of two of
    its tokens; [torch.stack] rejects a caption without tokens. *)
Definition max_word_difference (tokens : list token) : result Q :=
  let vectors := List.map vector tokens in
  match flat_map (fun u => List.map (squared_distance u) vectors) vectors with
  | [] => Raise RuntimeError
  | d :: distances => Ok (max_of d distances)
  end.

(** The scores of one trial of an experiment, one per caption: the
    chain of [if group == ...] and [elif experiment == ...] of the
    driver. *)
Definition scores (e : experiment) (trial : nat) (captions : list string)
  : result (list Q) :=
  let tokenized := List.map nlp captions in
  match GROUPS_BY_EXPERIMENT e with
  | GROUP_RANDOM => Ok (List.map (rand trial) (seq 0 (length captions)))
  | GROUP_SEMANTIC =>
      let target := nlp (value e) in
      Ok (List.map (fun toks => similarity toks target) tokenized)
  | GROUP_SYNTACTIC =>
      pos ← pos_of e;
      Ok (List.map (count_pos pos) tokenized)
  | GROUP_STRUCTURAL =>
      match e with
      | EXPERIMENT_CAPTION_LENGTH =>
          Ok (List.map (fun tokens => inject_Z (Z.of_nat (length tokens)))
                       tokenized)
      | EXPERIMENT_PARSE_DEPTH => parse_depth_scores tokenized
      | _ => traverse max_word_difference tokenized
      end
  end.
End Scores.

(** [scores[i]]; outside the list Python raises [IndexError], which
    [indices] below reports. *)
Definition score_at (scores : list Q) (i : nat) : Q := nth i scores 0%Q.

(** [indices = sorted(range(len(captions)), key=lambda i: scores[i],
                      reverse=order == ORDER_DECREASING)].
    A score list shorter than the captions makes a key raise
    [IndexError]. *)
Definition indices (captions : list string) (scores : list Q) (o : order)
  : result (list nat) :=
  if (length scores <? length captions)%nat then Raise IndexError
  else Ok (Py.sorted (score_at scores) (is_decreasing o)
                     (Py.range (length captions))).

(** [fractions = np.arange(args.ablation_min, args.ablation_max,
                           args.ablation_step_size)]. *)
Definition fractions (a : args) : result (list F64.float) :=
  Py.arange (ablation_min a) (ablation_max a) (ablation_step_size a).

(** [ablated = indices[:int(fraction * len(indices))]]: the product of
    the double [fraction] and the length, converted to a double, is
    rounded before [int] truncates it. *)
Definition ablated (idx : list nat) (fraction : F64.float)
  : result (list nat) :=
  k ← Py.int (F64.mul fraction (F64.of_Z (Z.of_nat (length idx))));
  Ok (Py.slice_to k idx).

(** The loop over one order: the ablated list at every fraction of the
    sweep, in the order the fractions are visited; the loop ends at the
    first fraction whose product with the length is not a finite
    number. *)
Definition ablation_sweep (a : args) (captions : list string)
    (scores : list Q) (o : order) : result (list (list nat)) :=
  idx ← indices captions scores o;
  fs ← fractions a;
  traverse (ablated idx) fs.

(** What "sorted by score" means for each order. *)
Definition in_order (scores : list Q) (o : order) (i j : nat) : Prop :=
  match o with
  | ORDER_INCREASING => (score_at scores i <= score_at scores j)%Q
  | ORDER_DECREASING => (score_at scores j <= score_at scores i)%Q
  end.

(** Downward paths in a parse tree: [path t n] when some descendant of
    [t] (or [t] itself, for [n = 0]) lies [n] edges below [t]. *)
Inductive path : token -> nat -> Prop :=
| path_here t : path t 0
| path_down t c n : In c (children t) -> path c n -> path t (S n).

(** The height of a parse tree, by structural recursion. *)
Fixpoint height (t : token) : nat :=
  match t with
  | Token _ _ cs => foldr Nat.max 0%nat (List.map (fun c => S (height c)) cs)
  end.

(** The maximum depth of the parse of a caption in the words of the
    specification, over every tree of the parse: the largest height of
    a token labelled [ROOT]. *)
Definition max_depth (tokens : list token) : nat :=
  foldr Nat.max 0%nat
        (List.map height
                  (List.filter (fun tok => String.eqb (dep_ tok) "ROOT") tokens)).

(** The depth of the deepest token that can still be reached from a
    frontier. *)
Definition reach (frontier : list (token * nat)) : nat :=
  foldr Nat.max 0%nat (List.map (fun p => (snd p + height (fst p))%nat) frontier).

(** [handle.write('\n'.join(captions))]: the text of [captions.txt]
    (written on a system whose line separator is the line feed, so that
    writing translates nothing). *)
Definition save_captions (captions : list string) : string :=
  Py.join (String Py.LF EmptyString) captions.

(** [captions = handle.read().split('\n')]. *)
Definition load_captions (text : string) : list string :=
  Py.split Py.LF (Py.universal_newlines text).

(** [EXPERIMENTS], the choices of [--experiments] and its default. *)
Definition EXPERIMENTS : list experiment :=
  [EXPERIMENT_RANDOM; EXPERIMENT_SEM_AIRLINER; EXPERIMENT_SEM_CAR;
   EXPERIMENT_SEM_CHIHUAHUA; EXPERIMENT_SEM_FINCH; EXPERIMENT_SEM_FROG;
   EXPERIMENT_SEM_GAZELLE; EXPERIMENT_SEM_HORSE; EXPERIMENT_SEM_SHIP;
   EXPERIMENT_SEM_TABBY; EXPERIMENT_SEM_TRUCK; EXPERIMENT_N_NOUNS;
   EXPERIMENT_N_VERBS; EXPERIMENT_N_ADPS; EXPERIMENT_N_ADJS;
   EXPERIMENT_CAPTION_LENGTH; EXPERIMENT_MAX_WORD_DIFFERENCE;
   EXPERIMENT_PARSE_DEPTH].

(** The string each group stands for. *)
Definition group_value (g : group) : string :=
  match g with
  | GROUP_RANDOM => "random"
  | GROUP_SEMANTIC => "semantic"
  | GROUP_SYNTACTIC => "syntactic"
  | GROUP_STRUCTURAL => "structural"
  end.

(** [EXPERIMENTS_BY_GROUP]: the experiments of each group. *)
Definition EXPERIMENTS_BY_GROUP (g : group) : list experiment :=
  match g with
  | GROUP_RANDOM => [EXPERIMENT_RANDOM]
  | GROUP_SEMANTIC =>
      [EXPERIMENT_SEM_AIRLINER; EXPERIMENT_SEM_CAR; EXPERIMENT_SEM_CHIHUAHUA;
       EXPERIMENT_SEM_FINCH; EXPERIMENT_SEM_FROG; EXPERIMENT_SEM_GAZELLE;
       EXPERIMENT_SEM_HORSE; EXPERIMENT_SEM_SHIP; EXPERIMENT_SEM_TABBY;
       EXPERIMENT_SEM_TRUCK]
  | GROUP_SYNTACTIC =>
      [EXPERIMENT_N_NOUNS; EXPERIMENT_N_VERBS; EXPERIMENT_N_ADPS;
       EXPERIMENT_N_ADJS]
  | GROUP_STRUCTURAL =>
      [EXPERIMENT_CAPTION_LENGTH; EXPERIMENT_MAX_WORD_DIFFERENCE;
       EXPERIMENT_PARSE_DEPTH]
  end.

(** Experiments and groups are compared and hashed as the strings they
    are. *)
#[global] Instance experiment_eq_dec : EqDecision experiment.
Proof. solve_decision. Defined.

#[global] Instance group_eq_dec : EqDecision group.
Proof. solve_decision. Defined.

#[global] Instance experiment_countable : Countable experiment.
Proof.
  refine (inj_countable value
            (fun s => List.find (fun e => String.eqb (value e) s) EXPERIMENTS) _).
  intros []; reflexivity.
Defined.

(** The experiments to run:
    [[
      experiments = set(args.experiments)
      if args.groups:
          for group in args.groups:
              experiments |= EXPERIMENTS_BY_GROUP[group]
    ]] *)
Definition selected (args_experiments : list experiment)
    (args_groups : option (list group)) : gset experiment :=
  fold_left (fun experiments g =>
               experiments ∪ list_to_set (EXPERIMENTS_BY_GROUP g))
            (default [] args_groups) (list_to_set args_experiments).

(** The place of a group among the four when their names are compared
    as Python compares strings: ['random' < 'semantic' < 'structural'
    < 'syntactic']. *)
Definition group_key (g : group) : Q :=
  match g with
  | GROUP_RANDOM => 0
  | GROUP_SEMANTIC => 1
  | GROUP_STRUCTURAL => 2
  | GROUP_SYNTACTIC => 3
  end.

(** [sorted(experiments, key=lambda exp: GROUPS_BY_EXPERIMENT[exp])],
    where [iteration] is the order in which the set yields its
    elements. *)
Definition experiment_order (iteration : list experiment) : list experiment :=
  Py.sorted (fun exp => group_key (GROUPS_BY_EXPERIMENT exp)) false iteration.

End Driver.

(** ** [src/milan/classifiers.py] *)

Module Classifiers.

(** [Unit]: a layer name and the index of a unit in that layer. *)
Definition Unit : Type := string * nat.

Section ImageClassifier.
(** The activation of one unit on one image, and its zero. *)
Context {act : Type}.
Variable zero : act.

(** The activations of all the units of a layer on one image; the
    input image and the output logits of a network are tensors too. *)
Definition tensor : Type := list act.

(** [torch.argmax(dim=-1)] on one row of logits. *)
Variable argmax : tensor -> Z.

(** A layer of the wrapped model, acting on a batch. *)
Record Layer := { name : string; run : list tensor -> list tensor }.

(** The wrapped classification model, [self.model]. *)
Definition Model : Type := list Layer.

(** [self.model(images)]. *)
Definition forward (model : Model) (images : list tensor) : list tensor :=
  fold_left (fun a l => run l a) model images.

(** Modelled from the spec: the zeroing [ablations.ablated] applies to
    the output of a layer, on one image: the activations of the units of
    [layer] listed in [units] become zero, the others stay. *)
Definition zero_units (units : list Unit) (layer : string) (t : tensor)
  : tensor :=
  imap (fun i a => if bool_decide ((layer, i) ∈ units) then zero else a) t.

(** Modelled from the spec: [ablations.ablated(model, units)], of
    [src/utils/ablations.py], is not among the sources.  The spec
    describes it as "ablating specified units (zeroing activations)
    during forward passes": the model it yields runs the layers of
    [model] and, after each layer, zeroes the activations of the units
    of that layer that are listed in [units]. *)
Definition ablated (model : Model) (units : list Unit)
    (images : list tensor) : list tensor :=
  fold_left (fun a l => List.map (zero_units units (name l)) (run l a))
            model images.

(** A dataset sample: [sample[image_index]] and
    [sample[target_index]]. *)
Record sample := { s_image : tensor; s_target : Z }.

(** [ImageClassifier.predict]:
    [[
      loader = data.DataLoader(dataset, num_workers=num_workers,
                               batch_size=batch_size)
      predictions = []
      with ablations.ablated(self.model, ablate or []) as ablated:
          for batch in loader:
              images = batch[image_index].to(device)
              with torch.no_grad():
                  predictions.append(ablated(images).argmax(dim=-1))
      return torch.cat(predictions)
    ]] *)
Definition predict (model : Model) (dataset : list sample)
    (batch_size : nat) (ablate : option (list Unit)) : result (list Z) :=
  loader ← Torch.DataLoader dataset batch_size;
  let predictions :=
    List.map (fun batch =>
                let images := List.map s_image batch in
                List.map argmax (ablated model (default [] ablate) images))
             loader in
  Torch.cat predictions.

(** [[dataset[index][target_index] for index in range(size)]]. *)
Definition targets_of (dataset : list sample) : list Z :=
  List.map s_target dataset.

(** [correct / size]: true division of two integers. *)
Definition true_div (a b : Z) : result Q :=
  if b =? 0 then Raise ZeroDivisionError
  else Ok (inject_Z a / inject_Z b)%Q.

(** [ImageClassifier.accuracy]; the keyword arguments forwarded to
    [predict] are [batch_size] and [ablate]. *)
Definition accuracy (model : Model) (dataset : list sample)
    (predictions : option (list Z)) (batch_size : nat)
    (ablate : option (list Unit)) : result Q :=
  predictions ← match predictions with
                | None => predict model dataset batch_size ablate
                | Some p => Ok p
                end;
  let size := length dataset in
  let targets := targets_of dataset in
  eqs ← Torch.eq predictions targets;
  let correct := Torch.sum eqs in
  true_div correct (Z.of_nat size).

(** One turn of the counting loop of [accuracies], on the two
    [defaultdict(int)]:
    [[
      correct[target] += prediction == target
      total[target] += 1
    ]] *)
Definition count (acc : gmap Z Z * gmap Z Z) (pt : Z * Z)
  : gmap Z Z * gmap Z Z :=
  let '(correct, total) := acc in
  let '(prediction, target) := pt in
  (<[target := default 0 (correct !! target)
               + (if prediction =? target then 1 else 0)]> correct,
   <[target := default 0 (total !! target) + 1]> total).

(** [ImageClassifier.accuracies]:
    [[
      for prediction, target in zip(predictions.tolist(),
                                    targets.tolist()):
          ...
      assert correct.keys() == total.keys()
      return {target: correct[target] / total[target]
              for target in correct.keys()}
    ]] *)
Definition accuracies (model : Model) (dataset : list sample)
    (predictions : option (list Z)) (batch_size : nat)
    (ablate : option (list Unit)) : result (gmap Z Q) :=
  predictions ← match predictions with
                | None => predict model dataset batch_size ablate
                | Some p => Ok p
                end;
  let targets := targets_of dataset in
  let '(correct, total) :=
    fold_left count (zip predictions targets) (∅, ∅) in
  if negb (bool_decide (dom correct = dom total)) then Raise AssertionError
  else if negb (bool_decide (map_Forall (fun _ n => n ≠ 0) total))
  then Raise ZeroDivisionError
  else Ok (map_imap (fun (target : Z) (c : Z) =>
                       Some (Qdiv (inject_Z c)
                                  (inject_Z (default 0 (total !! target)))))
                    correct).

(** The number of samples of a class, and the weighted sum the
    specification compares [accuracy] with, over the rationals: the
    exact quotients, added exactly. *)
Definition class_count (dataset : list sample) (c : Z) : Z :=
  Z.of_nat (length (List.filter (Z.eqb c) (targets_of dataset))).

Definition weighted_sum (dataset : list sample) (accs : gmap Z Q) : Q :=
  map_fold (fun c a s => a * inject_Z (class_count dataset c) + s)%Q 0%Q accs.

(** The sum of [f] over the classes that occur among [targets], each
    class once. *)
Definition class_sum (f : Z -> Z) (targets : list Z) : Z :=
  foldr (fun c s => f c + s) 0 (remove_dups targets).

(** The weighted average of the specification computed on doubles, as
    it is written: the sum over the classes of [accuracies[c]] times
    the number of samples of the class, divided by the size of the
    dataset; [F64.of_Q] gives the double that a quotient of two
    integers is returned as, and the terms are added in the order of
    the keys of the map. *)
Definition weighted_average_f64 (dataset : list sample) (accs : gmap Z Q)
  : F64.float :=
  F64.div (map_fold (fun c a s =>
                       F64.add (F64.mul (F64.of_Q a)
                                        (F64.of_Z (class_count dataset c))) s)
                    (F64.of_Z 0) accs)
          (F64.of_Z (Z.of_nat (length dataset))).

(** Whether prediction and target agree at index [i], and the number
    of indices below [n] at which they do. *)
Definition agree (predictions targets : list Z) (i : nat) : bool :=
  match predictions !! i, targets !! i with
  | Some p, Some t => p =? t
  | _, _ => false
  end.

Definition matches (predictions targets : list Z) (n : nat) : Z :=
  Z.of_nat (length (List.filter (agree predictions targets) (seq 0 n))).

(** The sum of the values of a dictionary of counters. *)
Definition map_sum (m : gmap Z Z) : Z :=
  map_fold (fun _ v s => v + s) 0 m.

(** A model that returns one row of activations per image of the
    batch, layer after layer. *)
Definition row_preserving (model : Model) : Prop :=
  Forall (fun l => forall x, length (run l x) = length x) model.

(** The rows the ablated model puts out over the whole loader, batch
    after batch. *)
Definition outputs (model : Model) (units : list Unit) (batch_size : nat)
    (dataset : list sample) : list tensor :=
  concat (List.map (fun batch => ablated model units (List.map s_image batch))
                   (Torch.batches batch_size dataset)).
(** For the pairs of a prediction and a target the counting loop of
    [accuracies] goes through: the number of pairs whose target is [c],
    and the number of those whose prediction is right. *)
Definition class_total (pairs : list (Z * Z)) (c : Z) : Z :=
  Z.of_nat (length (List.filter (Z.eqb c) pairs.*2)).

Definition class_correct (pairs : list (Z * Z)) (c : Z) : Z :=
  Z.of_nat (length (List.filter
                      (fun pt : Z * Z => (c =? pt.2) && (pt.1 =? pt.2)) pairs)).

(** A model whose layers treat the images of a batch one by one. *)
Definition rowwise (model : Model) : Prop :=
  Forall (fun l => exists f, forall x, run l x = List.map f x) model.
End ImageClassifier.

(** One turn of the loop of [fit] that collects the parameters to
    optimize, over the module names and parameters that
    [named_modules()] yields:
    [[
      for name, submodule in self.model.named_modules():
          if name in missing:
              parameters += list(submodule.parameters())
              missing -= {name}
    ]] *)
Definition collect {P : Type} (acc : list P * gset string)
    (m : string * list P) : list P * gset string :=
  if bool_decide (m.1 ∈ acc.2) then (acc.1 ++ m.2, acc.2 ∖ {[m.1]}) else acc.

(** The parameters [fit] hands to the optimizer: all the parameters of
    the classifier ([own]) when [layers] is [None], and otherwise those
    of the modules named in [layers] (the strings [str(layer)]); a
    layer that names no module is a [KeyError]. *)
Definition fit_parameters {P : Type} (own : list P)
    (named_modules : list (string * list P)) (layers : option (list string))
  : result (list P) :=
  match layers with
  | None => Ok own
  | Some layers =>
      let '(parameters, missing) :=
        fold_left collect named_modules ([], list_to_set layers) in
      if bool_decide (missing = ∅) then Ok parameters else Raise KeyError
  end.

End Classifiers.

(** ** [run_cnn_ablations.py]: the evaluation of one ablation *)

Module Evaluation.
Import Classifiers.
Section Evaluate.
Context {act : Type}.
Variable zero : act.
Variable argmax : list act -> Z.

(** [dissected.units(ablated)]: the units of the network that the
    positions of the ranking stand for. *)
Variable units : list nat -> list Unit.

(** The calls on the classifier in one turn of the loop over the
    fractions, with the default batch size of [predict]:
    [[
      units = dissected.units(ablated)
      predictions = cnn.predict(dataset, ablate=units, ...)
      accuracy = cnn.accuracy(dataset, predictions=predictions, ...)
      ... cnn.accuracies(dataset, predictions=predictions, ...) ...
    ]] *)
Definition evaluate (cnn : @Model act) (dataset : list sample)
    (ablated : list nat) : result (Q * gmap Z Q) :=
  predictions ← predict zero argmax cnn dataset 128 (Some (units ablated));
  accuracy ← accuracy zero argmax cnn dataset (Some predictions) 128 None;
  accuracies ← accuracies zero argmax cnn dataset (Some predictions) 128 None;
  Ok (accuracy, accuracies).
End Evaluate.
End Evaluation.

(** ** [lv/utils/training.py] *)

Module Training.

(** Modelled from the spec: [training.EarlyStopping], of
    [lv/utils/training.py], is not among the sources.  Its use in [fit]
    ("Stop training if validation loss does not improve for this many
    epochs") and the specification ("stops earlier exactly when the
    held-out validation loss has failed to improve for [patience]
    consecutive epochs") describe it: calling the stopper with a loss
    records whether the loss is lower than the best one seen so far,
    counts the consecutive calls without improvement, and answers
    whether that count has reached [patience]. *)
Record EarlyStopping := {
  patience : nat;
  best_value : option Q;      (* [None]: nothing seen yet *)
  num_bad : nat;
}.

(** Modelled from the spec: [training.EarlyStopping(patience=patience)],
    the stopper before any loss was seen. *)
Definition new (patience : nat) : EarlyStopping :=
  {| patience := patience; best_value := None; num_bad := 0 |}.

(** Modelled from the spec: whether a loss improves on the best one
    seen so far. *)
Definition is_better (s : EarlyStopping) (value : Q) : bool :=
  match best_value s with
  | None => true
  | Some b => Py.Qltb value b
  end.

(** Modelled from the spec: [stopper(value)], which records the loss
    and answers whether training should stop. *)
Definition call (s : EarlyStopping) (value : Q) : EarlyStopping * bool :=
  let s' :=
    if is_better s value
    then {| patience := patience s; best_value := Some value; num_bad := 0 |}
    else {| patience := patience s; best_value := best_value s;
            num_bad := S (num_bad s) |} in
  (s', (patience s' <=? num_bad s')%nat).

(** Modelled from the spec: [stopper.improved], whether the last loss
    recorded was an improvement. *)
Definition improved (s : EarlyStopping) : bool := (num_bad s =? 0)%nat.

End Training.

(** ** [lv/models/lms.py] *)

Module Lms.

Section Fit.
(** The parameter tensors of the model and the state of the optimizer
    (with everything else a training epoch reads: the shuffled
    batches, the dropout masks). *)
Context {params optim : Type}.

(** One pass over [train_loader]: [loss.backward()], then
    [optimizer.step()], which updates the parameter tensors in place. *)
Variable train_epoch : optim * params -> optim * params.

(** The mean loss over [val_loader], under [torch.no_grad()]. *)
Variable val_loss : params -> Q.

(** [len(train_loader)] and [len(val_loader)]. *)
Variables n_train_batches n_val_batches : nat.

(** Tensor storage: what each tensor currently holds. *)
Local Abbreviation heap := (nat -> params).

(** The module owns its parameter tensors, which live at [storage]. *)
Record LanguageModel := { storage : nat }.

(** [self.state_dict()] returns a dictionary that refers to the
    parameter tensors of the module themselves; nothing is copied. *)
Definition state_dict (self : LanguageModel) : nat := storage self.

(** [self.load_state_dict(state)] copies the contents of the tensors of
    [state] into the parameter tensors of the module. *)
Definition load_state_dict (self : LanguageModel) (state : nat) (h : heap)
  : heap :=
  <[storage self := h state]> h.

(** The variables of the training loop, with the number of epochs run
    so far and whether the loop left through [break]. *)
Record run := {
  tensors : heap;
  optimizer : optim;
  stopper : Training.EarlyStopping;
  best : nat;
  epochs : nat;
  stopped : bool;
}.

(** The loop of [fit]; it is entered with a training loader that has a
    batch (see [fit]), so [train_loss /= len(train_loader)] divides by
    a positive number.
    [[
      for _ in progress:
          self.train()
          ... optimizer.step() ...
          train_loss /= len(train_loader)
          self.eval()
          ...
          val_loss /= len(val_loader)
          if stopper(val_loss):
              self.load_state_dict(best)
              break
          if stopper.improved:
              best = self.state_dict()
    ]] *)
Fixpoint fit_loop (self : LanguageModel) (progress : nat) (r : run)
  : result run :=
  match progress with
  | O => Ok r
  | S progress' =>
      let '(o, p) := train_epoch (optimizer r, tensors r (storage self)) in
      let h := <[storage self := p]> (tensors r) in
      if (n_val_batches =? 0)%nat then Raise ZeroDivisionError
      else
        let '(s, stop) := Training.call (stopper r) (val_loss (h (storage self))) in
        if stop
        then Ok {| tensors := load_state_dict self (best r) h;
                   optimizer := o; stopper := s; best := best r;
                   epochs := S (epochs r); stopped := true |}
        else fit_loop self progress'
               {| tensors := h; optimizer := o; stopper := s;
                  best := if Training.improved s then state_dict self
                          else best r;
                  epochs := S (epochs r); stopped := false |}
  end.

(** [LanguageModel.fit], from the loaders on:
    [[
      train_loader = data.DataLoader(train, batch_size=batch_size,
                                     shuffle=True)
      val_loader = data.DataLoader(val, batch_size=batch_size)
      ...
      best = self.state_dict()
      for _ in progress: ...
    ]]
    With [shuffle=True] the loader builds a [RandomSampler], which
    rejects an empty training set with [ValueError]; the training
    loader has no batch only when the training set is empty.  The
    validation loader may be empty. *)
Definition fit (self : LanguageModel) (h : heap) (o : optim)
    (max_epochs patience : nat) : result run :=
  if (n_train_batches =? 0)%nat then Raise ValueError
  else
    fit_loop self max_epochs
      {| tensors := h; optimizer := o; stopper := Training.new patience;
         best := state_dict self; epochs := 0; stopped := false |}.

(** The parameters of the model after a run. *)
Definition parameters (self : LanguageModel) (r : run) : params :=
  tensors r (storage self).

(** The parameters after [k] training epochs from [(o, p)]. *)
Fixpoint trained (k : nat) (op : optim * params) : optim * params :=
  match k with
  | O => op
  | S k' => train_epoch (trained k' op)
  end.

(** The validation loss measured at the end of epoch [k] (from 1). *)
Definition loss_at (op : optim * params) (k : nat) : Q :=
  val_loss (snd (trained k op)).
End Fit.

Section Factory.
(** The values of keyword arguments, among them [True] and the
    tokenizer [lang.tokenizer(lemmatize=False, ignore_stop=False,
    ignore_punct=False)]. *)
Context {V : Type}.
Variables (true_ tokenizer : V).

(** The options [lm] hands to [lang.indexer]:
    [[
      if indexer_kwargs is None:
          indexer_kwargs = {}
      ...
      indexer_kwargs = dict(indexer_kwargs)
      if 'tokenize' not in indexer_kwargs:
          indexer_kwargs['tokenize'] = lang.tokenizer(...)
      for key in ('start', 'stop', 'pad', 'unk'):
          indexer_kwargs.setdefault(key, True)
    ]] *)
Definition indexer_kwargs (given : option (gmap string V)) : gmap string V :=
  let kwargs := default ∅ given in
  let kwargs :=
    if bool_decide (is_Some (kwargs !! "tokenize"%string)) then kwargs
    else <["tokenize"%string := tokenizer]> kwargs in
  fold_left (fun kwargs key => Py.setdefault key true_ kwargs)
            ["start"; "stop"; "pad"; "unk"]%string kwargs.
End Factory.

Section Predict.
(** [torch.exp] on one log probability. *)
Context {prob : Type}.
Variable exp : Q -> prob.

(** [self.indexer(batch, start=..., stop=..., pad=..., unk=True)]: the
    indices of the tokens of every string of the batch. *)
Variable indexer : list string -> bool -> bool -> bool -> list (list nat).

(** [self(inputs)]: for every row of [inputs], at every position, the
    log probability of every token of the vocabulary. *)
Variable model : list (list nat) -> list (list (list Q)).

(** [output[torch.arange(len(target)), target].sum()]. *)
Definition logprob (output : list (list Q)) (target : list nat) : result Q :=
  picked ← traverse (fun pt : nat * nat =>
                       row ← Torch.index output pt.1; Torch.index row pt.2)
                    (zip (Py.range (length target)) target);
  Ok (foldr Qplus 0%Q picked).

(** The body of the loop over the loader:
    [[
      inputs = torch.tensor(self.indexer(batch, start=True, stop=False,
                                         pad=True, unk=True))
      outputs = self(inputs)
      targets = self.indexer(batch, start=False, stop=True, pad=False,
                             unk=True)
      for output, target in zip(outputs, targets):
          logprob = output[torch.arange(len(target)), target].sum()
          logprobs.append(logprob.item())
    ]] *)
Definition predict_batch (batch : list string) : result (list Q) :=
  inputs ← Torch.tensor (indexer batch true false true);
  let outputs := model inputs in
  let targets := indexer batch false true false in
  traverse (fun ot : list (list Q) * list nat => logprob ot.1 ot.2)
           (zip outputs targets).

(** [LanguageModel.predict]. *)
Definition predict (sequences : list string) (batch_size : nat)
  : result (list prob) :=
  loader ← Torch.DataLoader sequences batch_size;
  logprobs ← traverse predict_batch loader;
  Ok (List.map exp (concat logprobs)).
End Predict.

End Lms.

(** ** [lv/models/featurizers.py]: [Featurizer] *)

Module Featurizer.

Section Map.
(** One image or one mask, and one row of features. *)
Context {tensor row : Type}.

(** What a dataset sample holds at an index: a [torch.Tensor] or a
    string.  (Numbers and arrays are turned into tensors by the
    loader and count as tensors here.) *)
Inductive field :=
| FTensor (t : tensor)
| FStr (s : string).

(** A dataset sample, read at [image_index] and at [mask_index]. *)
Record sample := { at_image : field; at_mask : field }.

(** An entry of a collated batch: a tensor with one row per sample, or
    the list of strings the samples held. *)
Inductive entry :=
| ETensor (rows : list tensor)
| EStrs (vals : list field).

Definition is_tensor (e : entry) : bool :=
  match e with ETensor _ => true | EStrs _ => false end.

Definition as_tensor (f : field) : result tensor :=
  match f with FTensor t => Ok t | FStr _ => Raise TypeError end.

(** The default collate function of the loader, on one column of a
    batch: it goes by the type of the first element.  Tensors are
    stacked, which fails if some other element is not a tensor (the
    tensors of one column are taken to have one shape); strings are
    passed through as a list. *)
Definition collate (column : list field) : result entry :=
  match column with
  | FTensor _ :: _ => ETensor <$> traverse as_tensor column
  | _ => Ok (EStrs column)
  end.

(** The abstract method [forward(images, masks)]. *)
Variable forward : list tensor -> list tensor -> result (list row).

(** The body of the loop over the loader, for the batches that are
    still to come:
    [[
      images = batch[image_index]
      if not isinstance(images, torch.Tensor):
          raise ValueError(...)
      masks = batch[mask_index]
      if not isinstance(masks, torch.Tensor):
          raise ValueError(...)
      with torch.no_grad():
          features = self(images, masks, **kwargs)
      mapped.append(features)
    ]]
    Each batch is collated when the loop reaches it. *)
Fixpoint map_loop (loader : list (list sample)) (mapped : list (list row))
  : result (list (list row)) :=
  match loader with
  | [] => Ok mapped
  | batch :: loader' =>
      images ← collate (List.map at_image batch);
      masks ← collate (List.map at_mask batch);
      match images with
      | EStrs _ => Raise ValueError
      | ETensor images =>
          match masks with
          | EStrs _ => Raise ValueError
          | ETensor masks =>
              features ← forward images masks;
              map_loop loader' (mapped ++ [features])
          end
      end
  end.

(** [Featurizer.map]; the [TensorDataset] it returns is the tensor it
    wraps, one row per element. *)
Definition map (dataset : list sample) (batch_size : nat)
  : result (list row) :=
  loader ← Torch.DataLoader dataset batch_size;
  mapped ← map_loop loader [];
  Torch.cat mapped.

(** The batches the loader yields before it fails, if it does. *)
Fixpoint yielded (chunks : list (list sample)) : list (entry * entry) :=
  match chunks with
  | [] => []
  | batch :: chunks' =>
      match collate (List.map at_image batch),
            collate (List.map at_mask batch) with
      | Ok images, Ok masks => (images, masks) :: yielded chunks'
      | _, _ => []
      end
  end.

Definition holds_tensors (s : sample) : Prop :=
  (exists t, at_image s = FTensor t) /\ (exists t, at_mask s = FTensor t).

Definition tensor_of (f : field) : option tensor :=
  match f with FTensor t => Some t | FStr _ => None end.

(** The feature rows [forward] gives for the samples of one batch. *)
Definition rows_of (batch : list sample) : list row :=
  match forward (omap (fun s => tensor_of (at_image s)) batch)
                (omap (fun s => tensor_of (at_mask s)) batch) with
  | Ok rows => rows
  | Raise _ => []
  end.

(** A batch whose image entry or mask entry is not a tensor. *)
Definition not_tensors (b : entry * entry) : Prop :=
  is_tensor (fst b) = false \/ is_tensor (snd b) = false.
End Map.

Arguments field : clear implicits.
Arguments sample : clear implicits.
Arguments entry : clear implicits.

End Featurizer.

(** ** [lv/models/featurizers.py]: [PretrainedPyramidFeaturizer] *)

Module PretrainedPyramidFeaturizer.

(** A tensor indexed along its first axis: by a one-dimensional index
    tensor, which keeps the axis, or by a zero-dimensional one, which
    selects a single element and drops the axis. *)
Inductive index :=
| Scalar (i : nat)
| Vector (positions : list nat).

Inductive indexed (X : Type) :=
| Single (x : X)
| Batch (xs : list X).
Arguments Single {X} x.
Arguments Batch {X} xs.

(** [valid.nonzero()]: the positions of the true entries, as a tensor of
    shape (k, 1). *)
Definition nonzero (valid : list bool) : list nat :=
  List.filter (fun i => nth i valid false) (seq 0 (length valid)).

(** [t.squeeze()] on a tensor of shape (k, 1): every axis of size one
    goes, so a single position becomes a zero-dimensional tensor. *)
Definition squeeze (positions : list nat) : index :=
  match positions with
  | [i] => Scalar i
  | _ => Vector positions
  end.

Definition item {X} (xs : list X) (i : nat) : result X :=
  match xs !! i with
  | Some x => Ok x
  | None => Raise IndexError
  end.

(** [xs[indices]]. *)
Definition select {X} (xs : list X) (indices : index) : result (indexed X) :=
  match indices with
  | Scalar i => Single <$> item xs i
  | Vector positions => Batch <$> traverse (item xs) positions
  end.

Section Forward.
(** Tensor elements and their arithmetic. *)
Context {F : Type}.
Variables (fzero : F) (fadd fmul fdiv : F -> F -> F) (is_zero : F -> bool).

Context {image : Type}.

(** A tensor of shape (h, w): one mask (its channel axis has size
    one) or one channel of a layer. *)
Definition grid : Type := list (list F).

(** The activations a retained layer recorded: their spatial size
    [fs.shape[-2:]] and, for every image of the batch, its channels. *)
Record activations := {
  spatial : nat * nat;
  channels : list (list grid);
}.

(** Bilinear resizing of one mask ([align_corners=False]). *)
Variable resize : grid -> nat * nat -> grid.

(** [self.featurizer(images)] followed by
    [self.featurizer.retained_features(clear=True).values()]: the
    activations of the retained layers, in order. *)
Variable featurizer : indexed image -> result (list activations).

(** [self.feature_shape = (feature_size,)]. *)
Variable feature_size : nat.

Definition all_zero (mask : grid) : bool :=
  forallb (forallb is_zero) mask.

(** [functional.interpolate(masks, size=size, mode='bilinear')] needs a
    batch axis in front of the channel axis: with a two-dimensional
    [size], a mask tensor that lost its batch axis is rejected. *)
Definition interpolate (masks : indexed grid) (size : nat * nat)
  : result (list grid) :=
  match masks with
  | Batch ms => Ok (List.map (fun m => resize m size) ms)
  | Single _ => Raise ValueError
  end.

(** [g.sum(dim=(-1, -2))]. *)
Definition total (g : grid) : F := foldr fadd fzero (concat g).

(** [ms /= ms.sum(dim=(-1, -2), keepdim=True)], on one mask. *)
Definition normalise (m : grid) : grid :=
  let s := total m in List.map (List.map (fun x => fdiv x s)) m.

(** [fs.mul(ms).sum(dim=(-1, -2))], on one image: one number per
    channel. *)
Definition pool (fs : list grid) (m : grid) : list F :=
  List.map (fun channel => total (zip_with (zip_with fmul) channel m)) fs.

(** Broadcasting of the batch axes of [fs] and [ms] in [fs.mul(ms)]. *)
Definition pair_up {X Y} (xs : list X) (ys : list Y)
  : result (list (X * Y)) :=
  if (length xs =? length ys)%nat then Ok (zip xs ys)
  else match xs, ys with
       | [x], _ => Ok (List.map (fun y => (x, y)) ys)
       | _, [y] => Ok (List.map (fun x => (x, y)) xs)
       | _, _ => Raise RuntimeError
       end.

(** One turn of the loop over the pyramid:
    [[
      ms = functional.interpolate(masks, size=fs.shape[-2:],
                                  mode='bilinear', align_corners=False)
      ms /= ms.sum(dim=(-1, -2), keepdim=True)
      mfs = fs.mul(ms).sum(dim=(-1, -2))
    ]] *)
Definition mask_layer (masks : indexed grid) (fs : activations)
  : result (list (list F)) :=
  ms ← interpolate masks (spatial fs);
  let ms := List.map normalise ms in
  pairs ← pair_up (channels fs) ms;
  Ok (List.map (fun p => pool (fst p) (snd p)) pairs).

(** [torch.cat(masked, dim=-1)]: the rows of the layers side by side;
    the layers must agree on the number of rows. *)
Fixpoint cat_last (masked : list (list (list F)))
  : result (list (list F)) :=
  match masked with
  | [] => Raise RuntimeError
  | [mfs] => Ok mfs
  | mfs :: masked' =>
      rest ← cat_last masked';
      if (length mfs =? length rest)%nat then Ok (zip_with app mfs rest)
      else Raise RuntimeError
  end.

(** A row written into [result] must have [feature_size] entries, or
    a single one, which is repeated. *)
Definition fit_row (r : list F) : result (list F) :=
  if (length r =? feature_size)%nat then Ok r
  else match r with
       | [x] => Ok (replicate feature_size x)
       | _ => Raise RuntimeError
       end.

(** [result[indices] = rows]. *)
Definition assign (result0 : list (list F)) (indices : index)
    (rows : list (list F)) : result (list (list F)) :=
  match indices with
  | Scalar i =>
      match rows with
      | [r] => r ← fit_row r;
               if (i <? length result0)%nat then Ok (<[i := r]> result0)
               else Raise IndexError
      | _ => Raise RuntimeError
      end
  | Vector positions =>
      if negb (length positions =? length rows)%nat then Raise RuntimeError
      else
        rows ← traverse fit_row rows;
        if forallb (fun i => (i <? length result0)%nat) positions
        then Ok (fold_left (fun res ir => <[fst ir := snd ir]> res)
                           (zip positions rows) result0)
        else Raise IndexError
  end.

(** [~masks.eq(0).all(dim=-1).all(dim=-1).view(-1)]: for every mask,
    whether some entry of it is not zero. *)
Definition nonzero_masks (masks : list grid) : list bool :=
  List.map (fun m => negb (all_zero m)) masks.

(** [PretrainedPyramidFeaturizer.forward].  The first component lists
    the inputs the network was run on. *)
Definition forward (images : list image) (masks : list grid)
  : list (indexed image) * result (list (list F)) :=
  let result0 := replicate (length images) (replicate feature_size fzero) in
  let valid := nonzero_masks masks in
  if negb (existsb id valid) then ([], Ok result0)
  else
    let indices := squeeze (nonzero valid) in
    match select images indices, select masks indices with
    | Ok images', Ok masks' =>
        ([images'],
         features ← featurizer images';
         masked ← traverse (mask_layer masks') features;
         rows ← cat_last masked;
         assign result0 indices rows)
    | Raise e, _ => ([], Raise e)
    | _, Raise e => ([], Raise e)
    end.

(** The feature vector the pyramid gives one image: for every retained
    layer, the channels of the image pooled under its mask, resized to
    the layer and normalised; the layers side by side. *)
Definition pyramid_row (features : list activations) (j : nat) (mask : grid)
  : list F :=
  concat (List.map (fun fs => pool (nth j (channels fs) [])
                                   (normalise (resize mask (spatial fs))))
                   features).
End Forward.

End PretrainedPyramidFeaturizer.

(** ** Small inputs used in the examples *)

Module Examples.
Import Driver.
Definition captions3 : list string := ["a dog"; "a red car"; "sky"]%string.
(** A stand-in for the spaCy pipeline: one token per character. *)
Definition nlp (text : string) : list token :=
  repeat (Token "ROOT" "NOUN" []) (String.length text).
Definition similarity (a b : list token) : Q := 0%Q.
Definition vector (t : token) : list Q := [].
Definition rand (trial i : nat) : Q := 0%Q.
Definition scores3 : list Q := [5; 9; 3]%Q.
(** [--ablation-min -0.5 --ablation-max 0.2 --ablation-step-size 0.5]. *)
Definition negative_sweep : args :=
  {| ablation_min := F64.of_Q (-1 # 2); ablation_max := F64.of_Q (1 # 5);
     ablation_step_size := F64.of_Q (1 # 2) |}.
End Examples.

Module ParseExamples.
Import Driver.
Definition word (dep pos : string) (cs : list token) : token :=
  Token dep pos cs.
(** "a dog on the grass": [dog] is the root, [on] hangs from [dog] and
    [grass] from [on]. *)
Definition a_ : token := word "det" "DET" [].
Definition the_ : token := word "det" "DET" [].
Definition grass : token := word "pobj" "NOUN" [the_].
Definition on_ : token := word "prep" "ADP" [grass].
Definition dog : token := word "ROOT" "NOUN" [a_; on_].
(** "a dog on the grass. sky": a caption of two sentences, each with
    its own root. *)
Definition sky : token := word "ROOT" "NOUN" [].
Definition two_sentences : list token := [a_; dog; on_; the_; grass; sky].
End ParseExamples.

Module FitExample.
(** A run in which the model overfits from the second epoch on: every
    epoch adds one to the only parameter, and the validation loss grows
    with the distance of the parameter from one.  The best epoch is the
    first. *)
Definition train_epoch (op : unit * Z) : unit * Z := (fst op, snd op + 1).
Definition val_loss (p : Z) : Q := inject_Z (1 + Z.abs (p - 1)).
Definition self : Lms.LanguageModel := {| Lms.storage := 0 |}.
Definition initial : nat -> Z := fun _ => 0.
Definition fit (max_epochs patience : nat) : result Lms.run :=
  Lms.fit train_epoch val_loss 1 1 self initial tt max_epochs patience.
End FitExample.

Module PyramidExample.
Import PretrainedPyramidFeaturizer.
(** Two-by-two masks and a network with a single retained layer of one
    channel of spatial size one by one, whose activation is the number of
    the image. *)
Definition ones : list (list Q) := [[1; 1]; [1; 1]]%Q.
Definition zeros : list (list Q) := [[0; 0]; [0; 0]]%Q.
Definition is_zero (x : Q) : bool := Qeq_bool x 0.
Definition resize (m : list (list Q)) (size : nat * nat) : list (list Q) :=
  [[hd 0%Q (hd [] m)]].
Definition layer (images : list nat) : activations :=
  {| spatial := (1, 1)%nat;
     channels := List.map (fun i : nat => [[[inject_Z (Z.of_nat i)]]]) images |}.
Definition featurizer (images : indexed nat) : result (list activations) :=
  match images with
  | Batch xs => Ok [layer xs]
  | Single x => Ok [layer [x]]
  end.
Definition forward (images : list nat) (masks : list (list (list Q)))
  : list (indexed nat) * result (list (list Q)) :=
  PretrainedPyramidFeaturizer.forward 0%Q Qplus Qmult Qdiv is_zero resize
    featurizer 1 images masks.
End PyramidExample.

Module ClassifierExample.
Import Classifiers.
(** Activations are integers; the model is one fully connected layer
    that swaps its two inputs; [argmax] is the index of the first
    largest entry. *)
Fixpoint argmax_from (best_i : Z) (best : Z) (i : Z) (t : list Z) : Z :=
  match t with
  | [] => best_i
  | x :: t' => if best <? x then argmax_from i x (i + 1) t'
               else argmax_from best_i best (i + 1) t'
  end.
Definition argmax (t : list Z) : Z :=
  match t with
  | [] => 0
  | x :: t' => argmax_from 0 x 1 t'
  end.
Definition swap (t : list Z) : list Z :=
  match t with
  | [a; b] => [b; a]
  | _ => t
  end.
Definition fc : Layer := {| name := "fc"; run := List.map swap |}.
Definition model : Model := [fc].
Definition dataset : list sample :=
  [ {| s_image := [5; 1]; s_target := 1 |};
    {| s_image := [2; 3]; s_target := 1 |};
    {| s_image := [0; 4]; s_target := 0 |} ].
Definition predictions : list Z := [1; 0; 0].
(** A predictions tensor with a single entry. *)
Definition single_prediction : list Z := [0].
(** A dataset of 23 samples, 22 of class 0 and one of class 1, with
    predictions that are right on 15 samples of class 0 and wrong on
    the others. *)
Definition sample_of (target : Z) : sample (act := Z) :=
  {| s_image := []; s_target := target |}.
Definition dataset23 : list (sample (act := Z)) :=
  repeat (sample_of 0) 22 ++ [sample_of 1].
Definition predictions23 : list Z := repeat 0 15 ++ repeat 1 7 ++ [0].
End ClassifierExample.

Module FeaturizerExample.
Import Featurizer.
(** Images and masks are numbers; the fake featurizer returns one zero
    row per image, as the one of the unit tests does. *)
Definition forward (images masks : list nat) : result (list (list Z)) :=
  Ok (List.map (fun _ => [0; 0]) images).
Definition item (i : nat) : sample nat :=
  {| at_image := FTensor i; at_mask := FTensor (i + 100)%nat |}.
Definition dataset : list (sample nat) := [item 1; item 2; item 3].
Definition captioned : sample nat :=
  {| at_image := FStr "caption"; at_mask := FTensor 0%nat |}.
End FeaturizerExample.

Module SweepExamples.
Import Driver.
(** Scores with a tie between the first unit and the last. *)
Definition tied_scores : list Q := [5; 9; 5]%Q.
(** The default sweep, [--ablation-min 0 --ablation-max .2
    --ablation-step-size .02], and a coarser one over all fractions
    below one. *)
Definition default_sweep : args :=
  {| ablation_min := F64.of_Z 0; ablation_max := F64.of_Q (1 # 5);
     ablation_step_size := F64.of_Q (1 # 50) |}.
Definition thirds_sweep : args :=
  {| ablation_min := F64.of_Z 0; ablation_max := F64.of_Z 1;
     ablation_step_size := F64.of_Q (1 # 3) |}.
(** A caption that holds a line feed. *)
Definition two_lines : string :=
  String "a"%char (String Py.LF (String "b"%char EmptyString)).
(** Word vectors of one dimension: the length of the part-of-speech
    tag of the word. *)
Definition word_vector (t : token) : list Q :=
  [inject_Z (Z.of_nat (String.length (pos_ t)))].
End SweepExamples.

Module FitParametersExample.
(** The modules of a small network, the network itself under the empty
    name and its two layers; parameters are numbers. *)
Definition named_modules : list (string * list nat) :=
  [(EmptyString, [1; 2; 3]%nat); ("conv1"%string, [1]%nat);
   ("fc"%string, [2; 3]%nat)].
End FitParametersExample.

Module LmExample.
(** An indexer that knows one token and a model that gives it log
    probability zero at the only position. *)
Definition indexer (batch : list string) (start stop pad : bool)
  : list (list nat) := List.map (fun _ => [0%nat]) batch.
Definition model (inputs : list (list nat)) : list (list (list Q)) :=
  List.map (fun _ => [[0%Q]]) inputs.
End LmExample.

(** * Properties

    ** Sorting *)

Section SortingFacts.
Context {A : Type} (key : A -> Q).

Lemma Qltb_false_le (x y : Q) : Py.Qltb x y = false -> (y <= x)%Q.
Proof.
  unfold Py.Qltb. intros H. apply negb_false_iff in H.
  now apply Qle_bool_iff.
Qed.

Lemma Qltb_true_lt (x y : Q) : Py.Qltb x y = true -> (x < y)%Q.
Proof.
  unfold Py.Qltb. intros H. apply negb_true_iff in H.
  apply Qnot_le_lt. intros Hle. apply Qle_bool_iff in Hle. congruence.
Qed.

Lemma insert_stable_perm (x : A) (l : list A) :
  Permutation (Py.insert_stable key x l) (x :: l).
Proof.
  induction l as [|y l IH]; simpl; [reflexivity|].
  destruct (Py.Qltb (key y) (key x)); [|reflexivity].
  rewrite IH. apply perm_swap.
Qed.

Lemma stable_sort_perm (l : list A) : Permutation (Py.stable_sort key l) l.
Proof.
  induction l as [|x l IH]; simpl; [reflexivity|].
  rewrite insert_stable_perm. now constructor.
Qed.

Lemma sorted_perm (reverse : bool) (l : list A) :
  Permutation (Py.sorted key reverse l) l.
Proof.
  destruct reverse; simpl.
  - rewrite <- Permutation_rev, stable_sort_perm. symmetry. apply Permutation_rev.
  - apply stable_sort_perm.
Qed.

Local Abbreviation key_le := (Py.key_le key).

Lemma insert_stable_sorted (x : A) (l : list A) :
  StronglySorted key_le l -> StronglySorted key_le (Py.insert_stable key x l).
Proof.
  induction 1 as [|y l Hs IH Hall]; simpl.
  - repeat constructor.
  - destruct (Py.Qltb (key y) (key x)) eqn:E.
    + constructor; [exact IH|].
      eapply Permutation_Forall; [symmetry; apply insert_stable_perm|].
      constructor; [|exact Hall].
      apply Qlt_le_weak. now apply Qltb_true_lt.
    + apply Qltb_false_le in E.
      constructor; [now constructor|].
      constructor; [exact E|].
      revert Hall. apply List.Forall_impl.
      intros z Hz. unfold Py.key_le in *. eapply Qle_trans; eassumption.
Qed.

Lemma stable_sort_sorted (l : list A) :
  StronglySorted key_le (Py.stable_sort key l).
Proof.
  induction l as [|x l IH]; simpl; [constructor|].
  now apply insert_stable_sorted.
Qed.

Lemma StronglySorted_snoc (R : A -> A -> Prop) (l : list A) (x : A) :
  StronglySorted R l -> Forall (fun y => R y x) l ->
  StronglySorted R (l ++ [x]).
Proof.
  induction 1 as [|y l Hs IH Hall]; intros Hx; simpl.
  - repeat constructor.
  - inversion Hx; subst. constructor; [now apply IH|].
    apply Forall_app; split; [exact Hall|]. now repeat constructor.
Qed.

Lemma StronglySorted_rev (R : A -> A -> Prop) (l : list A) :
  StronglySorted R l -> StronglySorted (fun x y => R y x) (rev l).
Proof.
  induction 1 as [|y l Hs IH Hall]; simpl; [constructor|].
  apply StronglySorted_snoc; [exact IH|].
  apply Forall_rev. exact Hall.
Qed.

Lemma sorted_increasing (l : list A) :
  StronglySorted key_le (Py.sorted key false l).
Proof. apply stable_sort_sorted. Qed.

Lemma sorted_decreasing (l : list A) :
  StronglySorted (fun x y => key_le y x) (Py.sorted key true l).
Proof. simpl. apply StronglySorted_rev, stable_sort_sorted. Qed.
End SortingFacts.

(** ** Double precision: what the operations of [SpecFloat] compute

    The functions of [SpecFloat] shift mantissas and keep a round bit
    and a sticky bit; the lemmas below relate them to rounding to
    nearest, ties to even, on rational values. *)

Section Digits.

Lemma digits2_size (p : positive) : digits2_pos p = Pos.size p.
Proof. induction p; simpl; congruence. Qed.

Lemma digits2_bounds (p : positive) :
  2 ^ (Zpos (digits2_pos p) - 1) <= Zpos p < 2 ^ Zpos (digits2_pos p).
Proof.
  rewrite digits2_size. split.
  - pose proof (Pos.size_le p) as H.
    assert (H' : 2 ^ Zpos (Pos.size p) <= 2 * Zpos p).
    { change (2 * Zpos p) with (Zpos p~0). rewrite <- Pos2Z.inj_pow.
      apply Pos2Z.pos_le_pos. exact H. }
    replace (Zpos (Pos.size p)) with (Z.succ (Zpos (Pos.size p) - 1)) in H' by lia.
    rewrite Z.pow_succ_r in H' by lia. lia.
  - pose proof (Pos.size_gt p) as H.
    rewrite <- Pos2Z.inj_pow. apply Pos2Z.pos_lt_pos. exact H.
Qed.

Lemma iter_pos_nat {A} (f : A -> A) (p : positive) (x : A) :
  SpecFloat.iter_pos f p x = Nat.iter (Pos.to_nat p) f x.
Proof.
  revert x. induction p as [p IH|p IH|]; intros x.
  - change (SpecFloat.iter_pos f p~1 x)
      with (SpecFloat.iter_pos f p (SpecFloat.iter_pos f p (f x))).
    rewrite !IH, Pos2Nat.inj_xI.
    replace (S (2 * Pos.to_nat p)) with (Pos.to_nat p + S (Pos.to_nat p))%nat by lia.
    rewrite Nat.iter_add. now rewrite Nat.iter_succ_r.
  - change (SpecFloat.iter_pos f p~0 x)
      with (SpecFloat.iter_pos f p (SpecFloat.iter_pos f p x)).
    rewrite !IH, Pos2Nat.inj_xO.
    replace (2 * Pos.to_nat p)%nat with (Pos.to_nat p + Pos.to_nat p)%nat by lia.
    now rewrite Nat.iter_add.
  - reflexivity.
Qed.

End Digits.

Section Shift.

Lemma shr_1_nonneg (m : Z) (r s : bool) :
  0 <= m ->
  shr_1 {| shr_m := m; shr_r := r; shr_s := s |}
  = {| shr_m := m / 2; shr_r := Z.odd m; shr_s := r || s |}.
Proof.
  intros Hm. rewrite <- Z.div2_div.
  destruct m as [|[p|p|]|p]; try lia; reflexivity.
Qed.

Lemma mod_double (m P : Z) :
  0 < P ->
  exists b : Z, (b = 0 \/ b = 1) /\ (m / P) mod 2 = b /\
                m mod (2 * P) = m mod P + P * b /\ 0 <= m mod P < P.
Proof.
  intros HP. exists ((m / P) mod 2).
  pose proof (Z.mod_pos_bound (m / P) 2 ltac:(lia)).
  pose proof (Z.mod_pos_bound m P HP).
  repeat split; try lia.
  rewrite (Z.mul_comm 2 P). apply Z.rem_mul_r; lia.
Qed.

(** [k + 1] right shifts keep the quotient by [2 ^ (k + 1)], and record
    whether the remainder reaches one half and whether anything was
    dropped below the half. *)
Lemma shr_iter (m : Z) (k : nat) :
  0 <= m ->
  Nat.iter (S k) shr_1 {| shr_m := m; shr_r := false; shr_s := false |}
  = {| shr_m := m / (2 * 2 ^ Z.of_nat k);
       shr_r := 2 ^ Z.of_nat k <=? m mod (2 * 2 ^ Z.of_nat k);
       shr_s := negb (m mod 2 ^ Z.of_nat k =? 0) |}.
Proof.
  intros Hm. induction k as [|k IH].
  - cbn [Nat.iter nat_rect]. rewrite shr_1_nonneg by exact Hm.
    change (2 ^ Z.of_nat 0) with 1. rewrite Z.mod_1_r, Z.mul_1_r.
    f_equal. rewrite Zodd_mod.
    pose proof (Z.mod_pos_bound m 2 ltac:(lia)).
    destruct (Z.eqb_spec (m mod 2) 1), (Z.leb_spec 1 (m mod 2)); lia.
  - rewrite Nat.iter_succ, IH.
    assert (HP : 0 < 2 ^ Z.of_nat k) by (apply Z.pow_pos_nonneg; lia).
    rewrite shr_1_nonneg by (apply Z.div_pos; lia).
    replace (Z.of_nat (S k)) with (Z.succ (Z.of_nat k)) by lia.
    rewrite Z.pow_succ_r by lia.
    set (P := 2 ^ Z.of_nat k) in *.
    rewrite Z.div_div by lia.
    destruct (mod_double m P HP) as (b & Hb & _ & Hmod & Hlow).
    destruct (mod_double m (2 * P) ltac:(lia)) as (b' & Hb' & Hodd & Hmod' & Hlow').
    f_equal.
    + f_equal. lia.
    + rewrite Zodd_mod, Hodd, Hmod'.
      destruct (Z.eqb_spec b' 1), (Z.leb_spec (2 * P) (m mod (2 * P) + 2 * P * b'));
        try reflexivity; nia.
    + rewrite Hmod.
      destruct (Z.leb_spec P (m mod P + P * b)), (Z.eqb_spec (m mod P) 0),
        (Z.eqb_spec (m mod P + P * b) 0); try reflexivity; simpl; nia.
Qed.


Lemma nearest_even_Z (m D M : Z) :
  0 < D ->
  - D <= 2 * (m - M * D) <= D ->
  (2 * (m - M * D) = D \/ 2 * (m - M * D) = - D -> Z.even M = true) ->
  F64.nearest_even (inject_Z m / inject_Z D) M.
Proof.
  intros HD Hnear Htie.
  assert (Hd : (0 < inject_Z D)%Q) by (rewrite <- (Zlt_Qlt 0); exact HD).
  assert (Hy : (inject_Z m / inject_Z D * inject_Z D == inject_Z m)%Q).
  { field. intros H0. rewrite H0 in Hd. now apply Qlt_irrefl in Hd. }
  assert (Hz : (inject_Z (2 * (m - M * D))
                == 2 * (inject_Z m - inject_Z M * inject_Z D))%Q).
  { unfold Z.sub.
    repeat (rewrite inject_Z_mult || rewrite inject_Z_plus || rewrite inject_Z_opp).
    change (inject_Z 2) with 2%Q. ring. }
  destruct Hnear as [Hlo Hhi].
  rewrite Zle_Qle, Hz in Hhi. rewrite Zle_Qle, Hz, inject_Z_opp in Hlo.
  unfold F64.nearest_even.
  set (y := (inject_Z m / inject_Z D)%Q) in *.
  set (d := inject_Z D) in *. set (a := inject_Z m) in *. set (b := inject_Z M) in *.
  split; [split|].
  - apply (Qmult_le_r _ _ d Hd). rewrite Hy. clear -Hlo. clearbody a b d. lra.
  - apply (Qmult_le_r _ _ d Hd). rewrite Hy. clear -Hhi. clearbody a b d. lra.
  - intros Hties. apply Htie.
    assert (Hq : (2 * (a - b * d) == d \/ 2 * (a - b * d) == - d)%Q).
    { destruct Hties as [Ht|Ht]; [right|left]; rewrite <- Hy, Ht; ring. }
    rewrite <- Hz in Hq.
    destruct Hq as [Hq|Hq]; [left|right].
    + now apply inject_Z_injective.
    + subst d. rewrite <- inject_Z_opp in Hq. now apply inject_Z_injective.
Qed.

(** Rounding the mantissa after a right shift by [k] bits. *)
Lemma round_shift (m : Z) (k : positive) :
  0 <= m ->
  let mrs := SpecFloat.iter_pos shr_1 k
               {| shr_m := m; shr_r := false; shr_s := false |} in
  let M := round_nearest_even (shr_m mrs) (loc_of_shr_record mrs) in
  m / 2 ^ Zpos k <= M <= m / 2 ^ Zpos k + 1 /\
  F64.nearest_even (inject_Z m / inject_Z (2 ^ Zpos k)) M.
Proof.
  intros Hm. cbv zeta. rewrite iter_pos_nat.
  destruct (Pos2Nat.is_succ k) as [k' Hk]. rewrite Hk.
  rewrite (shr_iter m k' Hm).
  replace (Zpos k) with (Z.succ (Z.of_nat k')) by lia.
  rewrite Z.pow_succ_r by lia.
  assert (HP : 0 < 2 ^ Z.of_nat k') by (apply Z.pow_pos_nonneg; lia).
  set (P := 2 ^ Z.of_nat k') in *.
  destruct (mod_double m P HP) as (b & Hb & _ & Hmod & Hlow).
  pose proof (Z.div_mod m (2 * P) ltac:(lia)) as Hdiv.
  set (q := m / (2 * P)) in *. rewrite Hmod in *.
  cbn [shr_m shr_r shr_s loc_of_shr_record].
  destruct (Z.leb_spec P (m mod P + P * b)) as [Hr|Hr],
    (Z.eqb_spec (m mod P) 0) as [Hs|Hs]; cbn [negb round_nearest_even].
  - (* exactly one half *)
    assert (b = 1) by nia. subst b.
    destruct (Z.even q) eqn:Heven.
    + split; [lia|]. apply nearest_even_Z; [lia|lia|]. intros _. exact Heven.
    + split; [lia|]. apply nearest_even_Z; [lia|lia|]. intros _.
      change (Zpos 1) with 1. rewrite Z.even_add, Heven. reflexivity.
  - (* above one half *)
    assert (b = 1) by nia. subst b. change (Zpos 1) with 1.
    split; [lia|]. apply nearest_even_Z; [lia|lia|]. intros [H|H]; lia.
  - (* exact *)
    assert (b = 0) by nia. subst b.
    split; [lia|]. apply nearest_even_Z; [lia|lia|]. intros [H|H]; lia.
  - (* below one half *)
    assert (b = 0) by nia. subst b.
    split; [lia|]. apply nearest_even_Z; [lia|lia|]. intros [H|H]; lia.
Qed.

End Shift.

Section Rounding.

Lemma fexp_eq (e : Z) : F64.fexp e = Z.max (e - 53) (-1074).
Proof. reflexivity. Qed.

Lemma digits2_unique (p : positive) (d : Z) :
  2 ^ (d - 1) <= Zpos p < 2 ^ d -> Zpos (digits2_pos p) = d.
Proof.
  intros [Hlo Hhi]. pose proof (digits2_bounds p) as [Hlo' Hhi'].
  assert (Hd : 0 < d).
  { destruct (Z.ltb_spec 0 d); [assumption|].
    assert (2 ^ d <= 2 ^ 0) by (apply Z.pow_le_mono_r; lia).
    change (2 ^ 0) with 1 in *. lia. }
  destruct (Z.lt_trichotomy (Zpos (digits2_pos p)) d) as [Hlt|[Heq|Hgt]];
    [|exact Heq|].
  - assert (2 ^ Zpos (digits2_pos p) <= 2 ^ (d - 1))
      by (apply Z.pow_le_mono_r; lia). lia.
  - assert (2 ^ d <= 2 ^ (Zpos (digits2_pos p) - 1))
      by (apply Z.pow_le_mono_r; lia). lia.
Qed.

(** The second normalisation of [binary_round_aux] leaves the rounded
    mantissa as it is, except that [2 ^ 53] becomes [2 ^ 52] one
    exponent higher. *)
Lemma pack_second (s : bool) (M c : Z) :
  0 <= M <= 2 ^ 53 -> -1074 <= c -> (-1074 < c -> 2 ^ 52 <= M) ->
  (let '(mrs, e) := shr_fexp F64.prec F64.emax M c loc_Exact in
   match shr_m mrs with
   | Z0 => S754_zero s
   | Zpos m => if e <=? F64.emax - F64.prec then S754_finite s m e
               else S754_infinity s
   | Zneg _ => S754_nan
   end) = F64.pack s M c.
Proof.
  intros HM Hc Hnormal. unfold shr_fexp, shr.
  change (SpecFloat.fexp F64.prec F64.emax) with F64.fexp. rewrite fexp_eq.
  destruct M as [|m|m]; [| |lia].
  - cbn [Zdigits2 shr_record_of_loc].
    destruct (Z.max (0 + c - 53) (-1074) - c) eqn:E; try reflexivity. lia.
  - cbn [Zdigits2 shr_record_of_loc]. unfold F64.pack.
    destruct (Z.eqb_spec (Zpos m) (2 ^ F64.prec)) as [E|E].
    + assert (Hm : m = 9007199254740992%positive).
      { change (2 ^ F64.prec) with 9007199254740992 in E. now injection E. }
      subst m. change (Zpos (digits2_pos 9007199254740992)) with 54.
      replace (Z.max (54 + c - 53) (-1074) - c) with 1 by lia.
      reflexivity.
    + change (2 ^ F64.prec) with (2 ^ 53) in E.
      pose proof (digits2_bounds m) as [Hlo Hhi].
      assert (Hd : Zpos (digits2_pos m) <= 53).
      { destruct (Z.leb_spec (Zpos (digits2_pos m)) 53); [assumption|].
        assert (2 ^ 53 <= 2 ^ (Zpos (digits2_pos m) - 1))
          by (apply Z.pow_le_mono_r; lia). lia. }
      assert (Hd' : -1074 < c -> Zpos (digits2_pos m) = 53).
      { intros H. apply digits2_unique. specialize (Hnormal H).
        change (53 - 1) with 52. lia. }
      replace (Z.max (Zpos (digits2_pos m) + c - 53) (-1074) - c) with 0 by lia.
      reflexivity.
Qed.

Lemma round_aux_spec (s : bool) (p : positive) (e c : Z) :
  c = F64.fexp (Zpos (digits2_pos p) + e) ->
  e <= c ->
  exists M : Z,
    F64.nearest_even (inject_Z (Zpos p) / inject_Z (2 ^ (c - e))) M /\
    0 <= M <= 2 ^ 53 /\ (-1074 < c -> 2 ^ 52 <= M) /\
    binary_round_aux F64.prec F64.emax s (Zpos p) e loc_Exact = F64.pack s M c.
Proof.
  intros Hc Hle. pose proof (digits2_bounds p) as [Hlo Hhi].
  unfold binary_round_aux. unfold shr_fexp at 1. unfold shr.
  cbn [Zdigits2 shr_record_of_loc].
  change (SpecFloat.fexp F64.prec F64.emax (Zpos (digits2_pos p) + e))
    with (F64.fexp (Zpos (digits2_pos p) + e)).
  rewrite <- Hc. rewrite fexp_eq in Hc.
  set (d := Zpos (digits2_pos p)) in *.
  destruct (c - e) as [|k|k] eqn:Hn; [| |lia].
  - cbn [shr_m loc_of_shr_record round_nearest_even].
    assert (He : e = c) by lia.
    assert (Hd : d <= 53) by lia.
    assert (HM : 0 <= Zpos p <= 2 ^ 53).
    { split; [lia|].
      assert (2 ^ d <= 2 ^ 53) by (apply Z.pow_le_mono_r; lia). lia. }
    assert (Hnormal : -1074 < c -> 2 ^ 52 <= Zpos p).
    { intros Hn'. assert (d = 53) by lia.
      replace (d - 1) with 52 in Hlo by lia. exact Hlo. }
    exists (Zpos p). split; [|split; [exact HM|split; [exact Hnormal|]]].
    + change (2 ^ 0) with 1. apply nearest_even_Z; lia.
    + rewrite He. apply pack_second; [exact HM|lia|exact Hnormal].
  - pose proof (round_shift (Zpos p) k ltac:(lia)) as Hround. cbv zeta in Hround.
    set (mrs := SpecFloat.iter_pos shr_1 k
                  {| shr_m := Zpos p; shr_r := false; shr_s := false |}) in *.
    set (M := round_nearest_even (shr_m mrs) (loc_of_shr_record mrs)) in *.
    destruct Hround as [[HMlo HMhi] Hnear].
    assert (Hk : 0 < 2 ^ Zpos k) by (apply Z.pow_pos_nonneg; lia).
    assert (Hq : 0 <= Zpos p / 2 ^ Zpos k) by (apply Z.div_pos; lia).
    assert (Hqhi : Zpos p / 2 ^ Zpos k < 2 ^ 53).
    { apply Z.div_lt_upper_bound; [exact Hk|].
      rewrite <- Z.pow_add_r by lia.
      assert (2 ^ d <= 2 ^ (Zpos k + 53)) by (apply Z.pow_le_mono_r; lia).
      lia. }
    assert (Hnormal : -1074 < c -> 2 ^ 52 <= M).
    { intros Hn'. assert (Hkd : Zpos k = d - 53) by lia.
      assert (2 ^ 52 <= Zpos p / 2 ^ Zpos k); [|lia].
      apply Z.div_le_lower_bound; [exact Hk|].
      rewrite <- Z.pow_add_r by lia.
      replace (Zpos k + 52) with (d - 1) by lia. exact Hlo. }
    exists M. split; [exact Hnear|]. split; [lia|]. split; [exact Hnormal|].
    replace (e + Zpos k) with c by lia.
    apply pack_second; [lia|lia|exact Hnormal].
Qed.

End Rounding.

Section Powers.

Lemma two_nonzero : ~ (2 == 0)%Q.
Proof. intros H. lra. Qed.

Lemma pow2_pos (e : Z) : (0 < 2 ^ e)%Q.
Proof. apply Qpower_0_lt. lra. Qed.

Lemma pow2_add (a b : Z) : (2 ^ (a + b) == 2 ^ a * 2 ^ b)%Q.
Proof. apply Qpower_plus, two_nonzero. Qed.

Lemma pow2_sub (a b : Z) : (2 ^ (a - b) == 2 ^ a / 2 ^ b)%Q.
Proof. apply Qpower_minus, two_nonzero. Qed.

Lemma pow2_Z (n : Z) : 0 <= n -> (inject_Z (2 ^ n) == 2 ^ n)%Q.
Proof. intros Hn. rewrite Zpower_Qpower by exact Hn. reflexivity. Qed.

Lemma pow2_le (a b : Z) : a <= b -> (2 ^ a <= 2 ^ b)%Q.
Proof. intros H. apply Qpower_le_compat_l; [exact H|lra]. Qed.

Lemma pow2_lt (a b : Z) : a < b -> (2 ^ a < 2 ^ b)%Q.
Proof. intros H. apply Qpower_lt_compat_l; [exact H|lra]. Qed.

Lemma pow2_lt_inv (a b : Z) : (2 ^ a < 2 ^ b)%Q -> a < b.
Proof. intros H. apply (Qpower_lt_compat_l_inv 2); [exact H|lra]. Qed.

End Powers.

Section NearestEven.
Import F64.

Lemma nearest_even_comp (y y' : Q) (M : Z) :
  (y == y')%Q -> nearest_even y M -> nearest_even y' M.
Proof.
  intros Hy [[Hlo Hhi] Htie]. unfold nearest_even. rewrite <- Hy.
  split; [split; assumption|exact Htie].
Qed.

Lemma nearest_even_le_int (y : Q) (M K : Z) :
  nearest_even y M -> (y <= inject_Z K)%Q -> M <= K.
Proof.
  intros [[Hlo _] _] Hy.
  destruct (Z.leb_spec M K) as [H|H]; [exact H|exfalso].
  assert (HQ : (inject_Z K + 1 <= inject_Z M)%Q).
  { change 1%Q with (inject_Z 1). rewrite <- inject_Z_plus, <- Zle_Qle. lia. }
  lra.
Qed.

Lemma nearest_even_ge_int (y : Q) (M K : Z) :
  nearest_even y M -> (inject_Z K <= y)%Q -> K <= M.
Proof.
  intros [[_ Hhi] _] Hy.
  destruct (Z.leb_spec K M) as [H|H]; [exact H|exfalso].
  assert (HQ : (inject_Z M + 1 <= inject_Z K)%Q).
  { change 1%Q with (inject_Z 1). rewrite <- inject_Z_plus, <- Zle_Qle. lia. }
  lra.
Qed.

Lemma nearest_even_mono (y1 y2 : Q) (M1 M2 : Z) :
  nearest_even y1 M1 -> nearest_even y2 M2 -> (y1 <= y2)%Q -> M1 <= M2.
Proof.
  intros [[Hlo1 Hhi1] Htie1] [[Hlo2 Hhi2] Htie2] Hy.
  destruct (Z.leb_spec M1 M2) as [H|H]; [exact H|exfalso].
  assert (HQ : (inject_Z M2 + 1 <= inject_Z M1)%Q).
  { change 1%Q with (inject_Z 1). rewrite <- inject_Z_plus, <- Zle_Qle. lia. }
  assert (HQ' : (inject_Z M1 <= inject_Z (M2 + 1))%Q).
  { rewrite inject_Z_plus. change (inject_Z 1) with 1%Q. lra. }
  rewrite <- Zle_Qle in HQ'.
  assert (HM : M1 = M2 + 1) by lia. subst M1.
  rewrite inject_Z_plus in *. change (inject_Z 1) with 1%Q in *.
  assert (E1 : Z.even (M2 + 1) = true) by (apply Htie1; left; lra).
  assert (E2 : Z.even M2 = true) by (apply Htie2; right; lra).
  rewrite Z.even_add, E2 in E1. discriminate E1.
Qed.

End NearestEven.

Ltac unfold_fexp :=
  change F64.fexp with (fun e => Z.max (e - 53) (-1074)) in *; cbv beta in *.

Section RoundingRelation.
Import F64.

Lemma rounding_nonneg (q r : Q) : rounding q r -> (0 <= r)%Q.
Proof.
  intros (m & M & [Hlo Hhi] & Hne & Hr). rewrite Hr.
  assert (HM : 0 <= M).
  { apply (nearest_even_ge_int _ _ 0 Hne).
    apply Qle_shift_div_l; [apply pow2_pos|].
    change (inject_Z 0) with 0%Q. rewrite Qmult_0_l.
    eapply Qle_trans; [|exact Hlo]. apply Qlt_le_weak, pow2_pos. }
  apply Qmult_le_0_compat; [|apply Qlt_le_weak, pow2_pos].
  change 0%Q with (inject_Z 0). now rewrite <- Zle_Qle.
Qed.

Lemma div_pow2_le (q1 q2 : Q) (c : Z) :
  (q1 <= q2)%Q -> (q1 / 2 ^ c <= q2 / 2 ^ c)%Q.
Proof.
  intros H. apply Qle_shift_div_l; [apply pow2_pos|].
  unfold Qdiv. rewrite <- Qmult_assoc, (Qmult_comm (/ _)), Qmult_inv_r, Qmult_1_r.
  - exact H.
  - intros H0. pose proof (pow2_pos c). lra.
Qed.

(** Rounding to nearest is monotone. *)
Lemma rounding_mono (q1 q2 r1 r2 : Q) :
  rounding q1 r1 -> rounding q2 r2 -> (q1 <= q2)%Q -> (r1 <= r2)%Q.
Proof.
  intros (m1 & M1 & [Hlo1 Hhi1] & Hne1 & Hr1)
         (m2 & M2 & [Hlo2 Hhi2] & Hne2 & Hr2) Hq.
  rewrite Hr1, Hr2. unfold_fexp.
  assert (Hm : m1 <= m2).
  { assert (H : (2 ^ (m1 - 1) < 2 ^ m2)%Q) by lra.
    apply pow2_lt_inv in H. lia. }
  set (c1 := Z.max (m1 - 53) (-1074)) in *.
  set (c2 := Z.max (m2 - 53) (-1074)) in *.
  destruct (Z.eq_dec c1 c2) as [Hc|Hc].
  - rewrite <- Hc in *.
    apply Qmult_le_compat_r; [|apply Qlt_le_weak, pow2_pos].
    rewrite <- Zle_Qle.
    apply (nearest_even_mono _ _ _ _ Hne1 Hne2), div_pow2_le, Hq.
  - assert (Hc2 : c2 = m2 - 53) by lia.
    assert (Hm' : m1 <= m2 - 1) by lia.
    apply Qle_trans with (2 ^ (m2 - 1))%Q.
    + set (K := 2 ^ Z.max (m1 - c1) 0).
      assert (HK : (inject_Z K * 2 ^ c1 == 2 ^ (Z.max (m1 - c1) 0 + c1))%Q).
      { unfold K. rewrite pow2_Z by lia. now rewrite pow2_add. }
      assert (HM1 : M1 <= K).
      { apply (nearest_even_le_int _ _ _ Hne1).
        apply Qle_shift_div_r; [apply pow2_pos|]. rewrite HK.
        apply Qlt_le_weak, Qlt_le_trans with (2 ^ m1)%Q; [exact Hhi1|].
        apply pow2_le. lia. }
      apply Qle_trans with (inject_Z K * 2 ^ c1)%Q.
      * apply Qmult_le_compat_r; [|apply Qlt_le_weak, pow2_pos].
        now rewrite <- Zle_Qle.
      * rewrite HK. apply pow2_le. lia.
    + assert (HM2 : 2 ^ 52 <= M2).
      { apply (nearest_even_ge_int _ _ _ Hne2).
        apply Qle_shift_div_l; [apply pow2_pos|].
        rewrite pow2_Z by lia. rewrite <- pow2_add.
        replace (52 + c2) with (m2 - 1) by lia. exact Hlo2. }
      apply Qle_trans with (inject_Z (2 ^ 52) * 2 ^ c2)%Q.
      * rewrite pow2_Z by lia. rewrite <- pow2_add.
        replace (52 + c2) with (m2 - 1) by lia. apply Qle_refl.
      * apply Qmult_le_compat_r; [|apply Qlt_le_weak, pow2_pos].
        now rewrite <- Zle_Qle.
Qed.

(** Below [2 ^ 53] rounding never crosses an integer. *)
Lemma rounding_int_bounds (q r : Q) (n : Z) :
  rounding q r -> (q < 2 ^ 53)%Q ->
  ((inject_Z n <= q)%Q -> (inject_Z n <= r)%Q) /\
  ((q <= inject_Z n)%Q -> (r <= inject_Z n)%Q).
Proof.
  intros (m & M & [Hlo Hhi] & Hne & Hr) Hq. rewrite Hr. unfold_fexp.
  assert (Hm : m <= 53).
  { assert (H : (2 ^ (m - 1) < 2 ^ 53)%Q) by lra.
    apply pow2_lt_inv in H. lia. }
  set (c := Z.max (m - 53) (-1074)) in *.
  assert (Hc : c <= 0) by lia.
  assert (HK : (inject_Z (n * 2 ^ (- c)) * 2 ^ c == inject_Z n)%Q).
  { rewrite inject_Z_mult, pow2_Z by lia.
    rewrite <- Qmult_assoc, <- pow2_add.
    replace (- c + c) with 0 by lia. change (2 ^ 0)%Q with 1%Q. ring. }
  split; intros Hn.
  - rewrite <- HK.
    apply Qmult_le_compat_r; [|apply Qlt_le_weak, pow2_pos].
    rewrite <- Zle_Qle. apply (nearest_even_ge_int _ _ _ Hne).
    apply Qle_shift_div_l; [apply pow2_pos|]. now rewrite HK.
  - rewrite <- HK.
    apply Qmult_le_compat_r; [|apply Qlt_le_weak, pow2_pos].
    rewrite <- Zle_Qle. apply (nearest_even_le_int _ _ _ Hne).
    apply Qle_shift_div_r; [apply pow2_pos|]. now rewrite HK.
Qed.

End RoundingRelation.

Section Operations.
Import F64.

Lemma inject_pos_bounds (M : Z) (a : Z) :
  0 <= a -> M < 2 ^ a -> (inject_Z M < 2 ^ a)%Q.
Proof. intros Ha H. rewrite <- pow2_Z by exact Ha. now rewrite <- Zlt_Qlt. Qed.

Lemma pack_valid (s : bool) (M c : Z) :
  0 <= M <= 2 ^ 53 -> -1074 <= c -> (-1074 < c -> 2 ^ 52 <= M) ->
  valid (pack s M c) = true.
Proof.
  intros HM Hc Hnormal. unfold pack.
  destruct M as [|m|m]; [reflexivity| |lia].
  destruct (Z.eqb_spec (Zpos m) (2 ^ prec)) as [E|E].
  - destruct (Z.leb_spec (c + 1) (emax - prec)) as [Hle|Hle]; [|reflexivity].
    unfold valid, valid_binary, bounded, canonical_mantissa.
    change (SpecFloat.fexp prec emax) with fexp. rewrite fexp_eq.
    change (Zpos (digits2_pos (Z.to_pos (2 ^ (prec - 1))))) with 53.
    apply andb_true_intro. split; [apply Z.eqb_eq|apply Z.leb_le]; lia.
  - destruct (Z.leb_spec c (emax - prec)) as [Hle|Hle]; [|reflexivity].
    change (2 ^ prec) with (2 ^ 53) in E.
    unfold valid, valid_binary, bounded, canonical_mantissa.
    change (SpecFloat.fexp prec emax) with fexp. rewrite fexp_eq.
    pose proof (digits2_bounds m) as [Hlo Hhi].
    assert (Hd : Zpos (digits2_pos m) <= 53).
    { destruct (Z.leb_spec (Zpos (digits2_pos m)) 53); [assumption|].
      assert (2 ^ 53 <= 2 ^ (Zpos (digits2_pos m) - 1))
        by (apply Z.pow_le_mono_r; lia). lia. }
    assert (Hd' : -1074 < c -> Zpos (digits2_pos m) = 53).
    { intros H. apply digits2_unique. specialize (Hnormal H).
      change (53 - 1) with 52. lia. }
    apply andb_true_intro. split; [apply Z.eqb_eq|apply Z.leb_le]; lia.
Qed.

Lemma pack_value (s : bool) (M c : Z) :
  0 <= M <= 2 ^ 53 -> -1074 <= c -> (-1074 < c -> 2 ^ 52 <= M) ->
  (inject_Z M * 2 ^ c < 2 ^ emax)%Q /\ is_finite (pack s M c) = true /\
    (to_Q (pack s M c) == sgn s * (inject_Z M * 2 ^ c))%Q \/
  (2 ^ emax <= inject_Z M * 2 ^ c)%Q /\ pack s M c = S754_infinity s.
Proof.
  intros HM Hc Hnormal. unfold pack.
  destruct M as [|m|m]; [| |lia].
  - left. split; [|split; [reflexivity|]].
    + change (inject_Z 0) with 0%Q. rewrite Qmult_0_l. apply pow2_pos.
    + simpl to_Q. change (inject_Z 0) with 0%Q. ring.
  - destruct (Z.eqb_spec (Zpos m) (2 ^ prec)) as [E|E].
    + rewrite E. change prec with 53. change emax with 1024.
      rewrite pow2_Z by lia. rewrite <- pow2_add.
      destruct (Z.leb_spec (c + 1) (1024 - 53)) as [Hle|Hle].
      * left. split; [apply pow2_lt; lia|]. split; [reflexivity|].
        unfold to_Q.
        change (inject_Z (Zpos (Z.to_pos (2 ^ (53 - 1))))) with (inject_Z (2 ^ 52)).
        rewrite pow2_Z by lia. rewrite <- pow2_add.
        now replace (52 + (c + 1)) with (53 + c) by lia.
      * right. split; [apply pow2_le; lia|reflexivity].
    + change (2 ^ prec) with (2 ^ 53) in E. change prec with 53.
      change emax with 1024.
      destruct (Z.leb_spec c (1024 - 53)) as [Hle|Hle].
      * left. split; [|split; [reflexivity|reflexivity]].
        apply Qlt_le_trans with (2 ^ 53 * 2 ^ c)%Q.
        -- apply Qmult_lt_compat_r; [apply pow2_pos|].
           apply inject_pos_bounds; lia.
        -- rewrite <- pow2_add. apply pow2_le. lia.
      * right. split; [|reflexivity].
        apply Qle_trans with (inject_Z (2 ^ 52) * 2 ^ c)%Q.
        -- rewrite pow2_Z by lia. rewrite <- pow2_add. apply pow2_le. lia.
        -- apply Qmult_le_compat_r; [|apply Qlt_le_weak, pow2_pos].
           rewrite <- Zle_Qle. apply Hnormal. lia.
Qed.

(** [binary_round_aux] on an exact mantissa whose exponent is not above
    the canonical one rounds to nearest. *)
Lemma bra_rounds (s : bool) (p : positive) (e : Z) :
  e <= fexp (Zpos (digits2_pos p) + e) ->
  rounds_to s (inject_Z (Zpos p) * 2 ^ e)
            (binary_round_aux prec emax s (Zpos p) e loc_Exact).
Proof.
  intros Hle.
  destruct (round_aux_spec s p e _ eq_refl Hle) as (M & Hne & HM & Hnormal & ->).
  set (c := fexp (Zpos (digits2_pos p) + e)) in *.
  assert (Hc : -1074 <= c) by (unfold c; rewrite fexp_eq; lia).
  exists (inject_Z M * 2 ^ c)%Q. split; [|split].
  - exists (Zpos (digits2_pos p) + e), M. fold c.
    pose proof (digits2_bounds p) as [Hlo Hhi].
    split; [split|split; [|reflexivity]].
    + replace (Zpos (digits2_pos p) + e - 1)
        with ((Zpos (digits2_pos p) - 1) + e) by lia.
      rewrite pow2_add.
      apply Qmult_le_compat_r; [|apply Qlt_le_weak, pow2_pos].
      rewrite <- pow2_Z by lia. now rewrite <- Zle_Qle.
    + rewrite pow2_add. apply Qmult_lt_compat_r; [apply pow2_pos|].
      apply inject_pos_bounds; lia.
    + refine (nearest_even_comp _ _ _ _ Hne).
      rewrite pow2_Z by lia. rewrite pow2_sub.
      pose proof (pow2_pos c) as Hpc. pose proof (pow2_pos e) as Hpe.
      set (a := (2 ^ c)%Q) in *. set (b := (2 ^ e)%Q) in *.
      field. split; intros H0; rewrite H0 in *; lra.
  - now apply pack_valid.
  - now apply pack_value.
Qed.


Lemma rounding_comp (q q' r : Q) : (q == q')%Q -> rounding q r -> rounding q' r.
Proof.
  intros Hq (m & M & [Hlo Hhi] & Hne & Hr). exists m, M.
  split; [split|split; [|exact Hr]].
  - now rewrite <- Hq.
  - now rewrite <- Hq.
  - refine (nearest_even_comp _ _ _ _ Hne). now rewrite Hq.
Qed.

Lemma rounds_to_comp (s : bool) (q q' : Q) (x : float) :
  (q == q')%Q -> rounds_to s q x -> rounds_to s q' x.
Proof.
  intros Hq (r & Hr & H). exists r. split; [|exact H].
  now apply (rounding_comp q).
Qed.

Lemma iter_xO (p k : positive) : Zpos (Pos.iter xO p k) = Zpos p * 2 ^ Zpos k.
Proof.
  induction k as [|k IH] using Pos.peano_ind.
  - simpl. lia.
  - rewrite Pos.iter_succ, Pos2Z.inj_succ, Z.pow_succ_r by lia.
    rewrite Pos2Z.inj_xO, IH. lia.
Qed.

Lemma shl_align_spec (p : positive) (e e' : Z) :
  snd (shl_align p e e') = Z.min e e' /\
  Zpos (fst (shl_align p e e')) = Zpos p * 2 ^ (e - Z.min e e').
Proof.
  unfold shl_align. destruct (e' - e) as [|k|k] eqn:E; cbn [fst snd].
  - replace (Z.min e e') with e by lia. rewrite Z.sub_diag. simpl. lia.
  - replace (Z.min e e') with e by lia. rewrite Z.sub_diag. simpl. lia.
  - replace (Z.min e e') with e' by lia. split; [reflexivity|].
    rewrite iter_xO. f_equal. f_equal. lia.
Qed.

Lemma digits2_shift (p q : positive) (j : Z) :
  0 <= j -> Zpos q = Zpos p * 2 ^ j ->
  Zpos (digits2_pos q) = Zpos (digits2_pos p) + j.
Proof.
  intros Hj Hq. apply digits2_unique. rewrite Hq.
  pose proof (digits2_bounds p) as [Hlo Hhi].
  assert (H2 : 0 < 2 ^ j) by (apply Z.pow_pos_nonneg; lia).
  replace (Zpos (digits2_pos p) + j - 1) with (Zpos (digits2_pos p) - 1 + j) by lia.
  rewrite !Z.pow_add_r by lia. nia.
Qed.

(** [binary_round] rounds any positive mantissa and exponent. *)
Lemma binary_round_rounds (s : bool) (p : positive) (e : Z) :
  rounds_to s (inject_Z (Zpos p) * 2 ^ e) (binary_round prec emax s p e).
Proof.
  unfold binary_round.
  pose proof (shl_align_spec p e
                (SpecFloat.fexp prec emax (Zpos (digits2_pos p) + e))) as [He Hm].
  destruct (shl_align p e _) as [mz ez]. cbn [fst snd] in He, Hm.
  change (SpecFloat.fexp prec emax) with fexp in *.
  set (c := fexp (Zpos (digits2_pos p) + e)) in *.
  assert (Hd : Zpos (digits2_pos mz) = Zpos (digits2_pos p) + (e - ez)).
  { apply digits2_shift; [lia|]. now rewrite He. }
  apply (rounds_to_comp s (inject_Z (Zpos mz) * 2 ^ ez)).
  - rewrite Hm, <- He, inject_Z_mult, pow2_Z by lia.
    rewrite <- Qmult_assoc, <- pow2_add. now replace (e - ez + ez) with e by lia.
  - apply bra_rounds. rewrite Hd.
    replace (Zpos (digits2_pos p) + (e - ez) + ez) with (Zpos (digits2_pos p) + e)
      by lia.
    fold c. lia.
Qed.

Lemma valid_finite (s : bool) (m : positive) (e : Z) :
  valid (S754_finite s m e) = true ->
  e = Z.max (Zpos (digits2_pos m) + e - 53) (-1074) /\ e <= 971.
Proof.
  unfold valid, valid_binary, bounded, canonical_mantissa.
  change (SpecFloat.fexp prec emax) with fexp. rewrite fexp_eq.
  intros H. apply andb_prop in H as [H1 H2].
  apply Z.eqb_eq in H1. apply Z.leb_le in H2.
  change (emax - prec) with 971 in H2. lia.
Qed.

Lemma digits2_mul (p q : positive) :
  Zpos (digits2_pos p) + Zpos (digits2_pos q) - 1 <= Zpos (digits2_pos (p * q)).
Proof.
  pose proof (digits2_bounds p) as [Hp _].
  pose proof (digits2_bounds q) as [Hq _].
  pose proof (digits2_bounds (p * q)) as [_ Hpq].
  rewrite Pos2Z.inj_mul in Hpq.
  assert (H : 2 ^ (Zpos (digits2_pos p) - 1 + (Zpos (digits2_pos q) - 1))
              < 2 ^ Zpos (digits2_pos (p * q))).
  { rewrite Z.pow_add_r by lia.
    assert (0 < 2 ^ (Zpos (digits2_pos p) - 1)) by (apply Z.pow_pos_nonneg; lia).
    assert (0 < 2 ^ (Zpos (digits2_pos q) - 1)) by (apply Z.pow_pos_nonneg; lia).
    nia. }
  apply Z.pow_lt_mono_r_iff in H; lia.
Qed.

(** The product of two doubles is the rounding of the exact product. *)
Lemma mul_rounds (sx sy : bool) (mx my : positive) (ex ey : Z) :
  valid (S754_finite sx mx ex) = true ->
  valid (S754_finite sy my ey) = true ->
  rounds_to (xorb sx sy)
            ((inject_Z (Zpos mx) * 2 ^ ex) * (inject_Z (Zpos my) * 2 ^ ey))
            (mul (S754_finite sx mx ex) (S754_finite sy my ey)).
Proof.
  intros Hx Hy. apply valid_finite in Hx as [Hx _], Hy as [Hy _].
  unfold mul, SFmul.
  apply (rounds_to_comp _ (inject_Z (Zpos (mx * my)) * 2 ^ (ex + ey))).
  - rewrite Pos2Z.inj_mul, inject_Z_mult, pow2_add. ring.
  - apply bra_rounds. rewrite fexp_eq.
    pose proof (digits2_mul mx my).
    assert (0 < Zpos (digits2_pos mx)) by lia.
    assert (0 < Zpos (digits2_pos my)) by lia. lia.
Qed.

End Operations.

Section Products.
Import F64.

Lemma finite_magnitude_pos (m : positive) (e : Z) :
  (0 < inject_Z (Zpos m) * 2 ^ e)%Q.
Proof.
  apply Qmult_lt_0_compat; [|apply pow2_pos].
  change 0%Q with (inject_Z 0). now rewrite <- Zlt_Qlt.
Qed.

Lemma nonneg_finite_sign (s : bool) (m : positive) (e : Z) :
  (0 <= to_Q (S754_finite s m e))%Q -> s = false.
Proof.
  destruct s; [|reflexivity]. unfold to_Q, sgn. intros H.
  pose proof (finite_magnitude_pos m e). lra.
Qed.

Lemma rounds_to_finite (q : Q) (x : float) :
  rounds_to false q x -> is_finite x = true ->
  exists r, rounding q r /\ (r < 2 ^ emax)%Q /\ (to_Q x == r)%Q.
Proof.
  intros (r & Hr & _ & [(Hlt & _ & Hv)|(_ & ->)]) Hfin; [|discriminate].
  exists r. split; [exact Hr|]. split; [exact Hlt|].
  rewrite Hv. unfold sgn. ring.
Qed.

Lemma rounds_to_small (q : Q) (x : float) (r : Q) :
  rounds_to false q x -> rounding q r -> (r < 2 ^ emax)%Q ->
  is_finite x = true.
Proof.
  intros (r' & Hr' & _ & [(_ & Hfin & _)|(Hge & _)]) Hr Hlt; [exact Hfin|].
  pose proof (rounding_mono q q r' r Hr' Hr (Qle_refl q)). lra.
Qed.

Lemma rounds_to_valid (s : bool) (q : Q) (x : float) :
  rounds_to s q x -> valid x = true.
Proof. now intros (r & _ & Hv & _). Qed.

(** The product of two non-negative doubles. *)
Lemma mul_nonneg_spec (x y : float) :
  nonneg x -> nonneg y ->
  (to_Q x * to_Q y == 0)%Q /\ is_finite (mul x y) = true /\
    (to_Q (mul x y) == 0)%Q /\ valid (mul x y) = true \/
  (0 < to_Q x * to_Q y)%Q /\ rounds_to false (to_Q x * to_Q y) (mul x y).
Proof.
  intros (Hvx & Hfx & Hx) (Hvy & Hfy & Hy).
  destruct x as [sx|sx| |sx mx ex]; try discriminate Hfx;
    destruct y as [sy|sy| |sy my ey]; try discriminate Hfy.
  - left. repeat split; simpl; ring.
  - left. repeat split; simpl; ring.
  - left. repeat split; simpl; ring.
  - right. apply nonneg_finite_sign in Hx, Hy. subst sx sy.
    assert (Hq : (to_Q (S754_finite false mx ex) * to_Q (S754_finite false my ey)
                  == (inject_Z (Zpos mx) * 2 ^ ex) * (inject_Z (Zpos my) * 2 ^ ey))%Q).
    { unfold to_Q, sgn. ring. }
    split.
    + rewrite Hq. apply Qmult_lt_0_compat; apply finite_magnitude_pos.
    + apply (rounds_to_comp _ _ _ _ (Qeq_sym _ _ Hq)).
      apply (mul_rounds false false); assumption.
Qed.

Lemma mul_nonneg (x y : float) :
  nonneg x -> nonneg y -> is_finite (mul x y) = true -> nonneg (mul x y).
Proof.
  intros Hx Hy Hfin.
  destruct (mul_nonneg_spec x y Hx Hy) as [(_ & _ & Hv & Hval)|(_ & Hr)].
  - split; [exact Hval|]. split; [exact Hfin|]. rewrite Hv. apply Qle_refl.
  - split; [exact (rounds_to_valid _ _ _ Hr)|]. split; [exact Hfin|].
    destruct (rounds_to_finite _ _ Hr Hfin) as (r & Hr' & _ & ->).
    exact (rounding_nonneg _ _ Hr').
Qed.

(** Multiplication by a non-negative double is monotone, also in
    whether it overflows. *)
Lemma mul_mono (x1 x2 y : float) :
  nonneg x1 -> nonneg x2 -> nonneg y ->
  (to_Q x1 <= to_Q x2)%Q -> is_finite (mul x2 y) = true ->
  is_finite (mul x1 y) = true /\
  (0 <= to_Q (mul x1 y) <= to_Q (mul x2 y))%Q.
Proof.
  intros Hx1 Hx2 Hy Hle Hfin.
  pose proof (mul_nonneg x2 y Hx2 Hy Hfin) as (_ & _ & H2).
  destruct (mul_nonneg_spec x1 y Hx1 Hy) as [(_ & Hf1 & Hv1 & _)|(Hq1 & Hr1)].
  - split; [exact Hf1|]. rewrite Hv1. split; [apply Qle_refl|exact H2].
  - destruct Hx1 as (_ & _ & Hx1), Hy as (Hvy & Hfy & Hy').
    assert (Hypos : (0 < to_Q y)%Q).
    { destruct (Qlt_le_dec 0 (to_Q y)) as [H|H]; [exact H|exfalso].
      assert (H0 : (to_Q y == 0)%Q) by lra. rewrite H0 in Hq1. lra. }
    assert (Hq : (to_Q x1 * to_Q y <= to_Q x2 * to_Q y)%Q)
      by (apply Qmult_le_compat_r; lra).
    destruct (mul_nonneg_spec x2 y Hx2 (conj Hvy (conj Hfy Hy')))
      as [(Hq2 & _)|(Hq2 & Hr2)]; [lra|].
    destruct (rounds_to_finite _ _ Hr2 Hfin) as (r2 & Hr2' & Hlt2 & Hv2).
    destruct Hr1 as (r1 & Hr1' & Hval1 & [(Hlt1 & Hf1 & Hv1)|(Hge1 & _)]).
    + split; [exact Hf1|]. rewrite Hv1, Hv2. unfold sgn. rewrite Qmult_1_l.
      split; [exact (rounding_nonneg _ _ Hr1')|].
      exact (rounding_mono _ _ _ _ Hr1' Hr2' Hq).
    + pose proof (rounding_mono _ _ _ _ Hr1' Hr2' Hq). lra.
Qed.

(** Below [2 ^ 53] a product never rounds across an integer. *)
Lemma mul_int_bounds (x y : float) (n : Z) :
  nonneg x -> nonneg y -> (to_Q x * to_Q y < 2 ^ 53)%Q ->
  is_finite (mul x y) = true /\
  ((inject_Z n <= to_Q x * to_Q y)%Q -> (inject_Z n <= to_Q (mul x y))%Q) /\
  ((to_Q x * to_Q y <= inject_Z n)%Q -> (to_Q (mul x y) <= inject_Z n)%Q).
Proof.
  intros Hx Hy Hq.
  destruct (mul_nonneg_spec x y Hx Hy) as [(Hq0 & Hf & Hv & _)|(Hpos & Hr)].
  - split; [exact Hf|]. rewrite Hv, Hq0. split; intros H; exact H.
  - destruct Hr as (r & Hr & Hval & Hcase).
    pose proof (rounding_int_bounds _ _ (2 ^ 53) Hr Hq) as [_ Hup].
    assert (Hr53 : (r <= inject_Z (2 ^ 53))%Q).
    { apply Hup. rewrite pow2_Z by lia. now apply Qlt_le_weak. }
    assert (Hsmall : (r < 2 ^ emax)%Q).
    { apply Qle_lt_trans with (inject_Z (2 ^ 53)); [exact Hr53|].
      rewrite pow2_Z by lia. apply pow2_lt. reflexivity. }
    destruct Hcase as [(_ & Hf & Hv)|(Hge & _)]; [|lra].
    split; [exact Hf|]. rewrite Hv. unfold sgn. rewrite Qmult_1_l.
    exact (rounding_int_bounds _ _ n Hr Hq).
Qed.

(** The product of a negative double and a non-negative one: the
    magnitudes are multiplied and rounded, so that below [2 ^ 53] the
    magnitude of the product never rounds across an integer. *)
Lemma mul_neg_int_bounds (x y : float) :
  valid x = true -> (to_Q x < 0)%Q -> nonneg y ->
  (- to_Q x * to_Q y < 2 ^ 53)%Q ->
  is_finite (mul x y) = true /\ (to_Q (mul x y) <= 0)%Q /\
  forall n : Z,
    ((inject_Z n <= - to_Q x * to_Q y)%Q -> (inject_Z n <= - to_Q (mul x y))%Q) /\
    ((- to_Q x * to_Q y <= inject_Z n)%Q -> (- to_Q (mul x y) <= inject_Z n)%Q).
Proof.
  intros Hvx Hx (Hvy & Hfy & Hy) Hq.
  destruct x as [sx|sx| |sx mx ex]; try (simpl in Hx; lra).
  assert (Hsx : sx = true).
  { destruct sx; [reflexivity|]. unfold to_Q, sgn in Hx.
    pose proof (finite_magnitude_pos mx ex). lra. }
  subst sx.
  destruct y as [sy|sy| |sy my ey]; try discriminate Hfy.
  - split; [reflexivity|]. simpl. split; [lra|]. intros n.
    split; intros H; lra.
  - apply nonneg_finite_sign in Hy. subst sy.
    assert (Hm : (- to_Q (S754_finite true mx ex) * to_Q (S754_finite false my ey)
                  == (inject_Z (Zpos mx) * 2 ^ ex) * (inject_Z (Zpos my) * 2 ^ ey))%Q).
    { unfold to_Q, sgn. ring. }
    pose proof (mul_rounds true false mx my ex ey Hvx Hvy) as Hr.
    apply (rounds_to_comp _ _ _ _ (Qeq_sym _ _ Hm)) in Hr.
    destruct Hr as (r & Hr & Hval & Hcase).
    pose proof (rounding_int_bounds _ _ (2 ^ 53) Hr Hq) as [_ Hup].
    assert (Hr53 : (r <= inject_Z (2 ^ 53))%Q).
    { apply Hup. rewrite pow2_Z by lia. now apply Qlt_le_weak. }
    assert (Hsmall : (r < 2 ^ emax)%Q).
    { apply Qle_lt_trans with (inject_Z (2 ^ 53)); [exact Hr53|].
      rewrite pow2_Z by lia. apply pow2_lt. reflexivity. }
    destruct Hcase as [(_ & Hf & Hv)|(Hge & _)]; [|lra].
    split; [exact Hf|].
    assert (Hneg : (- to_Q (mul (S754_finite true mx ex) (S754_finite false my ey))
                    == r)%Q).
    { rewrite Hv. cbn [xorb sgn]. ring. }
    pose proof (rounding_nonneg _ _ Hr) as Hr0.
    split; [lra|]. intros n. rewrite Hneg.
    exact (rounding_int_bounds _ _ n Hr Hq).
Qed.

Lemma of_Z_shape (n : Z) :
  0 <= n -> nonneg (of_Z n) \/ of_Z n = S754_infinity false.
Proof.
  intros Hn. destruct n as [|p|p]; [| |lia].
  - left. repeat split. simpl. apply Qle_refl.
  - pose proof (binary_round_rounds false p 0) as (r & Hr & Hv & Hcase).
    change (binary_round prec emax false p 0) with (of_Z (Zpos p)) in *.
    destruct Hcase as [(_ & Hf & Hq)|(_ & Hinf)]; [left|right; exact Hinf].
    split; [exact Hv|]. split; [exact Hf|]. rewrite Hq. unfold sgn.
    rewrite Qmult_1_l. exact (rounding_nonneg _ _ Hr).
Qed.

(** Integers below [2 ^ 53] are doubles. *)
Lemma of_Z_exact (n : Z) :
  0 <= n < 2 ^ 53 -> nonneg (of_Z n) /\ (to_Q (of_Z n) == inject_Z n)%Q.
Proof.
  intros [Hn Hlt]. destruct n as [|p|p]; [| |lia].
  - split; [|reflexivity]. repeat split. simpl. apply Qle_refl.
  - pose proof (binary_round_rounds false p 0) as (r & Hr & Hv & Hcase).
    change (binary_round prec emax false p 0) with (of_Z (Zpos p)) in *.
    assert (Hp : (inject_Z (Zpos p) * 2 ^ 0 == inject_Z (Zpos p))%Q)
      by (change (2 ^ 0)%Q with 1%Q; ring).
    apply (rounding_comp _ _ _ Hp) in Hr.
    assert (Hq : (inject_Z (Zpos p) < 2 ^ 53)%Q) by (apply inject_pos_bounds; lia).
    pose proof (rounding_int_bounds _ _ (Zpos p) Hr Hq) as [Hlo Hhi].
    specialize (Hlo (Qle_refl _)). specialize (Hhi (Qle_refl _)).
    assert (Hsmall : (r < 2 ^ emax)%Q).
    { apply Qle_lt_trans with (inject_Z (Zpos p)); [exact Hhi|].
      apply Qlt_trans with (2 ^ 53)%Q; [exact Hq|]. apply pow2_lt. reflexivity. }
    destruct Hcase as [(_ & Hf & Hval)|(Hge & _)]; [|lra].
    assert (Hto : (to_Q (of_Z (Zpos p)) == inject_Z (Zpos p))%Q).
    { rewrite Hval. unfold sgn. rewrite Qmult_1_l. lra. }
    split; [|exact Hto]. split; [exact Hv|]. split; [exact Hf|].
    rewrite Hto. change 0%Q with (inject_Z 0). now rewrite <- Zle_Qle.
Qed.

End Products.

Section Sums.
Import F64.

Lemma nearest_even_int (M : Z) : nearest_even (inject_Z M) M.
Proof. split; [lra|]. intros [H|H]; lra. Qed.

Lemma valid_mantissa (s : bool) (m : positive) (e : Z) :
  valid (S754_finite s m e) = true ->
  -1074 <= e <= 971 /\ Zpos (digits2_pos m) <= 53 /\
  fexp (Zpos (digits2_pos m) + e) = e.
Proof. intros H. apply valid_finite in H as [He Hle]. rewrite fexp_eq. lia. Qed.

(** A double rounds to itself. *)
Lemma rounding_double (s : bool) (m : positive) (e : Z) :
  valid (S754_finite s m e) = true ->
  rounding (inject_Z (Zpos m) * 2 ^ e) (inject_Z (Zpos m) * 2 ^ e) /\
  (inject_Z (Zpos m) * 2 ^ e < 2 ^ emax)%Q.
Proof.
  intros Hv. apply valid_mantissa in Hv as (He & Hd & Hc).
  pose proof (digits2_bounds m) as [Hlo Hhi].
  split.
  - exists (Zpos (digits2_pos m) + e), (Zpos m). rewrite Hc.
    split; [split|split; [|reflexivity]].
    + replace (Zpos (digits2_pos m) + e - 1)
        with ((Zpos (digits2_pos m) - 1) + e) by lia.
      rewrite pow2_add.
      apply Qmult_le_compat_r; [|apply Qlt_le_weak, pow2_pos].
      rewrite <- pow2_Z by lia. now rewrite <- Zle_Qle.
    + rewrite pow2_add. apply Qmult_lt_compat_r; [apply pow2_pos|].
      apply inject_pos_bounds; lia.
    + apply (nearest_even_comp (inject_Z (Zpos m))); [|apply nearest_even_int].
      pose proof (pow2_pos e) as Hpe. set (b := (2 ^ e)%Q) in *.
      field. intros H0. rewrite H0 in Hpe. lra.
  - apply Qlt_le_trans with (2 ^ 53 * 2 ^ e)%Q.
    + apply Qmult_lt_compat_r; [apply pow2_pos|].
      apply inject_pos_bounds; [lia|].
      assert (2 ^ Zpos (digits2_pos m) <= 2 ^ 53)
        by (apply Z.pow_le_mono_r; lia).
      lia.
    + rewrite <- pow2_add. apply pow2_le. change emax with 1024. lia.
Qed.

Lemma rounds_to_double (s : bool) (m : positive) (e : Z) :
  valid (S754_finite s m e) = true ->
  rounds_to s (inject_Z (Zpos m) * 2 ^ e) (S754_finite s m e).
Proof.
  intros Hv. destruct (rounding_double s m e Hv) as [Hr Hlt].
  exists (inject_Z (Zpos m) * 2 ^ e)%Q. split; [exact Hr|]. split; [exact Hv|].
  left. split; [exact Hlt|]. split; reflexivity.
Qed.

Lemma nonneg_rounds_to (x : float) :
  nonneg x -> (0 < to_Q x)%Q -> rounds_to false (to_Q x) x.
Proof.
  intros (Hv & Hf & Hx) Hpos.
  destruct x as [s|s| |s m e]; try (simpl in Hpos; lra).
  apply nonneg_finite_sign in Hx. subst s.
  apply (rounds_to_comp _ (inject_Z (Zpos m) * 2 ^ e)).
  - unfold to_Q, sgn. ring.
  - now apply rounds_to_double.
Qed.

Lemma nonneg_rounding (x : float) :
  nonneg x -> (0 < to_Q x)%Q -> rounding (to_Q x) (to_Q x).
Proof.
  intros Hx Hpos. pose proof Hx as (_ & Hf & _).
  destruct (rounds_to_finite _ _ (nonneg_rounds_to x Hx Hpos) Hf)
    as (r & Hr & _ & Hv).
  destruct Hr as (m & M & Hm & Hne & Hr). exists m, M.
  split; [exact Hm|]. split; [exact Hne|]. now rewrite Hv.
Qed.

(** Every double is a multiple of [2 ^ -1074]. *)
Lemma valid_grid (x : float) :
  valid x = true -> exists z : Z, (to_Q x == inject_Z z * 2 ^ (-1074))%Q.
Proof.
  intros Hv. destruct x as [s|s| |s m e]; try (exists 0; reflexivity).
  apply valid_mantissa in Hv as (He & _ & _).
  exists ((if s then -1 else 1) * (Zpos m * 2 ^ (e + 1074))).
  unfold to_Q. rewrite !inject_Z_mult, pow2_Z by lia.
  replace e with ((e + 1074) + -1074) at 1 by lia. rewrite pow2_add.
  destruct s; unfold sgn.
  - change (inject_Z (-1)) with (-1)%Q. ring.
  - change (inject_Z 1) with 1%Q. ring.
Qed.

(** Rounding a multiple of [2 ^ -1074] never loses more than a quarter
    of it (a multiple below the normal range is a double). *)
Lemma rounding_grid_lower (q r : Q) (z : Z) :
  rounding q r -> (q == inject_Z z * 2 ^ (-1074))%Q -> ((3 # 4) * q <= r)%Q.
Proof.
  intros (m & M & [Hlo Hhi] & Hne & Hr) Hz. rewrite Hr. unfold_fexp.
  pose proof (pow2_pos (m - 1)) as Hpos.
  destruct (Z.max_spec (m - 53) (-1074)) as [[Hlt Hc]|[Hge Hc]]; rewrite Hc in *.
  - assert (Hy : (q / 2 ^ (-1074) == inject_Z z)%Q).
    { rewrite Hz. pose proof (pow2_pos (-1074)) as Hp.
      set (b := (2 ^ (-1074))%Q) in *. field. intros H0. rewrite H0 in Hp. lra. }
    assert (HM : z <= M).
    { apply (nearest_even_ge_int _ _ _ Hne). rewrite Hy. apply Qle_refl. }
    apply Qle_trans with q; [lra|]. rewrite Hz.
    apply Qmult_le_compat_r; [|apply Qlt_le_weak, pow2_pos].
    now rewrite <- Zle_Qle.
  - destruct Hne as [[_ HyM] _].
    assert (Hq : (q == q / 2 ^ (m - 53) * 2 ^ (m - 53))%Q).
    { pose proof (pow2_pos (m - 53)) as Hp.
      set (b := (2 ^ (m - 53))%Q) in *. field. intros H0. rewrite H0 in Hp. lra. }
    assert (Hy : (2 ^ 52 <= q / 2 ^ (m - 53))%Q).
    { apply Qle_shift_div_l; [apply pow2_pos|]. rewrite <- pow2_add.
      now replace (52 + (m - 53)) with (m - 1) by lia. }
    set (y := (q / 2 ^ (m - 53))%Q) in *.
    rewrite Hq at 1. rewrite Qmult_assoc.
    apply Qmult_le_compat_r; [|apply Qlt_le_weak, pow2_pos].
    assert (H52 : (2 <= 2 ^ 52)%Q).
    { change 2%Q with (2 ^ 1)%Q at 1. apply pow2_le. lia. }
    lra.
Qed.

Lemma aligned_value (m : positive) (e ez : Z) :
  ez <= e ->
  (inject_Z (Zpos (fst (shl_align m e ez))) * 2 ^ ez
   == inject_Z (Zpos m) * 2 ^ e)%Q.
Proof.
  intros Hle. destruct (shl_align_spec m e ez) as [_ Hm].
  rewrite Hm. replace (Z.min e ez) with ez by lia.
  rewrite inject_Z_mult, pow2_Z by lia. rewrite <- Qmult_assoc, <- pow2_add.
  now replace (e - ez + ez) with e by lia.
Qed.

(** The sum of two non-negative doubles is the rounding of the exact
    sum. *)
Lemma add_nonneg_spec (x y : float) :
  nonneg x -> nonneg y ->
  (to_Q x + to_Q y == 0)%Q /\ is_finite (add x y) = true /\
    (to_Q (add x y) == 0)%Q /\ valid (add x y) = true \/
  (0 < to_Q x + to_Q y)%Q /\ rounds_to false (to_Q x + to_Q y) (add x y).
Proof.
  intros Hx Hy. pose proof Hx as (Hvx & Hfx & Hx0).
  pose proof Hy as (Hvy & Hfy & Hy0).
  destruct x as [sx|sx| |sx mx ex]; try discriminate Hfx;
    destruct y as [sy|sy| |sy my ey]; try discriminate Hfy.
  - left. destruct sx, sy; repeat split; simpl; ring.
  - right. apply nonneg_finite_sign in Hy0. subst sy.
    assert (Hpos : (0 < to_Q (S754_finite false my ey))%Q).
    { unfold to_Q, sgn. pose proof (finite_magnitude_pos my ey). lra. }
    change (to_Q (S754_zero sx)) with 0%Q. split; [lra|].
    apply (rounds_to_comp _ (to_Q (S754_finite false my ey))); [ring|].
    now apply nonneg_rounds_to.
  - right. apply nonneg_finite_sign in Hx0. subst sx.
    assert (Hpos : (0 < to_Q (S754_finite false mx ex))%Q).
    { unfold to_Q, sgn. pose proof (finite_magnitude_pos mx ex). lra. }
    change (to_Q (S754_zero sy)) with 0%Q. split; [lra|].
    apply (rounds_to_comp _ (to_Q (S754_finite false mx ex))); [ring|].
    now apply nonneg_rounds_to.
  - right. apply nonneg_finite_sign in Hx0, Hy0. subst sx sy.
    pose proof (finite_magnitude_pos mx ex) as Hpx.
    pose proof (finite_magnitude_pos my ey) as Hpy.
    split; [unfold to_Q, sgn; lra|].
    unfold add, SFadd. cbn [cond_Zopp]. cbv zeta.
    set (ez := Z.min ex ey).
    pose proof (aligned_value mx ex ez ltac:(lia)) as Ha.
    pose proof (aligned_value my ey ez ltac:(lia)) as Hb.
    set (a := fst (shl_align mx ex ez)) in *.
    set (b := fst (shl_align my ey ez)) in *.
    change (Zpos a + Zpos b) with (Zpos (a + b)).
    cbn [binary_normalize].
    apply (rounds_to_comp _ (inject_Z (Zpos (a + b)) * 2 ^ ez)).
    + rewrite Pos2Z.inj_add, inject_Z_plus, Qmult_plus_distr_l, Ha, Hb.
      unfold to_Q, sgn. ring.
    + apply binary_round_rounds.
Qed.

(** The difference of two non-negative doubles, the smaller one taken
    from the larger, is the rounding of the exact difference. *)
Lemma sub_nonneg_spec (x y : float) :
  nonneg x -> nonneg y -> (to_Q y <= to_Q x)%Q ->
  (to_Q x - to_Q y == 0)%Q /\ is_finite (sub x y) = true /\
    (to_Q (sub x y) == 0)%Q /\ valid (sub x y) = true \/
  (0 < to_Q x - to_Q y)%Q /\ rounds_to false (to_Q x - to_Q y) (sub x y).
Proof.
  intros Hx Hy Hle. pose proof Hx as (Hvx & Hfx & Hx0).
  pose proof Hy as (Hvy & Hfy & Hy0).
  destruct x as [sx|sx| |sx mx ex]; try discriminate Hfx;
    destruct y as [sy|sy| |sy my ey]; try discriminate Hfy.
  - left. destruct sx, sy; repeat split; simpl; ring.
  - exfalso. apply nonneg_finite_sign in Hy0. subst sy.
    unfold to_Q, sgn in Hle. pose proof (finite_magnitude_pos my ey). lra.
  - right. apply nonneg_finite_sign in Hx0. subst sx.
    assert (Hpos : (0 < to_Q (S754_finite false mx ex))%Q).
    { unfold to_Q, sgn. pose proof (finite_magnitude_pos mx ex). lra. }
    change (to_Q (S754_zero sy)) with 0%Q. split; [lra|].
    apply (rounds_to_comp _ (to_Q (S754_finite false mx ex))); [ring|].
    now apply nonneg_rounds_to.
  - apply nonneg_finite_sign in Hx0, Hy0. subst sx sy.
    unfold sub, SFsub. cbn [cond_Zopp]. cbv zeta.
    set (ez := Z.min ex ey).
    pose proof (aligned_value mx ex ez ltac:(lia)) as Ha.
    pose proof (aligned_value my ey ez ltac:(lia)) as Hb.
    set (a := fst (shl_align mx ex ez)) in *.
    set (b := fst (shl_align my ey ez)) in *.
    assert (Hd : (to_Q (S754_finite false mx ex) - to_Q (S754_finite false my ey)
                  == inject_Z (Zpos a - Zpos b) * 2 ^ ez)%Q).
    { unfold Z.sub. rewrite inject_Z_plus, inject_Z_opp.
      unfold to_Q, sgn. rewrite <- Ha, <- Hb. ring. }
    pose proof (pow2_pos ez) as Hp.
    assert (Hsign : 0 <= Zpos a - Zpos b).
    { destruct (Z.leb_spec 0 (Zpos a - Zpos b)) as [H|H]; [exact H|exfalso].
      assert (H' : (inject_Z (Zpos a - Zpos b) * 2 ^ ez < 0)%Q).
      { assert (H1 : (inject_Z (Zpos a - Zpos b) <= inject_Z (-1))%Q)
          by (rewrite <- Zle_Qle; lia).
        change (inject_Z (-1)) with (-1)%Q in H1.
        set (u := inject_Z (Zpos a - Zpos b)) in *.
        set (v := (2 ^ ez)%Q) in *. nra. }
      lra. }
    destruct (Zpos a - Zpos b) as [|p|p] eqn:E; [| |lia].
    + left. cbn [binary_normalize].
      split; [rewrite Hd; change (inject_Z 0) with 0%Q; ring|].
      repeat split.
    + right.
      assert (Hpos : (0 < inject_Z (Zpos p) * 2 ^ ez)%Q).
      { apply Qmult_lt_0_compat; [|exact Hp].
        change 0%Q with (inject_Z 0). now rewrite <- Zlt_Qlt. }
      split; [now rewrite Hd|].
      apply (rounds_to_comp _ _ _ _ (Qeq_sym _ _ Hd)).
      cbn [binary_normalize]. apply binary_round_rounds.
Qed.

Lemma add_nonneg (x y : float) :
  nonneg x -> nonneg y -> is_finite (add x y) = true -> nonneg (add x y).
Proof.
  intros Hx Hy Hfin.
  destruct (add_nonneg_spec x y Hx Hy) as [(_ & _ & Hv & Hval)|(_ & Hr)].
  - split; [exact Hval|]. split; [exact Hfin|]. rewrite Hv. apply Qle_refl.
  - split; [exact (rounds_to_valid _ _ _ Hr)|]. split; [exact Hfin|].
    destruct (rounds_to_finite _ _ Hr Hfin) as (r & Hr' & _ & ->).
    exact (rounding_nonneg _ _ Hr').
Qed.

Lemma sub_nonneg (x y : float) :
  nonneg x -> nonneg y -> (to_Q y <= to_Q x)%Q ->
  is_finite (sub x y) = true -> nonneg (sub x y).
Proof.
  intros Hx Hy Hle Hfin.
  destruct (sub_nonneg_spec x y Hx Hy Hle) as [(_ & _ & Hv & Hval)|(_ & Hr)].
  - split; [exact Hval|]. split; [exact Hfin|]. rewrite Hv. apply Qle_refl.
  - split; [exact (rounds_to_valid _ _ _ Hr)|]. split; [exact Hfin|].
    destruct (rounds_to_finite _ _ Hr Hfin) as (r & Hr' & _ & ->).
    exact (rounding_nonneg _ _ Hr').
Qed.

(** A double that is not above the exact sum is not above the rounded
    sum. *)
Lemma add_above_double (x y z : float) :
  nonneg x -> nonneg y -> nonneg z ->
  (to_Q z <= to_Q x + to_Q y)%Q -> is_finite (add x y) = true ->
  (to_Q z <= to_Q (add x y))%Q.
Proof.
  intros Hx Hy Hz Hle Hfin. pose proof Hz as (_ & _ & Hz0).
  destruct (add_nonneg_spec x y Hx Hy) as [(Hq & _ & Hv & _)|(Hq & Hr)].
  - rewrite Hv. lra.
  - destruct (rounds_to_finite _ _ Hr Hfin) as (r & Hr' & _ & Hv).
    rewrite Hv.
    destruct (Qlt_le_dec 0 (to_Q z)) as [Hpos|Hzero].
    + exact (rounding_mono _ _ _ _ (nonneg_rounding z Hz Hpos) Hr' Hle).
    + pose proof (rounding_nonneg _ _ Hr'). lra.
Qed.

(** Addition of non-negative doubles is monotone, also in whether it
    overflows. *)
Lemma add_mono (x y1 y2 : float) :
  nonneg x -> nonneg y1 -> nonneg y2 ->
  (to_Q y1 <= to_Q y2)%Q -> is_finite (add x y2) = true ->
  is_finite (add x y1) = true /\ (to_Q (add x y1) <= to_Q (add x y2))%Q.
Proof.
  intros Hx Hy1 Hy2 Hle Hfin.
  pose proof (add_nonneg x y2 Hx Hy2 Hfin) as (_ & _ & H2).
  destruct (add_nonneg_spec x y1 Hx Hy1) as [(_ & Hf1 & Hv1 & _)|(Hq1 & Hr1)].
  - split; [exact Hf1|]. now rewrite Hv1.
  - assert (Hq : (to_Q x + to_Q y1 <= to_Q x + to_Q y2)%Q) by lra.
    destruct (add_nonneg_spec x y2 Hx Hy2) as [(Hq2 & _)|(Hq2 & Hr2)]; [lra|].
    destruct (rounds_to_finite _ _ Hr2 Hfin) as (r2 & Hr2' & Hlt2 & Hv2).
    destruct Hr1 as (r1 & Hr1' & Hval1 & [(Hlt1 & Hf1 & Hv1)|(Hge1 & _)]).
    + split; [exact Hf1|]. rewrite Hv1, Hv2. unfold sgn. rewrite Qmult_1_l.
      exact (rounding_mono _ _ _ _ Hr1' Hr2' Hq).
    + pose proof (rounding_mono _ _ _ _ Hr1' Hr2' Hq). lra.
Qed.

Lemma add_finite (x y : float) :
  is_finite (add x y) = true -> is_finite x = true /\ is_finite y = true.
Proof. destruct x as [| [|] | |], y as [| [|] | |]; simpl; intros H; try discriminate H; split; reflexivity. Qed.

Lemma sub_finite (x y : float) :
  is_finite (sub x y) = true -> is_finite x = true /\ is_finite y = true.
Proof. destruct x as [| [|] | |], y as [| [|] | |]; simpl; intros H; try discriminate H; split; reflexivity. Qed.

Lemma mul_finite (x y : float) :
  is_finite (mul x y) = true -> is_finite x = true /\ is_finite y = true.
Proof. destruct x, y; simpl; intros H; try discriminate H; split; reflexivity. Qed.

(** The conversion of an integer to a double is monotone. *)
Lemma of_Z_mono (a b : Z) :
  0 <= a <= b -> is_finite (of_Z b) = true ->
  nonneg (of_Z a) /\ nonneg (of_Z b) /\ (to_Q (of_Z a) <= to_Q (of_Z b))%Q.
Proof.
  intros [Ha Hab] Hfin.
  assert (Hb : nonneg (of_Z b)).
  { destruct (of_Z_shape b ltac:(lia)) as [H|H]; [exact H|].
    rewrite H in Hfin. discriminate Hfin. }
  destruct a as [|p|p]; [| |lia].
  - split; [|split; [exact Hb|]].
    + repeat split. simpl. apply Qle_refl.
    + destruct Hb as (_ & _ & Hb). exact Hb.
  - destruct b as [|q|q]; [lia| |lia].
    pose proof (binary_round_rounds false p 0) as (ra & Hra & Hva & Hca).
    pose proof (binary_round_rounds false q 0) as Hrb.
    change (binary_round prec emax false p 0) with (of_Z (Zpos p)) in *.
    change (binary_round prec emax false q 0) with (of_Z (Zpos q)) in *.
    destruct (rounds_to_finite _ _ Hrb Hfin) as (rb & Hrb' & Hltb & Hvb).
    assert (Hq : (inject_Z (Zpos p) * 2 ^ 0 <= inject_Z (Zpos q) * 2 ^ 0)%Q).
    { apply Qmult_le_compat_r; [now rewrite <- Zle_Qle|].
      apply Qlt_le_weak, pow2_pos. }
    pose proof (rounding_mono _ _ _ _ Hra Hrb' Hq) as Hle.
    destruct Hca as [(_ & Hfa & Hqa)|(Hge & _)]; [|lra].
    assert (Hta : (to_Q (of_Z (Zpos p)) == ra)%Q)
      by (rewrite Hqa; unfold sgn; ring).
    split; [|split; [exact Hb|]].
    + split; [exact Hva|]. split; [exact Hfa|]. rewrite Hta.
      exact (rounding_nonneg _ _ Hra).
    + now rewrite Hta, Hvb.
Qed.

(** Twice the rounded difference of two doubles is not below their
    difference. *)
Lemma twice_sub_above (x y : float) :
  nonneg x -> nonneg y -> (to_Q y <= to_Q x)%Q ->
  is_finite (mul (of_Z 2) (sub x y)) = true ->
  (to_Q x - to_Q y <= to_Q (mul (of_Z 2) (sub x y)))%Q.
Proof.
  intros Hx Hy Hle Hfin.
  destruct (mul_finite _ _ Hfin) as [_ Hfd].
  pose proof (sub_nonneg x y Hx Hy Hle Hfd) as Hd.
  destruct (of_Z_exact 2 ltac:(lia)) as [H2 H2q].
  change (inject_Z 2) with 2%Q in H2q.
  destruct (valid_grid x (proj1 Hx)) as [zx Hzx].
  destruct (valid_grid y (proj1 Hy)) as [zy Hzy].
  destruct (valid_grid (sub x y) (proj1 Hd)) as [zd Hzd].
  assert (Hlow : ((3 # 4) * (to_Q x - to_Q y) <= to_Q (sub x y))%Q).
  { destruct (sub_nonneg_spec x y Hx Hy Hle) as [(Hq & _ & Hv & _)|(Hq & Hr)].
    - rewrite Hv. lra.
    - destruct (rounds_to_finite _ _ Hr Hfd) as (r & Hr' & _ & Hv).
      rewrite Hv. apply (rounding_grid_lower _ _ (zx - zy) Hr').
      unfold Z.sub. rewrite inject_Z_plus, inject_Z_opp, Hzx, Hzy. ring. }
  destruct (mul_nonneg_spec _ _ H2 Hd) as [(Hq & _ & Hv & _)|(Hq & Hr)].
  - rewrite Hv. rewrite H2q in Hq. lra.
  - destruct (rounds_to_finite _ _ Hr Hfin) as (r & Hr' & _ & Hv).
    rewrite Hv.
    assert (Hr2 : ((3 # 4) * (to_Q (of_Z 2) * to_Q (sub x y)) <= r)%Q).
    { apply (rounding_grid_lower _ _ (2 * zd) Hr').
      rewrite H2q, Hzd, inject_Z_mult. change (inject_Z 2) with 2%Q. ring. }
    rewrite H2q in Hr2. lra.
Qed.

End Sums.

(** ** Integer conversion and slicing lemmas *)

Lemma truncate_nonneg_floor (x : Q) : (0 <= x)%Q -> F64.truncate x = Qfloor x.
Proof.
  intros Hx. unfold F64.truncate, Qfloor. destruct x as [n d]; simpl.
  apply Z.quot_div_nonneg; [|lia].
  unfold Qle in Hx; simpl in Hx. lia.
Qed.

Lemma truncate_nonpos (x : Q) : (x <= 0)%Q -> F64.truncate x = - Qfloor (- x).
Proof.
  intros Hx. unfold F64.truncate, Qfloor. destruct x as [n d]; simpl.
  unfold Qle in Hx; simpl in Hx.
  rewrite <- (Z.opp_involutive n) at 1.
  rewrite Z.quot_opp_l by lia. f_equal.
  apply Z.quot_div_nonneg; lia.
Qed.

Lemma int_finite (x : F64.float) :
  F64.is_finite x = true -> Py.int x = Ok (F64.truncate (F64.to_Q x)).
Proof. destruct x; try discriminate; reflexivity. Qed.

Lemma int_ok (x : F64.float) (k : Z) :
  Py.int x = Ok k ->
  F64.is_finite x = true /\ k = F64.truncate (F64.to_Q x).
Proof. destruct x; try discriminate; intros [= <-]; split; reflexivity. Qed.

Lemma int_nonneg_floor (x : F64.float) :
  F64.is_finite x = true -> (0 <= F64.to_Q x)%Q ->
  Py.int x = Ok (Qfloor (F64.to_Q x)).
Proof.
  intros Hfin Hx. rewrite (int_finite x Hfin).
  now rewrite truncate_nonneg_floor.
Qed.

Lemma slice_to_nonneg {A} (k : Z) (l : list A) :
  0 <= k -> Py.slice_to k l = take (Z.to_nat k) l.
Proof.
  intros Hk. unfold Py.slice_to.
  destruct (Z.ltb_spec k 0); [lia|reflexivity].
Qed.

Lemma take_prefix_le {A} (m n : nat) (l : list A) :
  (m <= n)%nat -> take m l `prefix_of` take n l.
Proof.
  intros Hmn. replace m with (Nat.min m n) by lia.
  rewrite <- take_take. apply prefix_take.
Qed.

(** ** The ablation sweep of the driver *)

Section AblationSweep.
Import Driver.

Lemma in_order_sorted (scores : list Q) (o : order) (l : list nat) :
  StronglySorted (in_order scores o)
                 (Py.sorted (score_at scores) (is_decreasing o) l).
Proof.
  destruct o; simpl.
  - apply (sorted_increasing (score_at scores)).
  - apply (sorted_decreasing (score_at scores)).
Qed.

Lemma indices_ok (captions : list string) (scores : list Q) (o : order) :
  length scores = length captions ->
  indices captions scores o
  = Ok (Py.sorted (score_at scores) (is_decreasing o)
                  (Py.range (length captions))).
Proof.
  intros Hlen. unfold indices.
  destruct (Nat.ltb_spec (length scores) (length captions)); [lia|reflexivity].
Qed.

Lemma mul_infinity_not_finite (x : F64.float) (s : bool) :
  F64.is_finite (F64.mul x (S754_infinity s)) = false.
Proof. destruct x; reflexivity. Qed.

(** When the slice at a fraction that is not negative returns, the
    length of the list converted to a double and the product are finite
    numbers that are not negative, and the slice takes the integer part
    of the product from the front. *)
Lemma ablated_nonneg (idx l : list nat) (f : F64.float) :
  F64.nonneg f -> ablated idx f = Ok l ->
  let product := F64.mul f (F64.of_Z (Z.of_nat (length idx))) in
  F64.nonneg (F64.of_Z (Z.of_nat (length idx))) /\
  F64.nonneg product /\
  l = take (Z.to_nat (Qfloor (F64.to_Q product))) idx.
Proof.
  intros Hf. unfold ablated. cbv zeta.
  destruct (Py.int _) as [k|e] eqn:Hint; [|discriminate]. simpl.
  intros [= <-]. apply int_ok in Hint as [Hfin ->].
  assert (Hn : F64.nonneg (F64.of_Z (Z.of_nat (length idx)))).
  { destruct (of_Z_shape (Z.of_nat (length idx)) ltac:(lia)) as [H|H];
      [exact H|].
    rewrite H, mul_infinity_not_finite in Hfin. discriminate Hfin. }
  pose proof (mul_nonneg _ _ Hf Hn Hfin) as Hp.
  split; [exact Hn|]. split; [exact Hp|].
  destruct Hp as (_ & _ & Hp).
  rewrite truncate_nonneg_floor by exact Hp.
  apply slice_to_nonneg. change 0 with (Qfloor 0). now apply Qfloor_resp_le.
Qed.

Lemma ablated_finite_product (idx : list nat) (f : F64.float) :
  F64.nonneg (F64.mul f (F64.of_Z (Z.of_nat (length idx)))) ->
  ablated idx f
  = Ok (take (Z.to_nat (Qfloor (F64.to_Q
                                  (F64.mul f (F64.of_Z (Z.of_nat (length idx)))))))
             idx).
Proof.
  intros (_ & Hfin & Hp). unfold ablated.
  rewrite (int_nonneg_floor _ Hfin Hp). simpl. f_equal.
  apply slice_to_nonneg. change 0 with (Qfloor 0). now apply Qfloor_resp_le.
Qed.

Lemma traverse_length {A B} (f : A -> result B) (l : list A) (l' : list B) :
  traverse f l = Ok l' -> length l' = length l.
Proof.
  revert l'. induction l as [|x l IH]; intros l'; simpl.
  - now intros [= <-].
  - destruct (f x) as [y|e]; [|discriminate].
    destruct (traverse f l) as [ys|e]; [|discriminate].
    intros [= <-]. simpl. f_equal. now apply IH.
Qed.

(** Every branch of the driver gives one score per caption. *)
Lemma scores_length (nlp : string -> list token)
    (similarity : list token -> list token -> Q) (vector : token -> list Q)
    (rand : nat -> nat -> Q) (e : experiment) (trial : nat)
    (captions : list string) (scs : list Q) :
  scores nlp similarity vector rand e trial captions = Ok scs ->
  length scs = length captions.
Proof.
  unfold scores.
  destruct (GROUPS_BY_EXPERIMENT e) eqn:Hgroup.
  - intros [= <-]. now rewrite length_map, length_seq.
  - intros [= <-]. now rewrite !length_map.
  - destruct (pos_of e) as [pos|err]; [|discriminate].
    intros [= <-]. now rewrite !length_map.
  - destruct e; try discriminate Hgroup.
    + intros [= <-]. now rewrite !length_map.
    + intros H. apply traverse_length in H. now rewrite H, length_map.
    + unfold parse_depth_scores. intros H. apply traverse_length in H.
      now rewrite H, length_map.
Qed.

(** C1, for fractions that are not negative: in every experiment, trial
    and order, the ablated units are the first [k] entries of the list
    of the [N] unit indices sorted by score, in decreasing score order
    for [ORDER_DECREASING] and in increasing score order for
    [ORDER_INCREASING], where [N] is the number of captions and [k] is
    the integer part of the double product [f * N]: [floor(f * N)], or
    one more when the exact product lies so close below an integer
    that the product of doubles rounds up to it ([N] and the product
    being below [2 ^ 53]). *)
Theorem ablated_is_sorted_prefix
    (nlp : string -> list token)
    (similarity : list token -> list token -> Q) (vector : token -> list Q)
    (rand : nat -> nat -> Q) (e : experiment) (trial : nat)
    (captions : list string) (scs : list Q) (o : order) (f : F64.float) :
  scores nlp similarity vector rand e trial captions = Ok scs ->
  F64.nonneg f ->
  Z.of_nat (length captions) < 2 ^ 53 ->
  (F64.to_Q f * inject_Z (Z.of_nat (length captions)) < 2 ^ 53)%Q ->
  exists (idx : list nat) (k : Z),
    indices captions scs o = Ok idx /\
    Permutation idx (Py.range (length captions)) /\
    StronglySorted (in_order scs o) idx /\
    Py.int (F64.mul f (F64.of_Z (Z.of_nat (length captions)))) = Ok k /\
    ablated idx f = Ok (take (Z.to_nat k) idx) /\
    Qfloor (F64.to_Q f * inject_Z (Z.of_nat (length captions))) <= k
    <= Qceiling (F64.to_Q f * inject_Z (Z.of_nat (length captions))).
Proof.
  intros Hscores Hf HN Hq. apply scores_length in Hscores.
  set (N := Z.of_nat (length captions)) in *.
  destruct (of_Z_exact N ltac:(lia)) as [HnN HvN].
  assert (Hq' : (F64.to_Q f * F64.to_Q (F64.of_Z N) < 2 ^ 53)%Q)
    by now rewrite HvN.
  set (product := F64.mul f (F64.of_Z N)).
  pose proof (mul_int_bounds f (F64.of_Z N)
                (Qfloor (F64.to_Q f * inject_Z N)) Hf HnN Hq') as (Hfin & Hlo & _).
  pose proof (mul_int_bounds f (F64.of_Z N)
                (Qceiling (F64.to_Q f * inject_Z N)) Hf HnN Hq') as (_ & _ & Hhi).
  fold product in Hfin, Hlo, Hhi. rewrite HvN in Hlo, Hhi.
  specialize (Hlo (Qfloor_le _)). specialize (Hhi (Qle_ceiling _)).
  pose proof (mul_nonneg _ _ Hf HnN Hfin) as Hp. fold product in Hp.
  assert (Hlen : length (Py.sorted (score_at scs) (is_decreasing o)
                                   (Py.range (length captions)))
                 = length captions).
  { rewrite (Permutation_length (sorted_perm _ _ _)).
    unfold Py.range. now rewrite length_seq. }
  exists (Py.sorted (score_at scs) (is_decreasing o) (Py.range (length captions))),
         (Qfloor (F64.to_Q product)).
  split; [now apply indices_ok|].
  split; [apply sorted_perm|]. split; [apply in_order_sorted|].
  split; [|split].
  - destruct Hp as (_ & _ & Hp). now apply int_nonneg_floor.
  - pose proof (ablated_finite_product
                  (Py.sorted (score_at scs) (is_decreasing o)
                             (Py.range (length captions))) f) as Hab.
    rewrite Hlen in Hab. apply Hab. exact Hp.
  - split.
    + apply Qfloor_resp_le in Hlo. now rewrite Qfloor_Z in Hlo.
    + apply Qfloor_resp_le in Hhi. now rewrite Qfloor_Z in Hhi.
Qed.

Lemma ablated_prefix (idx lg : list nat) (f g : F64.float) :
  F64.nonneg f -> F64.nonneg g -> (F64.to_Q f <= F64.to_Q g)%Q ->
  ablated idx g = Ok lg ->
  exists lf, ablated idx f = Ok lf /\ lf `prefix_of` lg.
Proof.
  intros Hf Hg Hfg Hlg.
  destruct (ablated_nonneg idx lg g Hg Hlg) as (Hn & (_ & Hfin & _) & ->).
  destruct (mul_mono f g _ Hf Hg Hn Hfg Hfin) as (Hfinf & Hpf & Hle).
  assert (Hnf : F64.nonneg (F64.mul f (F64.of_Z (Z.of_nat (length idx)))))
    by now apply mul_nonneg.
  eexists. split; [now apply ablated_finite_product|].
  apply take_prefix_le, Z2Nat.inj_le.
  - change 0 with (Qfloor 0). now apply Qfloor_resp_le.
  - change 0 with (Qfloor 0). apply Qfloor_resp_le. eapply Qle_trans; eassumption.
  - now apply Qfloor_resp_le.
Qed.

(** C2, for fractions that are not negative: when the slice at a
    fraction returns, the slice at any smaller fraction returns too, and
    its list is a prefix of the list at the larger fraction, so every
    unit ablated at the smaller fraction is ablated at the larger one.
    The fractions are doubles, and the product [fraction * N] is
    rounded before [int] truncates it. *)
Theorem ablated_nested (idx lg : list nat) (f g : F64.float) :
  F64.nonneg f -> F64.nonneg g -> (F64.to_Q f <= F64.to_Q g)%Q ->
  ablated idx g = Ok lg ->
  exists lf,
    ablated idx f = Ok lf /\
    lf `prefix_of` lg /\
    (forall unit, In unit lf -> In unit lg).
Proof.
  intros Hf Hg Hfg Hlg.
  destruct (ablated_prefix idx lg f g Hf Hg Hfg Hlg) as (lf & Hlf & Hpre).
  exists lf. split; [exact Hlf|]. split; [exact Hpre|].
  intros u Hu. destruct Hpre as [k ->]. apply in_or_app. now left.
Qed.

(** The entries of a range that starts at a double that is not
    negative, with a step that is not negative, go upward: when an
    entry is a finite number, so are the entries before it, and none of
    them is above it. *)
Lemma fill_upward (start step : F64.float) (i j : nat) :
  F64.nonneg start -> F64.nonneg step -> (i <= j)%nat ->
  F64.is_finite (Py.fill start (F64.add start step) j) = true ->
  F64.nonneg (Py.fill start (F64.add start step) i) /\
  F64.nonneg (Py.fill start (F64.add start step) j) /\
  (F64.to_Q (Py.fill start (F64.add start step) i)
   <= F64.to_Q (Py.fill start (F64.add start step) j))%Q.
Proof.
  intros Hstart Hstep Hij Hfin.
  set (next := F64.add start step) in *.
  assert (Hnext : F64.is_finite next = true ->
                  F64.nonneg next /\ (F64.to_Q start <= F64.to_Q next)%Q).
  { intros Hf. split; [now apply add_nonneg|].
    apply add_above_double; try assumption.
    destruct Hstep as (_ & _ & Hstep). lra. }
  destruct j as [|[|j]].
  - replace i with 0%nat by lia. cbn [Py.fill].
    split; [exact Hstart|]. split; [exact Hstart|apply Qle_refl].
  - cbn [Py.fill] in *. destruct (Hnext Hfin) as [Hn Hle].
    destruct i as [|[|i]]; [| |lia]; cbn [Py.fill].
    + split; [exact Hstart|]. split; [exact Hn|exact Hle].
    + split; [exact Hn|]. split; [exact Hn|apply Qle_refl].
  - set (delta := F64.sub next start).
    assert (Hentry : forall k : nat,
               Py.fill start next (S (S k))
               = F64.add start (F64.mul (F64.of_Z (Z.of_nat (S (S k)))) delta))
      by reflexivity.
    rewrite Hentry in *.
    set (n := Z.of_nat (S (S j))) in *.
    destruct (add_finite _ _ Hfin) as [_ Hfw].
    destruct (mul_finite _ _ Hfw) as [Hfn Hfd].
    destruct (sub_finite _ _ Hfd) as [Hfnext _].
    destruct (Hnext Hfnext) as [Hn Hle].
    pose proof (sub_nonneg next start Hn Hstart Hle Hfd) as Hd. fold delta in Hd.
    destruct (of_Z_mono 2 n ltac:(lia) Hfn) as (H2 & Hnn & H2n).
    pose proof (mul_nonneg _ _ Hnn Hd Hfw) as Hw.
    pose proof (add_nonneg _ _ Hstart Hw Hfin) as He.
    destruct i as [|[|i]]; [cbn [Py.fill]|cbn [Py.fill]|].
    + split; [exact Hstart|]. split; [exact He|].
      apply add_above_double; try assumption.
      destruct Hw as (_ & _ & Hw). lra.
    + split; [exact Hn|]. split; [exact He|].
      apply add_above_double; try assumption.
      destruct (mul_mono _ _ _ H2 Hnn Hd H2n Hfw) as (Hf2 & _ & Hw2).
      pose proof (twice_sub_above next start Hn Hstart Hle Hf2) as Htw.
      fold delta in Htw. lra.
    + rewrite Hentry.
      destruct (of_Z_mono (Z.of_nat (S (S i))) n ltac:(lia) Hfn) as (Hi & _ & Hin).
      destruct (mul_mono _ _ _ Hi Hnn Hd Hin Hfw) as (Hfi & _ & Hwi).
      pose proof (mul_nonneg _ _ Hi Hd Hfi) as Hwi'.
      destruct (add_mono start _ _ Hstart Hwi' Hw Hwi Hfin) as (Hfe & Hei).
      split; [now apply add_nonneg|]. split; [exact He|exact Hei].
Qed.

Lemma arange_lookup (start stop step : F64.float) (fs : list F64.float)
    (i : nat) (f : F64.float) :
  Py.arange start stop step = Ok fs -> fs !! i = Some f ->
  f = Py.fill start (F64.add start step) i.
Proof.
  unfold Py.arange. destruct (F64.is_zero step); [discriminate|].
  destruct (if _ : bool then _ else _) as [len|e]; [|discriminate].
  cbn. intros [= <-] Hi.
  change (List.map ?g ?l) with (g <$> l) in Hi.
  rewrite list_lookup_fmap in Hi.
  destruct (seq 0 _ !! i) as [i'|] eqn:Hi'; [|discriminate].
  apply lookup_seq in Hi' as [-> _]. simpl in Hi. now injection Hi as <-.
Qed.

Lemma traverse_lookup {A B} (f : A -> result B) (l : list A) (l' : list B)
    (i : nat) (y : B) :
  traverse f l = Ok l' -> l' !! i = Some y ->
  exists x, l !! i = Some x /\ f x = Ok y.
Proof.
  revert l' i. induction l as [|x l IH]; intros l' i; simpl.
  - intros [= <-] Hi. discriminate Hi.
  - destruct (f x) as [y'|e] eqn:Hx; [|discriminate].
    destruct (traverse f l) as [ys|e]; [|discriminate].
    intros [= <-] Hi. destruct i as [|i]; simpl in *.
    + injection Hi as <-. eauto.
    + now apply (IH ys).
Qed.

(** A slice that returns was taken at a fraction that is a finite
    number. *)
Lemma ablated_finite (idx l : list nat) (f : F64.float) :
  ablated idx f = Ok l -> F64.is_finite f = true.
Proof.
  unfold ablated. destruct (Py.int _) as [k|e] eqn:Hint; [|discriminate].
  intros _. apply int_ok in Hint as [Hfin _].
  now apply mul_finite in Hfin as [Hf _].
Qed.

(** A sweep that starts at a fraction that is not negative with a step
    that is not negative, as the default one does (0, 0.02, ...),
    visits fractions that are not negative, in increasing order. *)
Lemma fractions_upward (a : args) (fs : list F64.float) (i j : nat)
    (fi fj : F64.float) :
  F64.nonneg (ablation_min a) -> F64.nonneg (ablation_step_size a) ->
  fractions a = Ok fs ->
  (i <= j)%nat -> fs !! i = Some fi -> fs !! j = Some fj ->
  F64.is_finite fj = true ->
  F64.nonneg fi /\ F64.nonneg fj /\ (F64.to_Q fi <= F64.to_Q fj)%Q.
Proof.
  intros Hmin Hstep Hfs Hij Hi Hj Hfin.
  rewrite (arange_lookup _ _ _ _ _ _ Hfs Hi).
  rewrite (arange_lookup _ _ _ _ _ _ Hfs Hj) in *.
  now apply fill_upward.
Qed.

(** X10: over such a sweep the ablated lists only grow: whenever the loop
    runs to its end, the list of an earlier turn is a prefix of the
    list of every later turn.  The fractions are the doubles that
    [numpy.arange] computes. *)
Theorem ablation_sweep_grows (a : args) (captions : list string)
    (scores : list Q) (o : order) (lists : list (list nat)) :
  F64.nonneg (ablation_min a) -> F64.nonneg (ablation_step_size a) ->
  ablation_sweep a captions scores o = Ok lists ->
  forall i j li lj, (i <= j)%nat -> lists !! i = Some li -> lists !! j = Some lj ->
                    li `prefix_of` lj.
Proof.
  intros Hmin Hstep. unfold ablation_sweep.
  destruct (indices captions scores o) as [idx|e]; [|discriminate]. cbn.
  destruct (fractions a) as [fs|e] eqn:Hfs; [|discriminate]. cbn.
  intros Hlists i j li lj Hij Hi Hj.
  destruct (traverse_lookup _ _ _ _ _ Hlists Hi) as (fi & Hfi & Hli).
  destruct (traverse_lookup _ _ _ _ _ Hlists Hj) as (fj & Hfj & Hlj).
  destruct (fractions_upward a fs i j fi fj Hmin Hstep Hfs Hij Hfi Hfj
              (ablated_finite _ _ _ Hlj)) as (Hni & Hnj & Hle).
  destruct (ablated_prefix idx lj fi fj Hni Hnj Hle Hlj) as (lf & Hlf & Hpre).
  rewrite Hli in Hlf. now injection Hlf as <-.
Qed.

End AblationSweep.

Section AblationSweepExamples.
Import Driver Examples SweepExamples.

Example scores_caption_length :
  scores nlp similarity vector rand EXPERIMENT_CAPTION_LENGTH 0 captions3
  = Ok scores3.
Proof. reflexivity. Qed.

(** The doubles written [1/3] and [2/3] are finite and not negative. *)
Lemma third_nonneg : F64.nonneg (F64.of_Q (1 # 3)).
Proof.
  split; [reflexivity|]. split; [reflexivity|].
  vm_compute. intros H. discriminate H.
Defined.

Lemma two_thirds_nonneg : F64.nonneg (F64.of_Q (2 # 3)).
Proof.
  split; [reflexivity|]. split; [reflexivity|].
  vm_compute. intros H. discriminate H.
Defined.

Lemma ablated_is_sorted_prefix_witness :
  exists (idx : list nat) (k : Z),
    indices captions3 scores3 ORDER_DECREASING = Ok idx /\
    Permutation idx (Py.range (length captions3)) /\
    StronglySorted (in_order scores3 ORDER_DECREASING) idx /\
    Py.int (F64.mul (F64.of_Q (2 # 3)) (F64.of_Z (Z.of_nat (length captions3))))
    = Ok k /\
    ablated idx (F64.of_Q (2 # 3)) = Ok (take (Z.to_nat k) idx) /\
    Qfloor (F64.to_Q (F64.of_Q (2 # 3)) * inject_Z (Z.of_nat (length captions3)))
    <= k
    <= Qceiling (F64.to_Q (F64.of_Q (2 # 3))
                 * inject_Z (Z.of_nat (length captions3))).
Proof.
  apply (ablated_is_sorted_prefix nlp similarity vector rand
           EXPERIMENT_CAPTION_LENGTH 0).
  - reflexivity.
  - exact two_thirds_nonneg.
  - reflexivity.
  - reflexivity.
Defined.

Lemma ablated_nested_witness :
  exists lf,
    ablated [1; 0; 2]%nat (F64.of_Q (1 # 3)) = Ok lf /\
    lf `prefix_of` [1; 0]%nat /\
    (forall unit, In unit lf -> In unit [1; 0]%nat).
Proof.
  apply (ablated_nested [1; 0; 2]%nat [1; 0]%nat
           (F64.of_Q (1 # 3)) (F64.of_Q (2 # 3))).
  - exact third_nonneg.
  - exact two_thirds_nonneg.
  - vm_compute. intros H. discriminate H.
  - reflexivity.
Defined.

(** The product of doubles rounds before [int] truncates it: the
    double written [1/3] is below one third and the double written
    [0.3] is below three tenths, yet three times the one is the double
    1 and ten times the other the double 3; the double written [0.29]
    is below 29 hundredths, and a hundred times it stays below 29,
    where the floor of 0.29 times 100 is 29. *)
Example products_round :
  Py.int (F64.mul (F64.of_Q (1 # 3)) (F64.of_Z 3)) = Ok 1 /\
  Qfloor (F64.to_Q (F64.of_Q (1 # 3)) * 3) = 0 /\
  Py.int (F64.mul (F64.of_Q (3 # 10)) (F64.of_Z 10)) = Ok 3 /\
  Qfloor (F64.to_Q (F64.of_Q (3 # 10)) * 10) = 2 /\
  Py.int (F64.mul (F64.of_Q (29 # 100)) (F64.of_Z 100)) = Ok 28 /\
  Qfloor (F64.to_Q (F64.of_Q (29 # 100)) * 100) = 28 /\
  Qfloor ((29 # 100) * 100) = 29.
Proof. repeat split; vm_compute; reflexivity. Qed.

(** The default sweep has ten fractions, the doubles written 0, 0.02,
    ..., 0.18; over a layer of 100 units it ablates 0, 2, ..., 18
    units. *)
Example sweep_default :
  fractions default_sweep
  = Ok (List.map F64.of_Q [0 # 1; 2 # 100; 4 # 100; 6 # 100; 8 # 100;
                           10 # 100; 12 # 100; 14 # 100; 16 # 100;
                           18 # 100]) /\
  (fs ← fractions default_sweep;
   lists ← traverse (ablated (Py.range 100)) fs;
   Ok (List.map length lists))
  = Ok [0; 2; 4; 6; 8; 10; 12; 14; 16; 18]%nat.
Proof. split; vm_compute; reflexivity. Qed.

Example sweep_negative :
  fractions negative_sweep = Ok [F64.of_Q (-1 # 2); F64.of_Z 0] /\
  indices captions3 scores3 ORDER_DECREASING = Ok [1; 0; 2]%nat /\
  ablation_sweep negative_sweep captions3 scores3 ORDER_DECREASING
  = Ok [[1; 0]; []]%nat.
Proof. repeat split; vm_compute; reflexivity. Qed.

Example sweep_thirds :
  fractions thirds_sweep
  = Ok [F64.of_Z 0; F64.of_Q (1 # 3); F64.of_Q (2 # 3)] /\
  ablation_sweep thirds_sweep captions3 scores3 ORDER_DECREASING
  = Ok [[]; [1]; [1; 0]]%nat.
Proof. repeat split; vm_compute; reflexivity. Qed.

(** The sweep [np.arange(0.1, 0.4, 0.1)] has four fractions, the last
    of which is the double written [0.4]: the quotient
    [(0.4 - 0.1) / 0.1] rounds to a double above 3. *)
Example sweep_reaches_max :
  Py.arange (F64.of_Q (1 # 10)) (F64.of_Q (4 # 10)) (F64.of_Q (1 # 10))
  = Ok [F64.of_Q (1 # 10); F64.of_Q (2 # 10);
        F64.add (F64.of_Q (1 # 10)) (F64.of_Q (2 # 10)); F64.of_Q (4 # 10)].
Proof. vm_compute. reflexivity. Qed.

(** C1 as stated fails in two ways.  On a sweep that starts below zero:
    with [--ablation-min -0.5 --ablation-step-size 0.5] and three
    captions, the first fraction is [-0.5], [int(-0.5 * 3)] is [-1] and
    [indices[:-1]] holds two units, while [floor(-0.5 * 3)] is [-2].
    And on fractions that are not negative: in the sweep
    [np.arange(0, 1, 1/3)] over those three captions the second
    fraction is the double written [1/3], which is below one third, so
    that [floor(f * 3)] is 0; the product of doubles rounds to 1 and
    one unit is ablated. *)
Lemma ablated_floor_prefix_fails :
  ~ (forall (e : experiment) (trial : nat) (a : args)
            (captions : list string) (scs : list Q)
            (o : order) (fs : list F64.float) (idx : list nat) (f : F64.float),
       scores nlp similarity vector rand e trial captions = Ok scs ->
       fractions a = Ok fs -> In f fs ->
       indices captions scs o = Ok idx ->
       ablated idx f
       = Ok (take (Z.to_nat (Qfloor (F64.to_Q f
                                     * inject_Z (Z.of_nat (length captions)))))
                  idx)) /\
  ~ (forall (e : experiment) (trial : nat) (a : args)
            (captions : list string) (scs : list Q)
            (o : order) (fs : list F64.float) (idx : list nat) (f : F64.float),
       scores nlp similarity vector rand e trial captions = Ok scs ->
       fractions a = Ok fs -> In f fs -> (0 <= F64.to_Q f)%Q ->
       indices captions scs o = Ok idx ->
       ablated idx f
       = Ok (take (Z.to_nat (Qfloor (F64.to_Q f
                                     * inject_Z (Z.of_nat (length captions)))))
                  idx)).
Proof.
  destruct sweep_negative as (Hneg & Hidx & _).
  destruct sweep_thirds as (Hthirds & _).
  split; intros H.
  - specialize (H EXPERIMENT_CAPTION_LENGTH 0%nat negative_sweep captions3 scores3
                  ORDER_DECREASING _ [1; 0; 2]%nat (F64.of_Q (-1 # 2))
                  eq_refl Hneg (or_introl eq_refl) Hidx).
    vm_compute in H. discriminate H.
  - assert (Hpos : (0 <= F64.to_Q (F64.of_Q (1 # 3)))%Q)
      by (vm_compute; intros H'; discriminate H').
    specialize (H EXPERIMENT_CAPTION_LENGTH 0%nat thirds_sweep captions3 scores3
                  ORDER_DECREASING _ [1; 0; 2]%nat (F64.of_Q (1 # 3))
                  eq_refl Hthirds (or_intror (or_introl eq_refl)) Hpos Hidx).
    vm_compute in H. discriminate H.
Qed.

Example ablated_below_zero_slice_reading :
  ablated [1; 0; 2]%nat (F64.of_Q (-1 # 2)) = Ok [1; 0]%nat /\
  Py.slice_to (Qfloor (F64.to_Q (F64.of_Q (-1 # 2)) * 3)) [1; 0; 2]%nat
  = [1]%nat.
Proof. split; vm_compute; reflexivity. Qed.

(** C2 as stated fails on the same sweep below zero: [-0.5 <= 0], the
    ablated list at [-0.5] holds two units and the ablated list at [0]
    is empty. *)
Lemma ablated_nested_fails_below_zero :
  ~ (forall (e : experiment) (trial : nat) (a : args)
            (captions : list string) (scs : list Q)
            (o : order) (fs : list F64.float) (idx lf lg : list nat)
            (f g : F64.float),
       scores nlp similarity vector rand e trial captions = Ok scs ->
       fractions a = Ok fs -> In f fs -> In g fs ->
       (F64.to_Q f <= F64.to_Q g)%Q ->
       indices captions scs o = Ok idx ->
       ablated idx f = Ok lf -> ablated idx g = Ok lg ->
       lf `prefix_of` lg).
Proof.
  intros H. destruct sweep_negative as (Hneg & Hidx & _).
  assert (Hfg : (F64.to_Q (F64.of_Q (-1 # 2)) <= F64.to_Q (F64.of_Z 0))%Q)
    by (vm_compute; intros H'; discriminate H').
  assert (Hf : ablated [1; 0; 2]%nat (F64.of_Q (-1 # 2)) = Ok [1; 0]%nat)
    by (vm_compute; reflexivity).
  assert (Hg : ablated [1; 0; 2]%nat (F64.of_Z 0) = Ok []) by reflexivity.
  specialize (H EXPERIMENT_CAPTION_LENGTH 0%nat negative_sweep captions3 scores3
                ORDER_DECREASING _ [1; 0; 2]%nat [1; 0]%nat []
                (F64.of_Q (-1 # 2)) (F64.of_Z 0)
                eq_refl Hneg (or_introl eq_refl)
                (or_intror (or_introl eq_refl)) Hfg Hidx Hf Hg).
  destruct H as [k Hk]. discriminate Hk.
Qed.
End AblationSweepExamples.

(** ** The parse-depth score *)

Section ParseDepth.
Import Driver.

Lemma height_children (t : token) :
  height t = foldr Nat.max 0%nat (List.map (fun c => S (height c)) (children t)).
Proof. destruct t; reflexivity. Qed.

Lemma reach_push (cs : list token) (depth : nat) (frontier : list (token * nat)) :
  reach (push_children cs depth frontier)
  = Nat.max (foldr Nat.max 0%nat (List.map (fun c => (depth + S (height c))%nat) cs))
            (reach frontier).
Proof.
  revert frontier. induction cs as [|c cs IH]; intros fr; simpl; [reflexivity|].
  rewrite IH. unfold reach. simpl. lia.
Qed.

Lemma max_shift (depth : nat) (cs : list token) :
  Nat.max depth (foldr Nat.max 0%nat
                   (List.map (fun c => (depth + S (height c))%nat) cs))
  = (depth + foldr Nat.max 0%nat (List.map (fun c => S (height c)) cs))%nat.
Proof. induction cs as [|c cs IH]; simpl; lia. Qed.

(** The loop returns the larger of [deepest] and the depth of the
    deepest token still reachable from the frontier. *)
Lemma search_reach (frontier : list (token * nat)) (deepest : nat) :
  search frontier deepest = Nat.max deepest (reach frontier).
Proof.
  funelim (search frontier deepest).
  - unfold reach. simpl. lia.
  - match goal with IH : search _ _ = Nat.max _ _ |- _ => rewrite IH end.
    rewrite reach_push.
    change (reach ((current, depth) :: rest))
      with (Nat.max (depth + height current) (reach rest)).
    rewrite (height_children current).
    pose proof (max_shift depth (children current)).
    destruct (Nat.ltb_spec deepest depth); lia.
Qed.

Lemma height_child (c : token) (cs : list token) :
  In c cs ->
  (S (height c) <= foldr Nat.max 0%nat (List.map (fun c => S (height c)) cs))%nat.
Proof.
  induction cs as [|c' cs IH]; simpl; [tauto|].
  intros [->|Hin]; [lia|]. specialize (IH Hin). lia.
Qed.

Lemma path_le_height (t : token) (n : nat) : path t n -> (n <= height t)%nat.
Proof.
  induction 1 as [t|t c n Hin _ IH]; [lia|].
  rewrite height_children. pose proof (height_child c _ Hin). lia.
Qed.

Lemma max_attained (cs : list token) :
  cs <> [] ->
  exists c, In c cs /\
    foldr Nat.max 0%nat (List.map (fun c => S (height c)) cs) = S (height c).
Proof.
  induction cs as [|c cs IH]; [congruence|]. intros _. simpl.
  destruct cs as [|c' cs'].
  - exists c. simpl. split; [now left|lia].
  - destruct IH as [d [Hd Heq]]; [discriminate|].
    destruct (Nat.le_ge_cases
                (foldr Nat.max 0%nat
                   (List.map (fun c => S (height c)) (c' :: cs')))
                (S (height c))) as [Hle|Hge].
    + exists c. split; [now left|lia].
    + exists d. split; [now right|]. rewrite <- Heq. lia.
Qed.

Lemma size_child (c : token) (cs : list token) :
  In c cs -> (size c <= sum_list (List.map size cs))%nat.
Proof.
  induction cs as [|c' cs IH]; simpl; [tauto|].
  intros [->|Hin]; [lia|]. specialize (IH Hin). lia.
Qed.

Lemma path_height (t : token) : path t (height t).
Proof.
  remember (size t) as k eqn:Hk.
  revert t Hk. induction k as [k IH] using lt_wf_ind. intros t Hk.
  destruct (children t) as [|c0 cs0] eqn:Hcs.
  - rewrite height_children, Hcs. constructor.
  - destruct (max_attained (children t)) as [c [Hin Heq]];
      [rewrite Hcs; discriminate|].
    rewrite height_children, Heq.
    apply path_down with (c := c); [exact Hin|].
    apply (IH (size c)); [|reflexivity].
    subst k. destruct t as [d p cs]. simpl in *.
    pose proof (size_child c cs Hin). lia.
Qed.

Lemma find_root_from (tokens : list token) (start : option token) :
  fold_left (fun root tok =>
               if String.eqb (dep_ tok) "ROOT" then Some tok else root)
            tokens start
  = match find_root tokens with Some r => Some r | None => start end.
Proof.
  unfold find_root. revert start.
  induction tokens as [|tok tokens IH]; intros start; simpl; [reflexivity|].
  rewrite IH. rewrite (IH (if String.eqb (dep_ tok) "ROOT" then Some tok else None)).
  destruct (fold_left _ tokens None); [reflexivity|].
  now destruct (String.eqb (dep_ tok) "ROOT").
Qed.

(** The root the driver keeps is the last token labelled [ROOT]. *)
Lemma find_root_last (before after : list token) (root : token) :
  dep_ root = "ROOT"%string ->
  Forall (fun tok => dep_ tok <> "ROOT"%string) after ->
  find_root (before ++ root :: after) = Some root.
Proof.
  intros Hroot Hafter. unfold find_root.
  rewrite fold_left_app. simpl. rewrite Hroot. simpl.
  clear Hroot. induction Hafter as [|tok after Htok _ IH]; simpl; [reflexivity|].
  apply String.eqb_neq in Htok. rewrite Htok. exact IH.
Qed.

Lemma find_root_none (tokens : list token) :
  Forall (fun tok => dep_ tok <> "ROOT"%string) tokens ->
  find_root tokens = None.
Proof.
  unfold find_root.
  induction 1 as [|tok tokens Htok _ IH]; simpl; [reflexivity|].
  apply String.eqb_neq in Htok. rewrite Htok. exact IH.
Qed.

Lemma no_root_filter (tokens : list token) :
  Forall (fun tok => dep_ tok <> "ROOT"%string) tokens ->
  List.filter (fun tok => String.eqb (dep_ tok) "ROOT") tokens = [].
Proof.
  induction 1 as [|tok tokens Htok _ IH]; simpl; [reflexivity|].
  apply String.eqb_neq in Htok. rewrite Htok. exact IH.
Qed.

(** C7, for every caption: a caption without a token labelled [ROOT]
    fails the assertion; otherwise the parse-depth score is the number
    of edges on the longest downward path from the last token labelled
    [ROOT], 0 when that token has no children; with a single [ROOT]
    token this is the maximum depth of the parse. *)
Theorem parse_depth_longest_path (tokens : list token) :
  (Forall (fun tok => dep_ tok <> "ROOT"%string) tokens ->
   parse_depth tokens = Raise AssertionError) /\
  (forall (before after : list token) (root : token),
     tokens = before ++ root :: after ->
     dep_ root = "ROOT"%string ->
     Forall (fun tok => dep_ tok <> "ROOT"%string) after ->
     exists score : nat,
       parse_depth tokens = Ok score /\
       path root score /\
       (forall n, path root n -> (n <= score)%nat) /\
       score = height root /\
       (children root = [] -> score = 0%nat) /\
       (Forall (fun tok => dep_ tok <> "ROOT"%string) before ->
        score = max_depth tokens)).
Proof.
  split.
  - intros Hnone. unfold parse_depth. now rewrite find_root_none.
  - intros before after root -> Hroot Hafter. exists (height root).
    unfold parse_depth. rewrite (find_root_last _ _ _ Hroot Hafter).
    rewrite search_reach. unfold reach. simpl.
    split; [f_equal; lia|].
    split; [apply path_height|].
    split; [apply path_le_height|].
    split; [reflexivity|].
    split; [intros Hcs; now rewrite height_children, Hcs|].
    intros Hbefore. unfold max_depth.
    rewrite List.filter_app, (no_root_filter _ Hbefore). cbn [List.filter app].
    rewrite Hroot, (no_root_filter _ Hafter). simpl. lia.
Qed.
End ParseDepth.

Section ParseDepthExamples.
Import Driver ParseExamples.

Lemma parse_depth_longest_path_witness :
  parse_depth [a_; the_] = Raise AssertionError /\
  exists score : nat,
    parse_depth [a_; dog; on_; the_; grass] = Ok score /\
    path dog score /\
    (forall n, path dog n -> (n <= score)%nat) /\
    score = height dog /\
    (children dog = [] -> score = 0%nat) /\
    (Forall (fun tok => dep_ tok <> "ROOT"%string) [a_] ->
     score = max_depth [a_; dog; on_; the_; grass]).
Proof.
  split.
  - apply (parse_depth_longest_path [a_; the_]).
    repeat constructor; discriminate.
  - apply (proj2 (parse_depth_longest_path [a_; dog; on_; the_; grass])
             [a_] [on_; the_; grass] dog); [reflexivity|reflexivity|].
    repeat constructor; discriminate.
Defined.

Example parse_depth_dog :
  parse_depth [a_; dog; on_; the_; grass] = Ok 3%nat.
Proof. reflexivity. Qed.

Example parse_depth_no_root : parse_depth [a_; the_] = Raise AssertionError.
Proof. reflexivity. Qed.

(** C7 as stated fails on a caption of two sentences, whose parse has
    two tokens labelled [ROOT]: the driver keeps the last one, [sky],
    which has no children, and scores the caption 0, while the tree of
    the first sentence has depth 3.  It also fails on a caption without
    a [ROOT] token, such as the empty caption that a trailing line feed
    in [captions.txt] gives: the driver stops with [AssertionError]. *)
Lemma parse_depth_not_max_depth :
  ~ (forall tokens : list token,
       parse_depth tokens = Ok (max_depth tokens)) /\
  parse_depth two_sentences = Ok 0%nat /\
  max_depth two_sentences = 3%nat /\
  parse_depth [] = Raise AssertionError.
Proof.
  assert (H2 : parse_depth two_sentences = Ok 0%nat) by reflexivity.
  assert (H3 : max_depth two_sentences = 3%nat) by reflexivity.
  split; [|split; [exact H2|split; [exact H3|reflexivity]]].
  intros H. specialize (H two_sentences). rewrite H2, H3 in H.
  discriminate H.
Qed.
End ParseDepthExamples.

(** ** Accuracy and class-wise accuracies *)

Section Accuracy.
Import Classifiers.
Context {act : Type} (zero : act) (argmax : list act -> Z).

Local Abbreviation sample := (@Classifiers.sample act).
Local Abbreviation Model := (@Classifiers.Model act).

Lemma filter_length_map {A B} (f : B -> bool) (g : A -> B) (l : list A) :
  length (List.filter f (List.map g l))
  = length (List.filter (fun x => f (g x)) l).
Proof.
  induction l as [|x l IH]; simpl; [reflexivity|].
  destruct (f (g x)); simpl; now rewrite IH.
Qed.

Lemma filter_length_le {A} (f : A -> bool) (l : list A) :
  (length (List.filter f l) <= length l)%nat.
Proof.
  induction l as [|x l IH]; simpl; [lia|]. destruct (f x); simpl; lia.
Qed.

Lemma sum_matches (predictions targets : list Z) :
  length predictions = length targets ->
  Torch.sum (zip_with Z.eqb predictions targets)
  = matches predictions targets (length targets).
Proof.
  unfold Torch.sum, matches. intros Hlen. f_equal.
  revert targets Hlen.
  induction predictions as [|p ps IH]; intros [|t ts] Hlen;
    simpl in *; try discriminate; [reflexivity|].
  rewrite <- seq_shift.
  change (agree (p :: ps) (t :: ts) 0) with (p =? t).
  assert (Htail : length (List.filter (agree (p :: ps) (t :: ts))
                                      (List.map S (seq 0 (length ts))))
                  = length (List.filter (agree ps ts) (seq 0 (length ts))))
    by (rewrite filter_length_map; reflexivity).
  specialize (IH ts ltac:(lia)).
  destruct (p =? t); simpl; lia.
Qed.

Lemma matches_bounds (predictions targets : list Z) (n : nat) :
  0 <= matches predictions targets n <= Z.of_nat n.
Proof.
  unfold matches.
  pose proof (filter_length_le (agree predictions targets) (seq 0 n)) as H.
  rewrite length_seq in H. lia.
Qed.

Lemma eq_same_length (predictions targets : list Z) :
  length predictions = length targets ->
  Torch.eq predictions targets = Ok (zip_with Z.eqb predictions targets).
Proof.
  intros Hlen. unfold Torch.eq. now rewrite Hlen, Nat.eqb_refl.
Qed.

Lemma accuracy_precomputed (model : Model) (dataset : list sample)
    (predictions : list Z) (batch_size : nat) (ablate : option (list Unit)) :
  (1 <= length dataset)%nat ->
  length predictions = length dataset ->
  accuracy zero argmax model dataset (Some predictions) batch_size ablate
  = Ok (inject_Z (matches predictions (targets_of dataset) (length dataset))
        / inject_Z (Z.of_nat (length dataset)))%Q.
Proof.
  intros Hn Hlen. unfold accuracy. simpl.
  assert (Hlt : length predictions = length (targets_of dataset))
    by (unfold targets_of; now rewrite length_map).
  rewrite (eq_same_length _ _ Hlt). simpl.
  rewrite (sum_matches _ _ Hlt).
  unfold targets_of at 2. rewrite length_map.
  unfold true_div. destruct (Z.eqb_spec (Z.of_nat (length dataset)) 0); [lia|].
  reflexivity.
Qed.

Lemma ratio_bounds (m n : Z) :
  0 <= m <= n -> 1 <= n ->
  (0 <= inject_Z m / inject_Z n)%Q /\ (inject_Z m / inject_Z n <= 1)%Q.
Proof.
  intros Hm Hn.
  assert (Hpos : (0 < inject_Z n)%Q).
  { change 0%Q with (inject_Z 0). rewrite <- Zlt_Qlt. lia. }
  split.
  - apply Qle_shift_div_l; [exact Hpos|]. rewrite Qmult_0_l.
    change 0%Q with (inject_Z 0). rewrite <- Zle_Qle. lia.
  - apply Qle_shift_div_r; [exact Hpos|]. rewrite Qmult_1_l.
    rewrite <- Zle_Qle. lia.
Qed.

(** C3: on a dataset of size [n >= 1] and precomputed predictions of
    length [n], [accuracy] returns the number of indices at which
    prediction and target label agree, divided by [n], a number
    between 0 and 1. *)
Theorem accuracy_fraction_of_matches (model : Model) (dataset : list sample)
    (predictions : list Z) (batch_size : nat) (ablate : option (list Unit)) :
  (1 <= length dataset)%nat ->
  length predictions = length dataset ->
  exists a : Q,
    accuracy zero argmax model dataset (Some predictions) batch_size ablate
    = Ok a /\
    a = (inject_Z (matches predictions (targets_of dataset) (length dataset))
         / inject_Z (Z.of_nat (length dataset)))%Q /\
    (0 <= a)%Q /\ (a <= 1)%Q.
Proof.
  intros Hn Hlen. eexists. split; [now apply accuracy_precomputed|].
  split; [reflexivity|].
  apply ratio_bounds; [apply matches_bounds|lia].
Qed.

(** *** The counting loop of [accuracies] *)

Lemma count_step (c0 t0 : gmap Z Z) (p tg : Z) :
  count (c0, t0) (p, tg)
  = (<[tg := default 0 (c0 !! tg) + (if p =? tg then 1 else 0)]> c0,
     <[tg := default 0 (t0 !! tg) + 1]> t0).
Proof. reflexivity. Qed.

Lemma fold_count_dom (l : list (Z * Z)) (c0 t0 : gmap Z Z) :
  dom (fold_left count l (c0, t0)).1 = dom c0 ∪ list_to_set l.*2 /\
  dom (fold_left count l (c0, t0)).2 = dom t0 ∪ list_to_set l.*2.
Proof.
  revert c0 t0. induction l as [|[p tg] l IH]; intros c0 t0.
  - simpl. split; set_solver.
  - cbn [fold_left]. rewrite count_step.
    destruct (IH (<[tg := default 0 (c0 !! tg) + (if p =? tg then 1 else 0)]> c0)
                 (<[tg := default 0 (t0 !! tg) + 1]> t0)) as [Hc Ht].
    rewrite Hc, Ht, !dom_insert_L, fmap_cons. cbn [snd]. split; set_solver.
Qed.

Lemma fold_count_total (l : list (Z * Z)) (c0 t0 : gmap Z Z) (k : Z) :
  default 0 ((fold_left count l (c0, t0)).2 !! k)
  = default 0 (t0 !! k) + Z.of_nat (length (List.filter (Z.eqb k) l.*2)).
Proof.
  revert c0 t0. induction l as [|[p tg] l IH]; intros c0 t0.
  - simpl. lia.
  - cbn [fold_left]. rewrite count_step, IH, fmap_cons.
    cbn [List.filter snd].
    destruct (Z.eqb_spec k tg) as [->|Hne].
    + rewrite lookup_insert_eq. cbn [from_option length]. unfold id. lia.
    + rewrite lookup_insert_ne by congruence. lia.
Qed.

Lemma map_sum_insert_fresh (m : gmap Z Z) (k v : Z) :
  m !! k = None -> map_sum (<[k := v]> m) = v + map_sum m.
Proof.
  intros Hk. unfold map_sum.
  rewrite map_fold_insert_L; [reflexivity| |exact Hk].
  intros. lia.
Qed.

Lemma map_sum_bump (m : gmap Z Z) (k d : Z) :
  map_sum (<[k := default 0 (m !! k) + d]> m) = map_sum m + d.
Proof.
  destruct (m !! k) as [v|] eqn:Hk; simpl.
  - rewrite <- insert_delete_eq.
    rewrite map_sum_insert_fresh by apply lookup_delete_eq.
    rewrite <- (insert_delete_id m k v Hk) at 2.
    rewrite map_sum_insert_fresh by apply lookup_delete_eq. lia.
  - rewrite map_sum_insert_fresh by exact Hk. lia.
Qed.

Lemma fold_count_correct (l : list (Z * Z)) (c0 t0 : gmap Z Z) :
  map_sum (fold_left count l (c0, t0)).1
  = map_sum c0
    + Z.of_nat (length (List.filter (fun pt : Z * Z => pt.1 =? pt.2) l)).
Proof.
  revert c0 t0. induction l as [|[p tg] l IH]; intros c0 t0.
  - simpl. lia.
  - cbn [fold_left]. rewrite count_step, IH, map_sum_bump. simpl.
    destruct (p =? tg); simpl; lia.
Qed.

Lemma sum_zip (predictions targets : list Z) :
  Torch.sum (zip_with Z.eqb predictions targets)
  = Z.of_nat (length (List.filter (fun pt : Z * Z => pt.1 =? pt.2)
                                  (zip predictions targets))).
Proof.
  unfold Torch.sum. f_equal. revert targets.
  induction predictions as [|p ps IH]; intros [|t ts]; simpl; try reflexivity.
  destruct (p =? t); simpl; now rewrite IH.
Qed.

Lemma filter_eqb_pos (k : Z) (l : list Z) :
  k ∈ l -> (1 <= length (List.filter (Z.eqb k) l))%nat.
Proof.
  induction 1 as [k l|k y l _ IH]; simpl.
  - rewrite Z.eqb_refl. simpl. lia.
  - destruct (k =? y); simpl; lia.
Qed.

Lemma fold_count_correct_at (l : list (Z * Z)) (c0 t0 : gmap Z Z) (k : Z) :
  default 0 ((fold_left count l (c0, t0)).1 !! k)
  = default 0 (c0 !! k) + class_correct l k.
Proof.
  unfold class_correct. revert c0 t0.
  induction l as [|[p tg] l IH]; intros c0 t0.
  - simpl. lia.
  - cbn [fold_left]. rewrite count_step, IH.
    cbn [List.filter fst snd].
    destruct (Z.eqb_spec k tg) as [->|Hne].
    + rewrite lookup_insert_eq. cbn [from_option andb]. unfold id.
      destruct (p =? tg); cbn [length]; lia.
    + rewrite lookup_insert_ne by congruence. cbn [andb]. lia.
Qed.

Lemma class_correct_le_total (pairs : list (Z * Z)) (c : Z) :
  0 <= class_correct pairs c <= class_total pairs c.
Proof.
  unfold class_correct, class_total.
  induction pairs as [|[p t] pairs IH]; [simpl; lia|].
  rewrite fmap_cons. cbn [List.filter fst snd].
  destruct (c =? t); cbn [andb]; [destruct (p =? t)|]; cbn [length]; lia.
Qed.

Lemma accuracies_counted (model : Model) (dataset : list sample)
    (predictions : list Z) (batch_size : nat) (ablate : option (list Unit)) :
  exists correct total : gmap Z Z,
    accuracies zero argmax model dataset (Some predictions) batch_size ablate
    = Ok (map_imap (fun (target : Z) (c : Z) =>
                      Some (Qdiv (inject_Z c)
                                 (inject_Z (default 0 (total !! target)))))
                   correct) /\
    dom correct = list_to_set (zip predictions (targets_of dataset)).*2 /\
    (forall k, default 0 (total !! k)
               = class_total (zip predictions (targets_of dataset)) k) /\
    (forall k, default 0 (correct !! k)
               = class_correct (zip predictions (targets_of dataset)) k).
Proof.
  set (pairs := zip predictions (targets_of dataset)).
  pose proof (fold_count_dom pairs ∅ ∅) as [Hdc Hdt].
  pose proof (fold_count_total pairs ∅ ∅) as Htot.
  pose proof (fold_count_correct_at pairs ∅ ∅) as Hcor.
  rewrite !dom_empty_L, !(left_id_L ∅ (∪)) in *.
  unfold accuracies. simpl. fold pairs.
  destruct (fold_left count pairs (∅, ∅)) as [correct total] eqn:Hfold.
  simpl in Hdc, Hdt, Htot, Hcor.
  exists correct, total.
  rewrite bool_decide_eq_true_2 by congruence. simpl.
  rewrite bool_decide_eq_true_2; cycle 1.
  { intros k n Hkn Hz. subst n.
    assert (Hin : k ∈ pairs.*2).
    { rewrite <- (elem_of_list_to_set (C := gset Z)), <- Hdt.
      apply elem_of_dom. eauto. }
    pose proof (filter_eqb_pos k _ Hin).
    specialize (Htot k). rewrite Hkn, lookup_empty in Htot.
    simpl in Htot. lia. }
  simpl. split; [reflexivity|]. split; [exact Hdc|]. split.
  - intros k. rewrite Htot, lookup_empty. reflexivity.
  - intros k. rewrite Hcor, lookup_empty. reflexivity.
Qed.

Lemma accuracies_dom (total correct : gmap Z Z) :
  dom (map_imap (fun (target : Z) (c : Z) =>
                   Some (Qdiv (inject_Z c)
                              (inject_Z (default 0 (total !! target)))))
                correct)
  = dom correct.
Proof.
  apply dom_imap_L. intros k. rewrite elem_of_dom. split.
  - intros [v Hv]. exists v. split; [exact Hv|]. eauto.
  - intros [v [Hv _]]. eauto.
Qed.

(** The weighted sum of the per-class ratios is the sum of the
    per-class numerators when every class is weighted by its own
    denominator. *)
Lemma weighted_sum_ratios (dataset : list sample) (correct total : gmap Z Z) :
  (forall k v, correct !! k = Some v ->
               default 0 (total !! k) = class_count dataset k /\
               class_count dataset k <> 0) ->
  Qeq (weighted_sum dataset
         (map_imap (fun (target : Z) (c : Z) =>
                      Some (Qdiv (inject_Z c)
                                 (inject_Z (default 0 (total !! target)))))
                   correct))
      (inject_Z (map_sum correct)).
Proof.
  induction correct as [|k v m Hk IH] using map_ind; intros Hall.
  - unfold weighted_sum, map_sum. rewrite map_imap_empty, !map_fold_empty.
    reflexivity.
  - destruct (Hall k v (lookup_insert_eq m k v)) as [Htot Hnz].
    erewrite map_imap_insert_Some by reflexivity.
    unfold weighted_sum.
    rewrite (map_fold_insert Qeq); cycle 1.
    { intros j z s1 s2 Hs. now rewrite Hs. }
    { intros. ring. }
    { rewrite map_lookup_imap, Hk. reflexivity. }
    fold (weighted_sum dataset
            (map_imap (fun (target : Z) (c : Z) =>
                         Some (Qdiv (inject_Z c)
                                    (inject_Z (default 0 (total !! target)))))
                      m)).
    rewrite IH; cycle 1.
    { intros j w Hj. apply (Hall j w). rewrite lookup_insert_ne; [exact Hj|].
      intros ->. congruence. }
    rewrite map_sum_insert_fresh by exact Hk.
    rewrite Htot, inject_Z_plus.
    assert (Hq : ~ (inject_Z (class_count dataset k) == 0)%Q).
    { intros H. apply Hnz. unfold Qeq in H. simpl in H. lia. }
    field. exact Hq.
Qed.

(** Over the rationals, that is for the exact quotients and an exact
    sum: on the same dataset and the same precomputed predictions (one
    per sample), the quotient of [accuracy] is the average of the
    per-class quotients of [accuracies] weighted by the number of
    samples of each class. *)
Lemma weighted_average_over_rationals (model : Model) (dataset : list sample)
    (predictions : list Z) (batch_size : nat) (ablate : option (list Unit)) :
  (1 <= length dataset)%nat ->
  length predictions = length dataset ->
  exists (a : Q) (accs : gmap Z Q),
    accuracy zero argmax model dataset (Some predictions) batch_size ablate
    = Ok a /\
    accuracies zero argmax model dataset (Some predictions) batch_size ablate
    = Ok accs /\
    (a == weighted_sum dataset accs / inject_Z (Z.of_nat (length dataset)))%Q /\
    dom accs = list_to_set (targets_of dataset).
Proof.
  intros Hn Hlen.
  assert (Hlt : length predictions = length (targets_of dataset))
    by (unfold targets_of; now rewrite length_map).
  assert (Hsnd : (zip predictions (targets_of dataset)).*2 = targets_of dataset)
    by (apply snd_zip; lia).
  pose proof (fold_count_dom (zip predictions (targets_of dataset)) ∅ ∅)
    as [Hdc Hdt].
  pose proof (fold_count_total (zip predictions (targets_of dataset)) ∅ ∅)
    as Htot.
  pose proof (fold_count_correct (zip predictions (targets_of dataset)) ∅ ∅)
    as Hsum.
  rewrite Hsnd in Hdc, Hdt, Htot.
  rewrite !dom_empty_L, !(left_id_L ∅ (∪)) in *.
  unfold accuracies. simpl.
  destruct (fold_left count (zip predictions (targets_of dataset)) (∅, ∅))
    as [correct total] eqn:Hfold.
  simpl in Hdc, Hdt, Htot, Hsum.
  assert (Hclass : forall k, k ∈ targets_of dataset ->
              default 0 (total !! k) = class_count dataset k /\
              class_count dataset k <> 0).
  { intros k Hin. unfold class_count.
    pose proof (filter_eqb_pos k _ Hin).
    rewrite Htot, lookup_empty. simpl. lia. }
  rewrite bool_decide_eq_true_2 by congruence. simpl.
  rewrite bool_decide_eq_true_2; cycle 1.
  { intros k n Hkn Hz. subst n.
    assert (Hin : k ∈ targets_of dataset).
    { rewrite <- (elem_of_list_to_set (C := gset Z)), <- Hdt.
      apply elem_of_dom. eauto. }
    destruct (Hclass k Hin) as [Heq Hnz]. rewrite Hkn in Heq. simpl in Heq.
    congruence. }
  simpl.
  eexists _, _. split; [now apply accuracy_precomputed|].
  split; [reflexivity|]. split.
  - rewrite weighted_sum_ratios; cycle 1.
    { intros k v Hkv. apply Hclass.
      rewrite <- (elem_of_list_to_set (C := gset Z)), <- Hdc.
      apply elem_of_dom. eauto. }
    rewrite Hsum. unfold map_sum at 1. rewrite map_fold_empty, Z.add_0_l.
    rewrite <- sum_zip, (sum_matches _ _ Hlt).
    unfold targets_of at 3. rewrite length_map. reflexivity.
  - rewrite <- Hdc. apply dom_imap_L. intros k. rewrite elem_of_dom.
    split.
    + intros [v Hv]. exists v. split; [exact Hv|]. eauto.
    + intros [v [Hv _]]. eauto.
Qed.

(** *** Sums over the classes of a dataset *)

Lemma foldr_sum_zero (cs : list Z) :
  foldr (fun (c : Z) s => 0 + s) 0 cs = 0.
Proof. induction cs as [|c cs IH]; simpl; lia. Qed.

Lemma foldr_sum_split (f g : Z -> Z) (cs : list Z) :
  foldr (fun c s => f c + g c + s) 0 cs
  = foldr (fun c s => f c + s) 0 cs + foldr (fun c s => g c + s) 0 cs.
Proof. induction cs as [|c cs IH]; simpl; lia. Qed.

Lemma foldr_sum_ext (f g : Z -> Z) (cs : list Z) :
  (forall c, f c = g c) ->
  foldr (fun c s => f c + s) 0 cs = foldr (fun c s => g c + s) 0 cs.
Proof. intros H. induction cs as [|c cs IH]; simpl; [reflexivity|]. now rewrite H, IH. Qed.

Lemma indicator_sum_absent (k : Z) (b : bool) (cs : list Z) :
  k ∉ cs ->
  foldr (fun c s => (if (c =? k) && b then 1 else 0) + s) 0 cs = 0.
Proof.
  induction cs as [|c cs IH]; intros Hk; simpl; [reflexivity|].
  apply not_elem_of_cons in Hk as [Hne Hk].
  destruct (Z.eqb_spec c k); [congruence|]. simpl. now rewrite IH.
Qed.

Lemma indicator_sum (k : Z) (b : bool) (cs : list Z) :
  NoDup cs -> k ∈ cs ->
  foldr (fun c s => (if (c =? k) && b then 1 else 0) + s) 0 cs
  = if b then 1 else 0.
Proof.
  induction 1 as [|c cs Hc Hnd IH]; intros Hk; [now apply elem_of_nil in Hk|].
  simpl. apply elem_of_cons in Hk as [->|Hk].
  - rewrite Z.eqb_refl, indicator_sum_absent by exact Hc.
    destruct b; reflexivity.
  - destruct (Z.eqb_spec c k) as [->|Hne]; [contradiction|].
    simpl. now apply IH.
Qed.

(** Counting class by class, over classes that cover the list, counts
    every element once. *)
Lemma class_sum_filter {X} (key : X -> Z) (P : X -> bool) (l : list X)
    (cs : list Z) :
  NoDup cs -> (forall x, x ∈ l -> key x ∈ cs) ->
  foldr (fun c s =>
           Z.of_nat (length (List.filter (fun x => (c =? key x) && P x) l)) + s)
        0 cs
  = Z.of_nat (length (List.filter P l)).
Proof.
  intros Hnd. induction l as [|x l IH]; intros Hcover.
  - simpl. apply foldr_sum_zero.
  - rewrite (foldr_sum_ext _
               (fun c => (if (c =? key x) && P x then 1 else 0)
                         + Z.of_nat (length (List.filter
                                               (fun x => (c =? key x) && P x) l)))).
    + rewrite foldr_sum_split, IH, indicator_sum.
      * cbn [List.filter]. destruct (P x); cbn [length]; lia.
      * exact Hnd.
      * apply Hcover. now left.
      * intros y Hy. apply Hcover. now right.
    + intros c. cbn [List.filter].
      destruct ((c =? key x) && P x); cbn [length]; lia.
Qed.

Lemma class_sum_count (dataset : list sample) :
  class_sum (class_count dataset) (targets_of dataset)
  = Z.of_nat (length dataset).
Proof.
  unfold class_sum, class_count.
  rewrite (foldr_sum_ext _
             (fun c => Z.of_nat (length (List.filter
                                           (fun t => (c =? t) && true)
                                           (targets_of dataset))))).
  - rewrite (class_sum_filter (fun t => t) (fun _ => true)).
    + assert (Hall : forall l : list Z, List.filter (fun _ => true) l = l)
        by (induction l as [|t l IH]; simpl; congruence).
      rewrite Hall. unfold targets_of. now rewrite length_map.
    + apply NoDup_remove_dups.
    + intros t Ht. now apply elem_of_remove_dups.
  - intros c. do 2 f_equal. apply List.filter_ext. intros t.
    now rewrite andb_true_r.
Qed.

Lemma class_sum_correct (predictions targets : list Z) :
  length predictions = length targets ->
  class_sum (class_correct (zip predictions targets)) targets
  = matches predictions targets (length targets).
Proof.
  intros Hlen. unfold class_sum, class_correct.
  rewrite (class_sum_filter snd (fun pt : Z * Z => pt.1 =? pt.2)).
  - now rewrite <- sum_zip, sum_matches.
  - apply NoDup_remove_dups.
  - intros pt Hpt. apply elem_of_remove_dups.
    rewrite <- (snd_zip predictions targets) by lia.
    apply list_elem_of_fmap. now exists pt.
Qed.

(** C9, for a dataset that is not empty and one prediction per sample:
    the keys of [accuracies] are the target labels of the dataset; the
    value of a class is the quotient of the number of samples of the
    class that are predicted right by the number of samples of the
    class; and [accuracy] is the quotient of the sum of these numerators
    by the sum of these denominators, which is the size of the dataset.
    [accuracy] is therefore the average of the per-class values
    weighted by the class frequencies when the quotients are exact;
    each quotient is rounded once when it is returned as a double. *)
Theorem accuracy_weighted_average (model : Model) (dataset : list sample)
    (predictions : list Z) (batch_size : nat) (ablate : option (list Unit)) :
  (1 <= length dataset)%nat ->
  length predictions = length dataset ->
  exists accs : gmap Z Q,
    accuracies zero argmax model dataset (Some predictions) batch_size ablate
    = Ok accs /\
    dom accs = list_to_set (targets_of dataset) /\
    (forall c, c ∈ targets_of dataset ->
       1 <= class_count dataset c /\
       0 <= class_correct (zip predictions (targets_of dataset)) c
         <= class_count dataset c /\
       accs !! c
       = Some (inject_Z (class_correct (zip predictions (targets_of dataset)) c)
               / inject_Z (class_count dataset c))%Q) /\
    accuracy zero argmax model dataset (Some predictions) batch_size ablate
    = Ok (inject_Z (class_sum (class_correct (zip predictions (targets_of dataset)))
                              (targets_of dataset))
          / inject_Z (class_sum (class_count dataset) (targets_of dataset)))%Q /\
    class_sum (class_count dataset) (targets_of dataset)
    = Z.of_nat (length dataset) /\
    class_sum (class_correct (zip predictions (targets_of dataset)))
              (targets_of dataset)
    = matches predictions (targets_of dataset) (length dataset).
Proof.
  intros Hn Hlen.
  assert (Hlt : length predictions = length (targets_of dataset))
    by (unfold targets_of; now rewrite length_map).
  assert (Hsnd : (zip predictions (targets_of dataset)).*2 = targets_of dataset)
    by (apply snd_zip; lia).
  assert (Hcount : forall c,
             class_total (zip predictions (targets_of dataset)) c
             = class_count dataset c).
  { intros c. unfold class_total, class_count. now rewrite Hsnd. }
  assert (Hsum : class_sum (class_correct (zip predictions (targets_of dataset)))
                           (targets_of dataset)
                 = matches predictions (targets_of dataset) (length dataset)).
  { rewrite (class_sum_correct _ _ Hlt). f_equal. unfold targets_of.
    apply length_map. }
  destruct (accuracies_counted model dataset predictions batch_size ablate)
    as (correct & total & Haccs & Hdom & Htot & Hcor).
  rewrite Hsnd in Hdom.
  eexists. split; [exact Haccs|]. split; [now rewrite accuracies_dom|].
  split; [|split; [|split; [apply class_sum_count|exact Hsum]]].
  - intros c Hc. rewrite <- Hcount.
    split; [|split; [apply class_correct_le_total|]].
    + unfold class_total. rewrite Hsnd. pose proof (filter_eqb_pos c _ Hc). lia.
    + assert (Hin : c ∈ dom correct)
        by (rewrite Hdom; now apply elem_of_list_to_set).
      apply elem_of_dom in Hin as [v Hv].
      rewrite map_lookup_imap, Hv. simpl.
      specialize (Hcor c). rewrite Hv in Hcor. simpl in Hcor.
      now rewrite Htot, Hcor.
  - rewrite Hsum, class_sum_count. now apply accuracy_precomputed.
Qed.
End Accuracy.

(** ** The loader *)

Section Loader.
Context {A : Type}.

Lemma batches_concat (n : nat) (l : list A) :
  (0 < n)%nat -> concat (Torch.batches n l) = l.
Proof.
  intros Hn. funelim (Torch.batches n l); simp batches; try lia; try reflexivity.
  simpl. f_equal.
  match goal with IH : _ -> concat _ = _ |- _ => rewrite IH by lia end.
  apply take_drop.
Qed.

Lemma batches_nonempty (n : nat) (l : list A) :
  Forall (fun batch => batch <> []) (Torch.batches n l).
Proof.
  funelim (Torch.batches n l); simp batches; constructor; auto; discriminate.
Qed.

Lemma batches_nil_iff (n : nat) (l : list A) :
  (0 < n)%nat -> Torch.batches n l = [] <-> l = [].
Proof.
  intros Hn. destruct n as [|n]; [lia|]. destruct l as [|x l]; simp batches.
  - tauto.
  - split; discriminate.
Qed.

Lemma batches_sizes (n : nat) (l : list A) :
  Forall (fun batch => (length batch <= n)%nat) (Torch.batches n l).
Proof.
  funelim (Torch.batches n l); simp batches; constructor; auto.
  simpl. rewrite length_take. lia.
Qed.

Lemma cat_ok (tensors : list (list A)) :
  tensors <> [] -> Torch.cat tensors = Ok (concat tensors).
Proof. destruct tensors; [congruence|reflexivity]. Qed.
End Loader.

(** ** Predictions *)

Section Predict.
Import Classifiers.
Context {act : Type} (zero : act) (argmax : list act -> Z).

Local Abbreviation sample := (@Classifiers.sample act).
Local Abbreviation Model := (@Classifiers.Model act).
Local Abbreviation Layer := (@Classifiers.Layer act).

Lemma ablated_length (model : Model) (units : list Unit)
    (images : list (list act)) :
  row_preserving model ->
  length (ablated zero model units images) = length images.
Proof.
  unfold ablated. intros Hrows. revert images.
  induction Hrows as [|l model Hl _ IH]; intros images; simpl; [reflexivity|].
  rewrite IH, length_map. apply Hl.
Qed.

Lemma outputs_length (model : Model) (units : list Unit) (batch_size : nat)
    (dataset : list sample) :
  (0 < batch_size)%nat -> row_preserving model ->
  length (outputs zero model units batch_size dataset) = length dataset.
Proof.
  intros Hb Hrows. unfold outputs.
  rewrite <- (batches_concat batch_size dataset Hb) at 2.
  induction (Torch.batches batch_size dataset) as [|batch bs IH]; simpl;
    [reflexivity|].
  rewrite !length_app, IH, ablated_length, length_map by exact Hrows.
  reflexivity.
Qed.

(** After each layer, the ablated model zeroes the listed units of that
    layer. *)
Lemma ablated_snoc (model : Model) (l : Layer) (units : list Unit)
    (images : list (list act)) :
  ablated zero (model ++ [l]) units images
  = List.map (zero_units zero units (name l))
             (run l (ablated zero model units images)).
Proof. unfold ablated. now rewrite fold_left_app. Qed.

(** Zeroing touches the listed units and no other. *)
Lemma zero_units_lookup (units : list Unit) (layer : string)
    (t : list act) (i : nat) (a : act) :
  t !! i = Some a ->
  zero_units zero units layer t !! i
  = Some (if bool_decide ((layer, i) ∈ units) then zero else a).
Proof.
  intros Hi. unfold zero_units. rewrite list_lookup_imap, Hi. reflexivity.
Qed.

Lemma zero_units_nil (layer : string) (t : list act) :
  zero_units zero [] layer t = t.
Proof.
  apply list_eq. intros i. unfold zero_units. rewrite list_lookup_imap.
  destruct (t !! i) as [a|] eqn:Hi; reflexivity.
Qed.

(** Without units to ablate, the ablated model is the model. *)
Lemma ablated_nil (model : Model) (images : list (list act)) :
  ablated zero model [] images = forward model images.
Proof.
  unfold ablated, forward. revert images.
  induction model as [|l model IH]; intros images; simpl; [reflexivity|].
  rewrite <- IH. f_equal.
  rewrite <- (map_id (run l images)) at 2.
  apply map_ext. intros t. apply zero_units_nil.
Qed.

Lemma predict_outputs (model : Model) (dataset : list sample)
    (batch_size : nat) (ablate : option (list Unit)) :
  dataset <> [] -> (0 < batch_size)%nat ->
  predict zero argmax model dataset batch_size ablate
  = Ok (List.map argmax
          (outputs zero model (default [] ablate) batch_size dataset)).
Proof.
  intros Hne Hb. unfold predict, Torch.DataLoader.
  destruct (Nat.eqb_spec batch_size 0); [lia|]. simpl.
  rewrite cat_ok.
  - unfold outputs. f_equal.
    induction (Torch.batches batch_size dataset) as [|batch bs IH]; simpl;
      [reflexivity|].
    now rewrite map_app, IH.
  - intros Hnil. apply map_eq_nil in Hnil.
    now apply (batches_nil_iff batch_size dataset Hb) in Hnil.
Qed.

(** C4, for a dataset that is not empty: [predict] returns one class
    per dataset element, the argmax of the row the model puts out for
    that element, in dataset order; every forward pass goes through
    the model ablated at the units passed in [ablate] (none when
    [ablate] is [None]), which zeroes the activations of exactly those
    units after each layer. *)
Theorem predict_argmax_in_order (model : Model) (dataset : list sample)
    (batch_size : nat) (ablate : option (list Unit)) :
  dataset <> [] -> (0 < batch_size)%nat -> row_preserving model ->
  exists predictions : list Z,
    predict zero argmax model dataset batch_size ablate = Ok predictions /\
    length predictions = length dataset /\
    predictions
    = List.map argmax
        (outputs zero model (default [] ablate) batch_size dataset) /\
    concat (Torch.batches batch_size dataset) = dataset /\
    (forall (layers : Model) (l : Layer) (images : list (list act)),
        ablated zero (layers ++ [l]) (default [] ablate) images
        = List.map (zero_units zero (default [] ablate) (name l))
                   (run l (ablated zero layers (default [] ablate) images))) /\
    (forall (layer : string) (t : list act) (i : nat) (a : act),
        t !! i = Some a ->
        zero_units zero (default [] ablate) layer t !! i
        = Some (if bool_decide ((layer, i) ∈ default [] ablate)
                then zero else a)).
Proof.
  intros Hne Hb Hrows. eexists.
  split; [now apply predict_outputs|].
  split; [rewrite length_map; now apply outputs_length|].
  split; [reflexivity|].
  split; [now apply batches_concat|].
  split; [intros; apply ablated_snoc|].
  intros; now apply zero_units_lookup.
Qed.
End Predict.

(** ** [Featurizer.map] *)

Section FeaturizerMap.
Import Featurizer.
Context {tensor row : Type}.
Variable forward : list tensor -> list tensor -> result (list row).

Local Abbreviation sample := (Featurizer.sample tensor).
Local Abbreviation field := (Featurizer.field tensor).
Local Abbreviation entry := (Featurizer.entry tensor).

(** [forward] returns one feature row per input image. *)
Hypothesis forward_rows :
  forall images masks,
    exists rows, forward images masks = Ok rows /\ length rows = length images.

Lemma traverse_as_tensor_raise (column : list field) (e : exn) :
  traverse as_tensor column = Raise e -> e = TypeError.
Proof.
  revert e. induction column as [|f column IH]; intros e; simpl; [discriminate|].
  destruct f as [t|s]; simpl; [|congruence].
  destruct (traverse as_tensor column) as [ts|e'] eqn:Hm; [discriminate|].
  intros [= <-]. now apply IH.
Qed.

Lemma collate_raise (column : list field) (e : exn) :
  collate column = Raise e -> e = TypeError.
Proof.
  unfold collate. destruct column as [|[t|s] column]; try discriminate.
  destruct (traverse as_tensor (FTensor t :: column)) as [ts|e'] eqn:Hm;
    simpl; [discriminate|].
  intros [= <-]. now apply (traverse_as_tensor_raise _ _ Hm).
Qed.

Lemma traverse_as_tensor_ok (column : list field) :
  Forall (fun f => exists t, f = FTensor t) column ->
  traverse as_tensor column = Ok (omap tensor_of column).
Proof.
  induction 1 as [|f column [t ->] _ IH]; csimpl; [reflexivity|].
  cbn [as_tensor]. now rewrite IH.
Qed.

Lemma collate_tensors (column : list field) :
  column <> [] ->
  Forall (fun f => exists t, f = FTensor t) column ->
  collate column = Ok (ETensor (omap tensor_of column)).
Proof.
  intros Hne Hall. pose proof (traverse_as_tensor_ok column Hall) as Hm.
  destruct Hall as [|f column [t ->] Hall]; [congruence|].
  unfold collate. now rewrite Hm.
Qed.

Lemma omap_map {X Y Z} (f : Y -> option Z) (g : X -> Y) (l : list X) :
  omap f (List.map g l) = omap (fun x => f (g x)) l.
Proof.
  induction l as [|x l IH]; csimpl; [reflexivity|].
  destruct (f (g x)); now rewrite IH.
Qed.

Lemma omap_tensor_length (column : list field) :
  Forall (fun f => exists t, f = FTensor t) column ->
  length (omap tensor_of column) = length column.
Proof.
  induction 1 as [|f column [t ->] _ IH]; csimpl; [reflexivity|].
  now rewrite IH.
Qed.

(** The loop raises [ValueError] exactly when a batch it is handed has
    an entry that is not a tensor. *)
Lemma map_loop_value_error (chunks : list (list sample))
    (mapped : list (list row)) :
  map_loop forward chunks mapped = Raise ValueError
  <-> Exists not_tensors (yielded chunks).
Proof.
  revert mapped. induction chunks as [|batch chunks IH]; intros mapped; simpl.
  - split; [discriminate|]. intros H. inversion H.
  - destruct (collate (List.map at_image batch)) as [images|e] eqn:Hi; simpl.
    2:{ apply collate_raise in Hi. subst e.
        split; [discriminate|]. intros H. inversion H. }
    destruct (collate (List.map at_mask batch)) as [masks|e] eqn:Hm; simpl.
    2:{ apply collate_raise in Hm. subst e.
        split; [discriminate|]. intros H. inversion H. }
    destruct images as [images|vals].
    2:{ split; [|reflexivity]. intros _. left. now left. }
    destruct masks as [masks|vals].
    2:{ split; [|reflexivity]. intros _. left. now right. }
    destruct (forward_rows images masks) as [rows [-> _]]. simpl.
    rewrite IH. split.
    + intros H. now right.
    + intros H. inversion H as [? ? [Hbad|Hbad]|]; subst;
        [discriminate Hbad|discriminate Hbad|assumption].
Qed.

Lemma map_loop_tensors (chunks : list (list sample))
    (mapped : list (list row)) :
  Forall (fun batch => batch <> []) chunks ->
  Forall (Forall holds_tensors) chunks ->
  map_loop forward chunks mapped
  = Ok (mapped ++ List.map (rows_of forward) chunks).
Proof.
  intros Hne Hall. revert mapped.
  induction Hall as [|batch chunks Hbatch _ IH]; intros mapped; simpl.
  - now rewrite app_nil_r.
  - inversion Hne as [|? ? Hb Hne']; subst.
    assert (Himg : Forall (fun f : field => exists t, f = FTensor t)
                          (List.map at_image batch)).
    { apply Forall_map. revert Hbatch. apply List.Forall_impl.
      intros s [H _]. exact H. }
    assert (Hmsk : Forall (fun f : field => exists t, f = FTensor t)
                          (List.map at_mask batch)).
    { apply Forall_map. revert Hbatch. apply List.Forall_impl.
      intros s [_ H]. exact H. }
    assert (Hi0 : List.map at_image batch <> [])
      by (intros H0; apply map_eq_nil in H0; congruence).
    assert (Hm0 : List.map at_mask batch <> [])
      by (intros H0; apply map_eq_nil in H0; congruence).
    rewrite (collate_tensors _ Hi0 Himg), (collate_tensors _ Hm0 Hmsk).
    simpl. rewrite !omap_map.
    destruct (forward_rows (omap (fun s => tensor_of (at_image s)) batch)
                           (omap (fun s => tensor_of (at_mask s)) batch))
      as [rows [Hf Hlen]].
    rewrite Hf. simpl. rewrite (IH Hne').
    unfold rows_of at 2. rewrite Hf. now rewrite <- app_assoc.
Qed.

Lemma rows_of_length (batch : list sample) :
  Forall holds_tensors batch ->
  length (rows_of forward batch) = length batch.
Proof.
  intros Hbatch. unfold rows_of.
  destruct (forward_rows (omap (fun s => tensor_of (at_image s)) batch)
                         (omap (fun s => tensor_of (at_mask s)) batch))
    as [rows [-> Hlen]].
  rewrite Hlen, <- omap_map, omap_tensor_length, length_map; [reflexivity|].
  apply Forall_map. revert Hbatch. apply List.Forall_impl.
  intros s [H _]. exact H.
Qed.

Lemma rows_total_length (chunks : list (list sample)) :
  Forall (Forall holds_tensors) chunks ->
  length (concat (List.map (rows_of forward) chunks))
  = length (concat chunks).
Proof.
  induction 1 as [|batch chunks Hbatch _ IH]; simpl; [reflexivity|].
  now rewrite !length_app, IH, rows_of_length.
Qed.

(** C10, for a dataset that is not empty and a positive batch size:
    when every sample holds a tensor at the image index and at the mask
    index, [map] returns a dataset with as many rows as there are
    samples, the rows of the batches in dataset order; and [map] raises
    [ValueError] exactly when the image entry or the mask entry of some
    batch the loader yields is not a tensor. *)
Theorem map_rows_and_value_error (dataset : list sample) (batch_size : nat) :
  (0 < batch_size)%nat ->
  (dataset <> [] -> Forall holds_tensors dataset ->
   exists features : list row,
     Featurizer.map forward dataset batch_size = Ok features /\
     length features = length dataset /\
     features
     = concat (List.map (rows_of forward) (Torch.batches batch_size dataset)) /\
     concat (Torch.batches batch_size dataset) = dataset) /\
  (Featurizer.map forward dataset batch_size = Raise ValueError
   <-> Exists not_tensors (yielded (Torch.batches batch_size dataset))).
Proof.
  intros Hb.
  assert (Hloader : Torch.DataLoader dataset batch_size
                    = Ok (Torch.batches batch_size dataset)).
  { unfold Torch.DataLoader. destruct (Nat.eqb_spec batch_size 0); [lia|].
    reflexivity. }
  split.
  - intros Hne Hall.
    assert (Hchunks : Forall (Forall holds_tensors)
                             (Torch.batches batch_size dataset)).
    { apply Forall_concat. now rewrite batches_concat. }
    unfold Featurizer.map. rewrite Hloader. simpl.
    rewrite (map_loop_tensors _ _ (batches_nonempty _ _) Hchunks). simpl.
    rewrite cat_ok; cycle 1.
    { intros Hnil. apply map_eq_nil in Hnil.
      now apply (batches_nil_iff batch_size dataset Hb) in Hnil. }
    eexists. split; [reflexivity|].
    split; [|split; [reflexivity|now apply batches_concat]].
    rewrite <- (batches_concat batch_size dataset Hb) at 2.
    now apply rows_total_length.
  - unfold Featurizer.map. rewrite Hloader. simpl.
    rewrite <- (map_loop_value_error _ []).
    destruct (map_loop forward (Torch.batches batch_size dataset) [])
      as [mapped|e]; simpl; [|split; intros [= ->]; reflexivity].
    destruct mapped; simpl; split; discriminate.
Qed.
End FeaturizerMap.

(** ** The training loop of the language model *)

Section FitLoop.
Import Lms.
Context {params optim : Type}.
Variable train_epoch : optim * params -> optim * params.
Variable val_loss : params -> Q.
Variables n_train_batches n_val_batches : nat.

Local Abbreviation fit_loop :=
  (Lms.fit_loop train_epoch val_loss n_val_batches).
Local Abbreviation fit :=
  (Lms.fit train_epoch val_loss n_train_batches n_val_batches).
Local Abbreviation trained := (Lms.trained train_epoch).

(** Loading a state dictionary that refers to the parameter tensors of
    the module leaves every tensor as it is. *)
Lemma load_own_state_dict (self : LanguageModel) (state : nat)
    (h : nat -> params) (l : nat) :
  state = state_dict self ->
  load_state_dict self state h l = h l.
Proof.
  intros ->. unfold load_state_dict, state_dict.
  destruct (decide (storage self = l)) as [->|Hne].
  - apply fn_lookup_insert.
  - now apply fn_lookup_insert_ne.
Qed.

Lemma trained_S (k : nat) (op : optim * params) :
  trained (S k) op = trained k (train_epoch op).
Proof.
  induction k as [|k IH]; simpl; [reflexivity|].
  simpl in IH. now rewrite IH.
Qed.

(** The loop never runs more epochs than it was given, [best] always
    refers to the parameter tensors of the module, and the parameters
    it leaves are those of the last epoch it ran. *)
Lemma fit_loop_last_epoch (self : LanguageModel) (progress : nat)
    (r r' : run (params := params) (optim := optim)) :
  best r = storage self ->
  fit_loop self progress r = Ok r' ->
  (epochs r <= epochs r' <= epochs r + progress)%nat /\
  (stopped r = false -> stopped r' = false -> epochs r' = (epochs r + progress)%nat) /\
  (optimizer r', parameters self r')
  = trained (epochs r' - epochs r) (optimizer r, parameters self r).
Proof.
  revert r. induction progress as [|progress IH]; intros r Hbest;
    cbn [Lms.fit_loop].
  - intros [= <-]. rewrite Nat.sub_diag. simpl.
    repeat split; lia.
  - unfold parameters in *.
    destruct (train_epoch (optimizer r, tensors r (storage self)))
      as [o p] eqn:Hstep.
    destruct (n_val_batches =? 0)%nat; [discriminate|].
    destruct (Training.call (stopper r) _) as [s stop].
    destruct stop.
    + intros [= <-]. simpl.
      rewrite (load_own_state_dict self (best r) _ _ Hbest), fn_lookup_insert.
      replace (S (epochs r) - epochs r)%nat with 1%nat by lia.
      cbn [Lms.trained]. rewrite Hstep. repeat split; try lia.
    + intros Hloop. apply IH in Hloop; cycle 1.
      { simpl. now destruct (Training.improved s). }
      simpl in Hloop. destruct Hloop as [Hle [Hfull Hparams]].
      rewrite fn_lookup_insert in Hparams.
      split; [lia|]. split; [intros; rewrite Hfull by auto; lia|].
      rewrite Hparams.
      replace (epochs r' - epochs r)%nat with (S (epochs r' - S (epochs r)))
        by lia.
      now rewrite trained_S, Hstep.
Qed.

(** [fit] runs at most [max_epochs] epochs, and the parameters it
    leaves are those the last epoch it ran produced, whether or not it
    stopped early: the dictionary kept in [best] shares its tensors
    with the module, so restoring it changes nothing. *)
Lemma fit_keeps_last_epoch (self : LanguageModel) (h : nat -> params)
    (o : optim) (max_epochs patience : nat)
    (r : run (params := params) (optim := optim)) :
  fit self h o max_epochs patience = Ok r ->
  (epochs r <= max_epochs)%nat /\
  (stopped r = false -> epochs r = max_epochs) /\
  parameters self r = snd (trained (epochs r) (o, h (storage self))).
Proof.
  unfold Lms.fit. destruct (n_train_batches =? 0)%nat; [discriminate|].
  intros Hfit.
  apply fit_loop_last_epoch in Hfit; [|reflexivity].
  simpl in Hfit. destruct Hfit as [Hle [Hfull Hparams]].
  split; [lia|]. split; [intros; now apply Hfull|].
  rewrite Nat.sub_0_r in Hparams. unfold parameters in *. simpl in Hparams.
  now rewrite <- Hparams.
Qed.

Lemma call_patience (st s : Training.EarlyStopping) (value : Q) (stop : bool) :
  Training.call st value = (s, stop) ->
  Training.patience s = Training.patience st /\
  stop = (Training.patience s <=? Training.num_bad s)%nat.
Proof.
  unfold Training.call. intros [= <- <-].
  destruct (Training.is_better st value); split; reflexivity.
Qed.

(** The loop leaves through [break] exactly when the stopper has counted
    [patience] epochs in a row without improvement. *)
Lemma fit_loop_patience (self : LanguageModel) (progress : nat)
    (r r' : run (params := params) (optim := optim)) :
  stopped r = false ->
  fit_loop self progress r = Ok r' ->
  Training.patience (stopper r') = Training.patience (stopper r) /\
  (stopped r' = true ->
   (Training.patience (stopper r') <= Training.num_bad (stopper r'))%nat) /\
  (stopped r' = false ->
   progress = 0%nat \/
   (Training.num_bad (stopper r') < Training.patience (stopper r'))%nat).
Proof.
  revert r. induction progress as [|progress IH]; intros r Hrun;
    cbn [Lms.fit_loop].
  - intros [= <-]. split; [reflexivity|]. split; [congruence|now left].
  - destruct (train_epoch (optimizer r, tensors r (storage self))) as [o p].
    destruct (n_val_batches =? 0)%nat; [discriminate|].
    destruct (Training.call (stopper r) _) as [s stop] eqn:Hcall.
    apply call_patience in Hcall as [Hpat Hstop].
    destruct stop.
    + intros [= <-]. simpl. split; [exact Hpat|]. split; [|discriminate].
      intros _. symmetry in Hstop. now apply Nat.leb_le in Hstop.
    + intros Hloop. pose proof Hloop as Hloop'.
      apply IH in Hloop as [Hp [Hbreak Hleft]]; [|reflexivity].
      simpl in Hp. split; [congruence|]. split; [exact Hbreak|].
      intros Hs. right. destruct (Hleft Hs) as [->|Hlt]; [|exact Hlt].
      cbn [Lms.fit_loop] in Hloop'. injection Hloop' as <-. simpl.
      symmetry in Hstop. apply Nat.leb_gt in Hstop. exact Hstop.
Qed.

(** With batches to validate on, the loop of [fit] returns. *)
Lemma fit_loop_returns (self : LanguageModel) (progress : nat)
    (r : run (params := params) (optim := optim)) :
  n_val_batches <> 0%nat ->
  exists r', fit_loop self progress r = Ok r'.
Proof.
  intros Hv. revert r. induction progress as [|progress IH]; intros r;
    cbn [Lms.fit_loop].
  - eauto.
  - destruct (train_epoch _) as [o p].
    destruct (Nat.eqb_spec n_val_batches 0); [congruence|].
    destruct (Training.call _ _) as [s stop].
    destruct stop; eauto.
Qed.
End FitLoop.

Section FitExampleFacts.
Import Lms FitExample.

(** C6 on the example, with [max_epochs = 10] and [patience = 2]: the
    validation losses are 1, 2, 3, so [fit] stops after the third
    epoch; the parameter saved after the best epoch, the first, is 1,
    and the parameter [fit] leaves in the model is 3. *)
Lemma fit_does_not_restore_best :
  List.map (loss_at train_epoch val_loss (tt, 0)) [1; 2; 3]%nat
  = [inject_Z 1; inject_Z 2; inject_Z 3] /\
  snd (trained train_epoch 1 (tt, 0)) = 1 /\
  exists r, FitExample.fit 10 2 = Ok r /\
            stopped r = true /\ epochs r = 3%nat /\
            parameters self r = 3.
Proof.
  split; [reflexivity|]. split; [reflexivity|].
  eexists. split; [reflexivity|]. repeat split.
Qed.
End FitExampleFacts.

(** ** [PretrainedPyramidFeaturizer.forward] *)

Section PyramidForward.
Import PretrainedPyramidFeaturizer.
Context {F image : Type}.
Variables (fzero : F) (fadd fmul fdiv : F -> F -> F) (is_zero : F -> bool).
Variable resize : list (list F) -> nat * nat -> list (list F).
Variable featurizer : indexed image -> result (list (activations (F := F))).
Variable feature_size : nat.

Local Abbreviation forward :=
  (PretrainedPyramidFeaturizer.forward fzero fadd fmul fdiv is_zero resize
     featurizer feature_size).
Local Abbreviation valid_of := (nonzero_masks is_zero).

Lemma nonzero_none (valid : list bool) :
  existsb id valid = false -> nonzero valid = [].
Proof.
  intros Hnone. unfold nonzero.
  assert (Hall : forall i, nth i valid false = false).
  { intros i. destruct (nth i valid false) eqn:Hi; [|reflexivity].
    assert (Hex : existsb id valid = true); [|congruence].
    apply existsb_exists. exists true. split; [|reflexivity].
    rewrite <- Hi. apply nth_In.
    destruct (Nat.lt_ge_cases i (length valid)) as [Hlt|Hge]; [exact Hlt|].
    rewrite nth_overflow in Hi by exact Hge. discriminate. }
  induction (seq 0 (length valid)) as [|i l IH]; simpl; [reflexivity|].
  now rewrite Hall.
Qed.

(** X21: when every mask is zero, [forward] returns zeros and does not
    run the network. *)
Lemma forward_all_zero (images : list image) (masks : list (@grid F)) :
  Forall (fun m => all_zero is_zero m = true) masks ->
  forward images masks
  = ([], Ok (replicate (length images) (replicate feature_size fzero))).
Proof.
  intros Hall. unfold PretrainedPyramidFeaturizer.forward. cbv zeta.
  assert (Hnone : existsb id (valid_of masks) = false).
  { unfold nonzero_masks.
    induction Hall as [|m masks Hm _ IH]; simpl; [reflexivity|].
    now rewrite Hm. }
  now rewrite Hnone.
Qed.

Lemma mask_layers_unbatched (m : @grid F)
    (features : list (activations (F := F))) :
  raises (rows ← traverse (mask_layer fzero fadd fmul fdiv resize (Single m)) features;
          cat_last rows).
Proof.
  destruct features as [|fs features]; eexists; reflexivity.
Qed.

(** When exactly one mask of the batch is not zero, [squeeze] turns its
    position into a zero-dimensional index, the selected image and mask
    lose their batch axis, and [forward] raises. *)
Lemma forward_single_valid (images : list image)
    (masks : list (@grid F)) (i : nat) :
  nonzero (valid_of masks) = [i] ->
  raises (snd (forward images masks)).
Proof.
  intros Hone. unfold PretrainedPyramidFeaturizer.forward. cbv zeta.
  destruct (existsb id (valid_of masks)) eqn:Hany; simpl.
  2:{ apply nonzero_none in Hany. congruence. }
  rewrite Hone. simpl. unfold item.
  destruct (images !! i) as [x|]; simpl.
  2:{ eexists; reflexivity. }
  destruct (masks !! i) as [m|]; simpl.
  2:{ eexists; reflexivity. }
  destruct (featurizer (Single x)) as [features|e]; simpl.
  2:{ eexists; reflexivity. }
  destruct (mask_layers_unbatched m features) as [e He].
  destruct (traverse _ features) as [rows|e']; simpl in *.
  2:{ eexists; reflexivity. }
  rewrite He. eexists; reflexivity.
Qed.
End PyramidForward.

(** ** [forward] on a batch with two or more valid masks *)

Section PyramidBatch.
Import PretrainedPyramidFeaturizer.
Context {F image : Type}.
Variables (fzero : F) (fadd fmul fdiv : F -> F -> F) (is_zero : F -> bool).
Variable resize : @grid F -> nat * nat -> @grid F.
Variable featurizer : indexed image -> result (list (activations (F := F))).
Variable feature_size : nat.

Local Abbreviation forward :=
  (PretrainedPyramidFeaturizer.forward fzero fadd fmul fdiv is_zero resize
     featurizer feature_size).
Local Abbreviation mask_layer := (mask_layer fzero fadd fmul fdiv resize).
Local Abbreviation pool := (pool fzero fadd fmul).
Local Abbreviation normalise := (normalise fzero fadd fdiv).
Local Abbreviation pyramid_row := (pyramid_row fzero fadd fmul fdiv resize).

Lemma nonzero_In (valid : list bool) (i : nat) :
  In i (nonzero valid) <-> nth i valid false = true.
Proof.
  unfold nonzero. rewrite filter_In, in_seq. split; [tauto|].
  intros Hi. split; [|exact Hi].
  destruct (Nat.lt_ge_cases i (length valid)) as [Hlt|Hge]; [lia|].
  rewrite nth_overflow in Hi by exact Hge. discriminate.
Qed.

Lemma nonzero_lt (valid : list bool) :
  Forall (fun i => (i < length valid)%nat) (nonzero valid).
Proof.
  apply List.Forall_forall. intros i Hi. unfold nonzero in Hi.
  apply filter_In in Hi. destruct Hi as [Hi _]. apply in_seq in Hi. lia.
Qed.

Lemma nonzero_NoDup (valid : list bool) : List.NoDup (nonzero valid).
Proof. unfold nonzero. apply List.NoDup_filter, List.seq_NoDup. Qed.

Lemma traverse_item {X} (xs : list X) (positions : list nat) :
  Forall (fun i => (i < length xs)%nat) positions ->
  exists ys, traverse (item xs) positions = Ok ys /\
             Forall2 (fun i y => xs !! i = Some y) positions ys.
Proof.
  induction 1 as [|i positions Hi _ [ys [Hys Hall]]]; simpl.
  - exists []. split; [reflexivity|constructor].
  - unfold item at 1. destruct (lookup_lt_is_Some_2 xs i Hi) as [x Hx].
    rewrite Hx, Hys. exists (x :: ys). split; [reflexivity|now constructor].
Qed.

Lemma pool_pairs (cs : list (list (@grid F))) (ms : list (@grid F))
    (size : nat * nat) :
  List.map (fun p : list (@grid F) * @grid F => pool (fst p) (snd p))
           (zip cs (List.map normalise (List.map (fun m => resize m size) ms)))
  = zip_with (fun c m => pool c (normalise (resize m size))) cs ms.
Proof.
  revert ms. induction cs as [|c cs IH]; intros [|m ms]; simpl; try reflexivity.
  now rewrite IH.
Qed.

Lemma mask_layer_batch (ms : list (@grid F)) (fs : activations) :
  length (channels fs) = length ms ->
  mask_layer (Batch ms) fs
  = Ok (zip_with (fun c m => pool c (normalise (resize m (spatial fs))))
                 (channels fs) ms).
Proof.
  intros Hlen. unfold PretrainedPyramidFeaturizer.mask_layer. simpl.
  unfold pair_up. rewrite !length_map, Hlen, Nat.eqb_refl. simpl.
  now rewrite pool_pairs.
Qed.

Lemma traverse_mask_layer (ms : list (@grid F)) (features : list activations) :
  Forall (fun fs => length (channels fs) = length ms) features ->
  traverse (mask_layer (Batch ms)) features
  = Ok (List.map (fun fs => zip_with (fun c m => pool c (normalise (resize m (spatial fs))))
                                     (channels fs) ms)
                 features).
Proof.
  induction 1 as [|fs features Hfs _ IH]; simpl; [reflexivity|].
  now rewrite (mask_layer_batch ms fs Hfs), IH.
Qed.

Lemma cat_last_rows (masked : list (list (list F))) (k : nat) :
  masked <> [] -> Forall (fun m => length m = k) masked ->
  exists rows,
    cat_last masked = Ok rows /\ length rows = k /\
    forall j, (j < k)%nat ->
              rows !! j = Some (concat (List.map (fun m => nth j m []) masked)).
Proof.
  intros Hne Hall. induction Hall as [|m masked Hm Hall IH]; [congruence|].
  destruct masked as [|m' masked'].
  - exists m. split; [reflexivity|]. split; [exact Hm|].
    intros j Hj. simpl. rewrite app_nil_r.
    destruct (lookup_lt_is_Some_2 m j ltac:(lia)) as [r Hr].
    rewrite Hr. f_equal. symmetry. now apply nth_lookup_Some with (d := []).
  - destruct IH as [rest [Hrest [Hlen Hrows]]]; [discriminate|].
    change (cat_last (m :: m' :: masked'))
      with (rest ← cat_last (m' :: masked');
            if (length m =? length rest)%nat then Ok (zip_with app m rest)
            else Raise RuntimeError).
    rewrite Hrest. simpl. rewrite Hm, Hlen, Nat.eqb_refl.
    eexists. split; [reflexivity|].
    split; [rewrite length_zip_with; lia|].
    intros j Hj. rewrite lookup_zip_with.
    destruct (lookup_lt_is_Some_2 m j ltac:(lia)) as [r Hr].
    rewrite Hr, (Hrows j Hj). simpl. f_equal. f_equal.
    symmetry. now apply nth_lookup_Some with (d := []).
Qed.

Lemma traverse_fit_row (rows : list (list F)) :
  Forall (fun r => length r = feature_size) rows ->
  traverse (fit_row feature_size) rows = Ok rows.
Proof.
  induction 1 as [|r rows Hr _ IH]; simpl; [reflexivity|].
  unfold fit_row at 1. now rewrite Hr, Nat.eqb_refl, IH.
Qed.

Lemma fold_insert_rows (positions : list nat) (rows res0 : list (list F)) :
  length positions = length rows ->
  Forall (fun i => (i < length res0)%nat) positions ->
  List.NoDup positions ->
  let res := fold_left (fun res (ir : nat * list F) => <[fst ir := snd ir]> res)
                       (zip positions rows) res0 in
  length res = length res0 /\
  (forall j i r, positions !! j = Some i -> rows !! j = Some r ->
                 res !! i = Some r) /\
  (forall i, ~ In i positions -> res !! i = res0 !! i).
Proof.
  revert rows res0.
  induction positions as [|p ps IH]; intros [|r rs] res0 Hlen Hlt Hnd;
    simpl in Hlen; try discriminate; simpl.
  - split; [reflexivity|]. split; [|reflexivity].
    intros j i r Hj. rewrite lookup_nil in Hj. discriminate.
  - inversion Hlt as [|? ? Hp Hlt']; subst.
    inversion Hnd as [|? ? Hnotin Hnd']; subst.
    destruct (IH rs (<[p := r]> res0)) as [Hl [Hrows Hother]];
      [lia|now rewrite length_insert|assumption|].
    rewrite length_insert in Hl.
    split; [exact Hl|]. split.
    + intros [|j] i r' Hj Hr; simpl in Hj, Hr.
      * injection Hj as <-. injection Hr as <-.
        rewrite (Hother p Hnotin). now apply list_lookup_insert_eq.
      * now apply (Hrows j).
    + intros i Hi. rewrite Hother by tauto.
      apply list_lookup_insert_ne. intros ->. apply Hi. now left.
Qed.

Lemma lookups_unique {X} (xs : list X) (positions : list nat) (ys ys' : list X) :
  Forall2 (fun i y => xs !! i = Some y) positions ys ->
  Forall2 (fun i y => xs !! i = Some y) positions ys' ->
  ys = ys'.
Proof.
  intros H. revert ys'. induction H as [|i y positions ys Hi _ IH];
    intros ys' H'; inversion H'; subst; [reflexivity|].
  f_equal; [congruence|]. now apply IH.
Qed.

Lemma nth_nonzero_masks (masks : list (@grid F)) (i : nat) (m : @grid F) :
  masks !! i = Some m ->
  nth i (nonzero_masks is_zero masks) false = negb (all_zero is_zero m).
Proof.
  intros Hm. unfold nonzero_masks. apply nth_lookup_Some.
  change (List.map ?f ?l) with (f <$> l).
  now rewrite list_lookup_fmap, Hm.
Qed.

(** X22: when two or more masks of the batch are not zero, [forward] runs
    the network once, on the images with those masks; every image with a zero
    mask gets a zero feature vector and every other image gets the pooled
    features of the pyramid. *)
Lemma forward_valid_batch (images : list image) (masks : list (@grid F))
    (selected : list image) (features : list activations) :
  length images = length masks ->
  (2 <= length (nonzero (nonzero_masks is_zero masks)))%nat ->
  Forall2 (fun i x => images !! i = Some x)
          (nonzero (nonzero_masks is_zero masks)) selected ->
  featurizer (Batch selected) = Ok features ->
  features <> [] ->
  Forall (fun fs => length (channels fs)
                    = length (nonzero (nonzero_masks is_zero masks))) features ->
  (forall j i m, nonzero (nonzero_masks is_zero masks) !! j = Some i ->
                 masks !! i = Some m ->
                 length (pyramid_row features j m) = feature_size) ->
  exists result,
    forward images masks = ([Batch selected], Ok result) /\
    length result = length images /\
    (forall i m, masks !! i = Some m -> all_zero is_zero m = true ->
                 result !! i = Some (replicate feature_size fzero)) /\
    (forall j i m, nonzero (nonzero_masks is_zero masks) !! j = Some i ->
                   masks !! i = Some m ->
                   result !! i = Some (pyramid_row features j m)).
Proof.
  set (positions := nonzero (nonzero_masks is_zero masks)).
  intros Hlen Htwo Hsel Hfeat Hne Hchan Hwidth.
  assert (Hvalid_len : length (nonzero_masks is_zero masks) = length masks)
    by (unfold nonzero_masks; apply length_map).
  assert (Hlt : Forall (fun i => (i < length masks)%nat) positions).
  { rewrite <- Hvalid_len. apply nonzero_lt. }
  assert (Hany : existsb id (nonzero_masks is_zero masks) = true).
  { destruct (existsb id (nonzero_masks is_zero masks)) eqn:Hany; [reflexivity|].
    apply nonzero_none in Hany. fold positions in Hany. rewrite Hany in Htwo.
    simpl in Htwo. lia. }
  assert (Hsq : squeeze positions = Vector positions).
  { destruct positions as [|i [|i' ps]]; simpl in Htwo; try lia. reflexivity. }
  destruct (traverse_item images positions) as [sel' [Hsel' Hsel2]];
    [now rewrite Hlen|].
  assert (sel' = selected) by (eapply lookups_unique; eassumption). subst sel'.
  destruct (traverse_item masks positions Hlt) as [ms [Hms Hms2]].
  assert (Hk : length ms = length positions)
    by (symmetry; eapply Forall2_length; eassumption).
  set (masked := List.map
         (fun fs => zip_with (fun c m => pool c (normalise (resize m (spatial fs))))
                             (channels fs) ms) features).
  assert (Hmasked : traverse (mask_layer (Batch ms)) features = Ok masked).
  { apply traverse_mask_layer. revert Hchan. apply List.Forall_impl.
    intros fs Hfs. now rewrite Hfs. }
  destruct (cat_last_rows masked (length positions)) as [rows [Hcat [Hrl Hrows]]].
  { unfold masked. destruct features; [congruence|discriminate]. }
  { unfold masked. apply Forall_map. revert Hchan. apply List.Forall_impl.
    intros fs Hfs. rewrite length_zip_with. lia. }
  assert (Hrow : forall j i m, positions !! j = Some i -> masks !! i = Some m ->
                               rows !! j = Some (pyramid_row features j m)).
  { intros j i m Hj Hi.
    assert (Hjk : (j < length positions)%nat) by (eapply lookup_lt_Some; eassumption).
    rewrite (Hrows j Hjk). f_equal. unfold masked, PretrainedPyramidFeaturizer.pyramid_row.
    rewrite map_map. f_equal. apply map_ext_in. intros fs Hin.
    assert (Hfs : length (channels fs) = length positions).
    { rewrite List.Forall_forall in Hchan. now apply Hchan. }
    assert (Hmj : ms !! j = Some m).
    { destruct (Forall2_lookup_l _ _ _ _ _ Hms2 Hj) as [m' [Hm' Heq]].
      congruence. }
    destruct (lookup_lt_is_Some_2 (channels fs) j ltac:(lia)) as [c Hc].
    apply nth_lookup_Some with (d := []).
    rewrite lookup_zip_with, Hc, Hmj. simpl.
    f_equal. f_equal. symmetry. now apply nth_lookup_Some with (d := []). }
  assert (Hwidths : Forall (fun r => length r = feature_size) rows).
  { apply Forall_lookup. intros j r Hr.
    assert (Hjk : (j < length positions)%nat)
      by (rewrite <- Hrl; eapply lookup_lt_Some; eassumption).
    destruct (lookup_lt_is_Some_2 positions j Hjk) as [i Hi].
    assert (Him : (i < length masks)%nat).
    { rewrite List.Forall_forall in Hlt. apply Hlt.
      apply list_elem_of_In. eapply list_elem_of_lookup_2. eassumption. }
    destruct (lookup_lt_is_Some_2 masks i Him) as [m Hm].
    rewrite (Hrow j i m Hi Hm) in Hr. injection Hr as <-.
    now apply (Hwidth j i m). }
  set (result0 := replicate (length images) (replicate feature_size fzero)).
  assert (Hr0 : length result0 = length images) by apply length_replicate.
  destruct (fold_insert_rows positions rows result0) as [Hl [Hput Hkeep]];
    [lia| |apply nonzero_NoDup|].
  { rewrite Hr0, Hlen. exact Hlt. }
  exists (fold_left (fun res (ir : nat * list F) => <[fst ir := snd ir]> res)
                    (zip positions rows) result0).
  split.
  - unfold PretrainedPyramidFeaturizer.forward. cbv zeta.
    fold positions. rewrite Hany, Hsq. simpl.
    rewrite Hsel', Hms. simpl. rewrite Hfeat. simpl.
    rewrite Hmasked. simpl. rewrite Hcat. simpl.
    rewrite Hrl, Nat.eqb_refl. simpl.
    rewrite (traverse_fit_row rows Hwidths). simpl.
    fold result0.
    replace (forallb (fun i => (i <? length result0)%nat) positions) with true;
      [reflexivity|].
    symmetry. apply forallb_forall. intros i Hi. apply Nat.ltb_lt.
    rewrite Hr0, Hlen. rewrite List.Forall_forall in Hlt. now apply Hlt.
  - split; [lia|]. split.
    + intros i m Hm Hzero. rewrite Hkeep.
      * apply lookup_replicate_2. apply lookup_lt_Some in Hm. lia.
      * intros Hin. apply nonzero_In in Hin.
        rewrite (nth_nonzero_masks masks i m Hm), Hzero in Hin. discriminate.
    + intros j i m Hj Hm. apply (Hput j i); [exact Hj|]. now apply (Hrow j i m).
Qed.
End PyramidBatch.

Section PyramidExampleFacts.
Import PretrainedPyramidFeaturizer PyramidExample.

Example forward_two_valid :
  PyramidExample.forward [7; 8; 9]%nat [ones; zeros; ones]
  = ([Batch [7; 9]%nat], Ok [[7 # 1]; [0]; [9 # 1]]%Q).
Proof. reflexivity. Qed.

Example forward_none_valid :
  PyramidExample.forward [7; 8]%nat [zeros; zeros] = ([], Ok [[0]; [0]]%Q).
Proof. reflexivity. Qed.

(** C5 on a batch of two images of which one has a mask that is not
    zero: whatever the network and the resizing do, [forward] raises
    instead of returning the pooled features of that image. *)
Lemma forward_one_valid_of_two_raises :
  forall (resize : list (list Q) -> nat * nat -> list (list Q))
         (featurizer : indexed nat -> result (list activations))
         (feature_size : nat),
    raises (snd (PretrainedPyramidFeaturizer.forward 0%Q Qplus Qmult Qdiv
                   is_zero resize featurizer feature_size
                   [7; 8]%nat [ones; zeros])).
Proof.
  intros. now apply forward_single_valid with (i := 0%nat).
Qed.

(** C8 on a batch of three images of which the first and the last have
    masks that are entirely zero: [forward] raises, so those two images
    do not receive an all-zero feature vector. *)
Lemma forward_zero_masks_around_one_valid_raises :
  forall (resize : list (list Q) -> nat * nat -> list (list Q))
         (featurizer : indexed nat -> result (list activations))
         (feature_size : nat),
    raises (snd (PretrainedPyramidFeaturizer.forward 0%Q Qplus Qmult Qdiv
                   is_zero resize featurizer feature_size
                   [7; 8; 9]%nat [zeros; ones; zeros])).
Proof.
  intros. now apply forward_single_valid with (i := 1%nat).
Qed.

Example forward_one_valid_example :
  PyramidExample.forward [7; 8]%nat [ones; zeros]
  = ([Single 7%nat], Raise ValueError).
Proof. reflexivity. Qed.
End PyramidExampleFacts.

(** ** The classifier and the featurizer on small inputs *)

Section ClassifierExampleFacts.
Import Classifiers ClassifierExample.

Example predict_example :
  predict 0 argmax model dataset 2 None = Ok predictions.
Proof. reflexivity. Qed.

Example predict_ablated_example :
  predict 0 argmax model dataset 2 (Some [("fc"%string, 0%nat)])
  = Ok [1; 1; 0].
Proof. reflexivity. Qed.

Example accuracy_example :
  accuracy 0 argmax model dataset (Some predictions) 2 None = Ok (2 # 3)%Q.
Proof. reflexivity. Qed.

Lemma accuracy_fraction_of_matches_witness :
  exists a : Q,
    accuracy 0 argmax model dataset (Some predictions) 2 None = Ok a /\
    a = (inject_Z (matches predictions (targets_of dataset) (length dataset))
         / inject_Z (Z.of_nat (length dataset)))%Q /\
    (0 <= a)%Q /\ (a <= 1)%Q.
Proof.
  apply accuracy_fraction_of_matches; [simpl; lia|reflexivity].
Defined.

Lemma accuracy_weighted_average_witness :
  exists accs : gmap Z Q,
    accuracies 0 argmax model dataset (Some predictions) 2 None = Ok accs /\
    dom accs = list_to_set (targets_of dataset) /\
    (forall c, c ∈ targets_of dataset ->
       1 <= class_count dataset c /\
       0 <= class_correct (zip predictions (targets_of dataset)) c
         <= class_count dataset c /\
       accs !! c
       = Some (inject_Z (class_correct (zip predictions (targets_of dataset)) c)
               / inject_Z (class_count dataset c))%Q) /\
    accuracy 0 argmax model dataset (Some predictions) 2 None
    = Ok (inject_Z (class_sum (class_correct (zip predictions (targets_of dataset)))
                              (targets_of dataset))
          / inject_Z (class_sum (class_count dataset) (targets_of dataset)))%Q /\
    class_sum (class_count dataset) (targets_of dataset)
    = Z.of_nat (length dataset) /\
    class_sum (class_correct (zip predictions (targets_of dataset)))
              (targets_of dataset)
    = matches predictions (targets_of dataset) (length dataset).
Proof.
  apply accuracy_weighted_average; [simpl; lia|reflexivity].
Defined.

(** On 23 samples, 22 of class 0 with 15 of them predicted right and
    one of class 1 predicted wrong: [accuracy] is 15 / 23, the values
    of [accuracies] are 15 / 22 and 0 / 1. *)
Example accuracy_23 :
  accuracy 0 argmax model dataset23 (Some predictions23) 2 None
  = Ok (15 # 23)%Q.
Proof. reflexivity. Qed.

Example accuracies_23 :
  accuracies 0 argmax model dataset23 (Some predictions23) 2 None
  = Ok (<[0 := (15 # 22)%Q]> {[ 1 := (0 # 1)%Q ]}).
Proof. vm_compute. reflexivity. Qed.

(** C9 as stated fails in two ways.  A predictions tensor with a single
    entry is broadcast by the comparison of [accuracy], while the [zip]
    of [accuracies] stops after one pair: on the targets 1, 1, 0 and the
    single prediction 0, [accuracy] is 1 / 3, [accuracies] has the only
    key 1 with value 0, and the weighted average is 0.  And with one
    prediction per sample, the weighted average computed on doubles, as
    the claim writes it, is not always the double that [accuracy]
    returns: on the 23 samples above the two differ in the last bit
    (0.6521739130434782 against 0.6521739130434783). *)
Lemma accuracy_weighted_average_fails :
  ~ (forall (dataset : list sample) (predictions : list Z),
       exists (a : Q) (accs : gmap Z Q),
         accuracy 0 argmax model dataset (Some predictions) 2 None = Ok a /\
         accuracies 0 argmax model dataset (Some predictions) 2 None = Ok accs /\
         (a == weighted_sum dataset accs
               / inject_Z (Z.of_nat (length dataset)))%Q /\
         dom accs = list_to_set (targets_of dataset)) /\
  accuracy 0 argmax model dataset (Some single_prediction) 2 None
  = Ok (1 # 3)%Q /\
  accuracies 0 argmax model dataset (Some single_prediction) 2 None
  = Ok {[ 1 := (0 # 1)%Q ]} /\
  targets_of dataset = [1; 1; 0] /\
  weighted_sum dataset {[ 1 := (0 # 1)%Q ]} = (0 # 1)%Q /\
  length predictions23 = length dataset23 /\
  accuracy 0 argmax model dataset23 (Some predictions23) 2 None
  = Ok (15 # 23)%Q /\
  accuracies 0 argmax model dataset23 (Some predictions23) 2 None
  = Ok (<[0 := (15 # 22)%Q]> {[ 1 := (0 # 1)%Q ]}) /\
  F64.of_Q (15 # 23) = S754_finite false 5874260383526734 (-53) /\
  weighted_average_f64 dataset23 (<[0 := (15 # 22)%Q]> {[ 1 := (0 # 1)%Q ]})
  = S754_finite false 5874260383526733 (-53).
Proof.
  split; [|repeat split; vm_compute; reflexivity].
  intros H.
  destruct (H dataset single_prediction) as (a & accs & Ha & Haccs & Heq & _).
  assert (Ha' : a = (1 # 3)%Q) by (vm_compute in Ha; congruence).
  assert (Haccs' : accs = {[ 1 := (0 # 1)%Q ]})
    by (vm_compute in Haccs; injection Haccs as <-; vm_compute; reflexivity).
  subst a accs. vm_compute in Heq. discriminate Heq.
Qed.

Lemma predict_argmax_in_order_witness :
  exists p : list Z,
    predict 0 argmax model dataset 2 None = Ok p /\
    length p = length dataset /\
    p = List.map argmax (outputs 0 model (default [] None) 2 dataset) /\
    concat (Torch.batches 2 dataset) = dataset /\
    (forall (layers : Model) (l : Layer) (images : list (list Z)),
        ablated 0 (layers ++ [l]) (default [] None) images
        = List.map (zero_units 0 (default [] None) (name l))
                   (run l (ablated 0 layers (default [] None) images))) /\
    (forall (layer : string) (t : list Z) (i : nat) (a : Z),
        t !! i = Some a ->
        zero_units 0 (default [] None) layer t !! i
        = Some (if bool_decide ((layer, i) ∈ default [] None) then 0 else a)).
Proof.
  apply predict_argmax_in_order; [discriminate|lia|].
  repeat constructor. intros x. simpl. apply length_map.
Defined.

(** C4 as stated fails on the empty dataset: the loader yields no batch
    and [torch.cat] rejects the empty list of predictions. *)
Lemma predict_empty_dataset_raises :
  ~ (forall (model : Model) (dataset : list sample) (batch_size : nat)
            (ablate : option (list Unit)),
       (0 < batch_size)%nat -> row_preserving model ->
       exists p : list Z,
         predict 0 argmax model dataset batch_size ablate = Ok p /\
         length p = length dataset).
Proof.
  intros H.
  destruct (H ClassifierExample.model [] 128%nat None) as [p [Hp _]].
  - lia.
  - repeat constructor. intros x. simpl. apply length_map.
  - discriminate Hp.
Qed.
End ClassifierExampleFacts.

Section FeaturizerExampleFacts.
Import Featurizer FeaturizerExample.

Lemma forward_rows_example (images masks : list nat) :
  exists rows, FeaturizerExample.forward images masks = Ok rows /\
               length rows = length images.
Proof. eexists. split; [reflexivity|]. apply length_map. Qed.

Example map_example :
  Featurizer.map FeaturizerExample.forward dataset 2
  = Ok [[0; 0]; [0; 0]; [0; 0]].
Proof. reflexivity. Qed.

Example map_strings_example :
  Featurizer.map FeaturizerExample.forward (dataset ++ [captioned]) 3
  = Raise ValueError.
Proof. reflexivity. Qed.

Example map_mixed_batch_example :
  Featurizer.map FeaturizerExample.forward (dataset ++ [captioned]) 4
  = Raise TypeError.
Proof. reflexivity. Qed.

Lemma map_rows_and_value_error_witness :
  (exists features : list (list Z),
     Featurizer.map FeaturizerExample.forward dataset 2 = Ok features /\
     length features = length dataset /\
     features
     = concat (List.map (rows_of FeaturizerExample.forward)
                        (Torch.batches 2 dataset)) /\
     concat (Torch.batches 2 dataset) = dataset) /\
  (Featurizer.map FeaturizerExample.forward dataset 2 = Raise ValueError
   <-> Exists not_tensors (yielded (Torch.batches 2 dataset))).
Proof.
  destruct (map_rows_and_value_error FeaturizerExample.forward
              forward_rows_example dataset 2 ltac:(lia)) as [Hrows Herr].
  split; [|exact Herr].
  apply Hrows; [discriminate|].
  repeat constructor; eexists; reflexivity.
Defined.

(** C10 as stated fails on the empty dataset, whose samples all hold
    tensors: the loader yields no batch and [torch.cat] rejects the
    empty list of features, so [map] does not return a dataset of
    length zero. *)
Lemma map_empty_dataset_raises :
  ~ (forall (dataset : list (sample nat)) (batch_size : nat),
       (0 < batch_size)%nat ->
       Forall holds_tensors dataset ->
       exists features : list (list Z),
         Featurizer.map FeaturizerExample.forward dataset batch_size
         = Ok features /\
         length features = length dataset).
Proof.
  intros H.
  destruct (H [] 128%nat) as [features [Hf _]]; [lia|constructor|].
  discriminate Hf.
Qed.
End FeaturizerExampleFacts.

(** * Further properties

    ** The captions file *)

Section Captions.
Import Driver.

Lemma split_cons_other (sep c : ascii) (s : string) :
  Ascii.eqb c sep = false ->
  Py.split sep (String c s)
  = match Py.split sep s with
    | w :: ws => String c w :: ws
    | [] => []
    end.
Proof.
  intros Hc. unfold Py.split. simpl.
  destruct (Py.split_aux sep s) as [w ws]. now rewrite Hc.
Qed.

Lemma split_cons_sep (sep : ascii) (s : string) :
  Py.split sep (String sep s) = EmptyString :: Py.split sep s.
Proof.
  unfold Py.split. simpl.
  destruct (Py.split_aux sep s) as [w ws]. now rewrite Ascii.eqb_refl.
Qed.

Lemma split_nonempty (sep : ascii) (s : string) : Py.split sep s <> [].
Proof. unfold Py.split. now destruct (Py.split_aux sep s). Qed.

Lemma split_app_sep (sep : ascii) (p rest : string) :
  Py.split sep (String.append p (String sep rest))
  = Py.split sep p ++ Py.split sep rest.
Proof.
  induction p as [|c p IH].
  - change (String.append EmptyString (String sep rest)) with (String sep rest).
    now rewrite split_cons_sep.
  - change (String.append (String c p) (String sep rest))
      with (String c (String.append p (String sep rest))).
    destruct (Ascii.eqb c sep) eqn:Hc.
    + apply Ascii.eqb_eq in Hc as ->. now rewrite !split_cons_sep, IH.
    + rewrite !split_cons_other by exact Hc. rewrite IH.
      pose proof (split_nonempty sep p).
      destruct (Py.split sep p); [congruence|reflexivity].
Qed.

Lemma split_join (sep : ascii) (captions : list string) :
  captions <> [] ->
  Py.split sep (Py.join (String sep EmptyString) captions)
  = flat_map (Py.split sep) captions.
Proof.
  induction captions as [|c captions IH]; [congruence|intros _].
  destruct captions as [|c' captions].
  - simpl. now rewrite app_nil_r.
  - change (Py.join (String sep EmptyString) (c :: c' :: captions))
      with (String.append c (String sep (Py.join (String sep EmptyString)
                                                  (c' :: captions)))).
    rewrite split_app_sep, IH by congruence. reflexivity.
Qed.

Lemma split_without_sep (sep : ascii) (s : string) :
  Py.contains sep s = false -> Py.split sep s = [s].
Proof.
  induction s as [|c s IH]; simpl; [reflexivity|].
  intros H. apply orb_false_iff in H as [Hc Hs].
  rewrite split_cons_other by exact Hc. now rewrite IH.
Qed.

Lemma split_length (sep : ascii) (s : string) :
  length (Py.split sep s) = S (Py.count sep s).
Proof.
  induction s as [|c s IH]; [reflexivity|].
  simpl Py.count. destruct (Ascii.eqb c sep) eqn:Hc.
  - apply Ascii.eqb_eq in Hc as ->. rewrite split_cons_sep. simpl. now rewrite IH.
  - rewrite split_cons_other by exact Hc.
    pose proof (split_nonempty sep s).
    destruct (Py.split sep s); [congruence|]. simpl in *. lia.
Qed.

Lemma universal_newlines_id (s : string) :
  Py.contains Py.CR s = false -> Py.universal_newlines s = s.
Proof.
  induction s as [|c s IH]; simpl; [reflexivity|].
  intros H. apply orb_false_iff in H as [Hc Hs].
  rewrite Hc. now rewrite IH.
Qed.

Lemma contains_append (c : ascii) (s t : string) :
  Py.contains c (String.append s t) = Py.contains c s || Py.contains c t.
Proof.
  induction s as [|c' s IH]; [reflexivity|].
  change (String.append (String c' s) t) with (String c' (String.append s t)).
  simpl. now rewrite IH, orb_assoc.
Qed.

Lemma join_without (c : ascii) (sep : string) (parts : list string) :
  Py.contains c sep = false ->
  Forall (fun p => Py.contains c p = false) parts ->
  Py.contains c (Py.join sep parts) = false.
Proof.
  intros Hsep. induction 1 as [|p parts Hp Hparts IH]; [reflexivity|].
  destruct parts as [|p' parts]; [exact Hp|].
  change (Py.join sep (p :: p' :: parts))
    with (String.append p (String.append sep (Py.join sep (p' :: parts)))).
  now rewrite !contains_append, Hp, Hsep, IH.
Qed.

Lemma load_save (captions : list string) :
  Forall (fun c => Py.contains Py.CR c = false) captions ->
  load_captions (save_captions captions)
  = match captions with
    | [] => [EmptyString]
    | _ :: _ => flat_map (Py.split Py.LF) captions
    end.
Proof.
  intros Hcr. unfold load_captions, save_captions.
  rewrite universal_newlines_id by (now apply join_without).
  destruct captions as [|c captions]; [reflexivity|].
  now apply split_join.
Qed.

(** X1: what is saved to [captions.txt] is read back as it was, as long as
    there is a caption and no caption holds a line break. *)
Theorem captions_round_trip (captions : list string) :
  captions <> [] ->
  Forall (fun c => Py.contains Py.LF c = false /\ Py.contains Py.CR c = false)
         captions ->
  load_captions (save_captions captions) = captions.
Proof.
  intros Hne Hclean.
  rewrite load_save by (eapply List.Forall_impl; [|exact Hclean]; now intros c [_ H]).
  destruct captions as [|c0 captions0]; [congruence|].
  clear Hne. induction Hclean as [|c captions [Hlf _] _ IH]; [reflexivity|].
  simpl. rewrite split_without_sep by exact Hlf. simpl. now rewrite IH.
Qed.

(** X2: in general the captions are read back line by line: an empty list
    comes back as one empty caption, and a caption that holds line feeds
    comes back as several. *)
Theorem captions_reloaded_by_line (captions : list string) :
  Forall (fun c => Py.contains Py.CR c = false) captions ->
  load_captions (save_captions captions)
  = match captions with
    | [] => [EmptyString]
    | _ :: _ => flat_map (Py.split Py.LF) captions
    end /\
  length (load_captions (save_captions captions))
  = Nat.max 1 (sum_list (List.map (fun c => S (Py.count Py.LF c)) captions)).
Proof.
  intros Hcr. rewrite load_save by exact Hcr. split; [reflexivity|].
  destruct captions as [|c0 captions0]; [reflexivity|].
  assert (Hlen : forall l : list string,
             length (flat_map (Py.split Py.LF) l)
             = sum_list (List.map (fun c => S (Py.count Py.LF c)) l)).
  { induction l as [|c l IH]; [reflexivity|].
    simpl. rewrite length_app, split_length, IH. reflexivity. }
  rewrite Hlen. simpl. lia.
Qed.
End Captions.

(** ** The experiments that are run *)

Section StableSorting.
Context {A : Type} (key : A -> Q).

Local Abbreviation same := (Py.has_key key).

Lemma insert_stable_filter (k : Q) (x : A) (l : list A) :
  List.filter (same k) (Py.insert_stable key x l)
  = if same k x then x :: List.filter (same k) l else List.filter (same k) l.
Proof.
  induction l as [|y l IH]; [reflexivity|].
  cbn [Py.insert_stable]. destruct (Py.Qltb (key y) (key x)) eqn:Hyx.
  - cbn [List.filter]. rewrite IH.
    destruct (same k x) eqn:Hx; [|reflexivity].
    destruct (same k y) eqn:Hy; [|reflexivity].
    exfalso. unfold Py.has_key in Hx, Hy.
    apply Qeq_bool_iff in Hx, Hy. apply Qltb_true_lt in Hyx.
    rewrite Hx, Hy in Hyx. now apply Qlt_irrefl in Hyx.
  - reflexivity.
Qed.

Lemma stable_sort_filter (k : Q) (l : list A) :
  List.filter (same k) (Py.stable_sort key l) = List.filter (same k) l.
Proof.
  induction l as [|x l IH]; [reflexivity|].
  change (Py.stable_sort key (x :: l))
    with (Py.insert_stable key x (Py.stable_sort key l)).
  rewrite insert_stable_filter, IH. reflexivity.
Qed.

Lemma sorted_filter (reverse : bool) (k : Q) (l : list A) :
  List.filter (fun a => Qeq_bool (key a) k) (Py.sorted key reverse l)
  = List.filter (fun a => Qeq_bool (key a) k) l.
Proof.
  change (fun a => Qeq_bool (key a) k) with (Py.has_key key k).
  unfold Py.sorted. destruct reverse.
  - now rewrite filter_rev, stable_sort_filter, filter_rev, rev_involutive.
  - apply stable_sort_filter.
Qed.
End StableSorting.

Section ExperimentLoop.
Import Driver.

Lemma StronglySorted_weaken {X} (R S : X -> X -> Prop) (l : list X) :
  (forall x y, R x y -> S x y) -> StronglySorted R l -> StronglySorted S l.
Proof.
  intros HRS. induction 1 as [|x l Hl IH Hx]; constructor; [exact IH|].
  eapply List.Forall_impl; [|exact Hx]. intros y. apply HRS.
Qed.

Lemma group_key_order (g h : group) :
  (group_key g <= group_key h)%Q
  <-> String.leb (group_value g) (group_value h) = true.
Proof.
  destruct g, h; split; intros H; try reflexivity; try discriminate H;
    try (unfold Qle in H; simpl in H; lia); unfold Qle; simpl; lia.
Qed.

Lemma in_group (e : experiment) (g : group) :
  In e (EXPERIMENTS_BY_GROUP g) <-> GROUPS_BY_EXPERIMENT e = g.
Proof.
  destruct g, e; simpl; split; intros H; try discriminate H; try reflexivity;
    intuition discriminate.
Qed.

Lemma selected_fold (gs : list group) (s0 : gset experiment) (e : experiment) :
  e ∈ fold_left (fun experiments g =>
                   experiments ∪ list_to_set (EXPERIMENTS_BY_GROUP g)) gs s0
  <-> e ∈ s0 \/ In (GROUPS_BY_EXPERIMENT e) gs.
Proof.
  revert s0. induction gs as [|g gs IH]; intros s0; simpl.
  - tauto.
  - rewrite IH, elem_of_union, elem_of_list_to_set, list_elem_of_In, in_group.
    intuition congruence.
Qed.

(** X3: an experiment is run when [--experiments] names it or [--groups]
    names its group; as [--experiments] defaults to all experiments,
    [--groups] alone narrows nothing. *)
Theorem selected_experiments (args_experiments : list experiment)
    (args_groups : option (list group)) (e : experiment) :
  (e ∈ selected args_experiments args_groups
   <-> In e args_experiments
       \/ In (GROUPS_BY_EXPERIMENT e) (default [] args_groups)) /\
  e ∈ selected EXPERIMENTS args_groups.
Proof.
  unfold selected. rewrite !selected_fold, !elem_of_list_to_set, !list_elem_of_In.
  split; [reflexivity|]. left. destruct e; simpl; tauto.
Qed.

(** X4: the experiments are run group after group, the groups in the order
    of their names as strings (random, semantic, structural, syntactic);
    every experiment of the set is run once, and the experiments of one
    group keep the order in which the set yields them. *)
Theorem experiment_order_by_group_name (iteration : list experiment) :
  Permutation (experiment_order iteration) iteration /\
  StronglySorted
    (fun e1 e2 => String.leb (group_value (GROUPS_BY_EXPERIMENT e1))
                             (group_value (GROUPS_BY_EXPERIMENT e2)) = true)
    (experiment_order iteration) /\
  (forall g, List.filter (fun e => bool_decide (GROUPS_BY_EXPERIMENT e = g))
                         (experiment_order iteration)
             = List.filter (fun e => bool_decide (GROUPS_BY_EXPERIMENT e = g))
                           iteration).
Proof.
  unfold experiment_order. split; [apply sorted_perm|]. split.
  - eapply StronglySorted_weaken; [|apply sorted_increasing].
    intros e1 e2 H. now apply group_key_order.
  - intros g.
    pose proof (sorted_filter (fun exp => group_key (GROUPS_BY_EXPERIMENT exp))
                              false (group_key g) iteration) as H.
    erewrite (List.filter_ext _ (fun e => Qeq_bool (group_key (GROUPS_BY_EXPERIMENT e))
                                                   (group_key g))).
    2:{ intros e. destruct (GROUPS_BY_EXPERIMENT e), g; reflexivity. }
    rewrite H. apply List.filter_ext.
    intros e. destruct (GROUPS_BY_EXPERIMENT e), g; reflexivity.
Qed.
End ExperimentLoop.

(** ** Scores, ranking and sweep *)

Section ScoreErrors.
Import Driver.
Variable nlp : string -> list token.
Variable similarity : list token -> list token -> Q.
Variable vector : token -> list Q.
Variable rand : nat -> nat -> Q.

Lemma traverse_raise_exists {A B} (f : A -> result B) (l : list A) (e : exn) :
  traverse f l = Raise e -> Exists (fun x => f x = Raise e) l.
Proof.
  induction l as [|x l IH]; simpl; [discriminate|].
  destruct (f x) as [y|e'] eqn:Hx.
  - destruct (traverse f l) as [ys|e'']; [discriminate|].
    intros [= ->]. right. now apply IH.
  - intros [= ->]. now left.
Qed.

Lemma traverse_exists_raise {A B} (f : A -> result B) (l : list A) (e : exn) :
  (forall x e', f x = Raise e' -> e' = e) ->
  Exists (fun x => exists e', f x = Raise e') l ->
  traverse f l = Raise e.
Proof.
  intros Hone. induction l as [|x l IH]; intros Hex.
  - inversion Hex.
  - simpl. destruct (f x) as [y|e'] eqn:Hx.
    + rewrite IH; [reflexivity|].
      inversion Hex as [? ? [e' He']|]; subst; [congruence|assumption].
    + now rewrite (Hone x e' Hx).
Qed.

Lemma parse_depth_raise (tokens : list token) (e : exn) :
  parse_depth tokens = Raise e
  <-> find_root tokens = None /\ e = AssertionError.
Proof.
  unfold parse_depth. destruct (find_root tokens) as [root|].
  - split; [discriminate|]. now intros [? _].
  - split; [now intros [= <-]|]. now intros [_ ->].
Qed.

Lemma max_word_difference_raise (tokens : list token) (e : exn) :
  max_word_difference vector tokens = Raise e
  <-> tokens = [] /\ e = RuntimeError.
Proof.
  unfold max_word_difference. destruct tokens as [|t tokens]; simpl.
  - split; [now intros [= <-]|]. now intros [_ ->].
  - split; [discriminate|]. now intros [? _].
Qed.

(** X5: the score computation of an experiment fails in two cases only:
    the parse-depth experiment fails its assertion on a caption without
    a [ROOT] token, and the max-word-difference experiment fails in
    [torch.stack] on a caption without tokens. *)
Theorem scores_raise (e : experiment) (trial : nat) (captions : list string)
    (err : exn) :
  scores nlp similarity vector rand e trial captions = Raise err
  <-> (e = EXPERIMENT_PARSE_DEPTH /\ err = AssertionError /\
       Exists (fun caption => find_root (nlp caption) = None) captions)
      \/ (e = EXPERIMENT_MAX_WORD_DIFFERENCE /\ err = RuntimeError /\
          Exists (fun caption => nlp caption = []) captions).
Proof.
  split.
  - destruct e; unfold scores; simpl; try discriminate.
    + intros H. right. split; [reflexivity|].
      apply traverse_raise_exists in H. rewrite Exists_map in H.
      assert (Herr : err = RuntimeError).
      { apply Exists_exists in H as (c & _ & Hc).
        now apply max_word_difference_raise in Hc. }
      split; [exact Herr|].
      eapply List.Exists_impl; [|exact H]. intros c Hc.
      now apply max_word_difference_raise in Hc.
    + intros H. left. split; [reflexivity|].
      unfold parse_depth_scores in H.
      apply traverse_raise_exists in H. rewrite Exists_map in H.
      assert (Hone : forall c,
                 (fun d : nat => inject_Z (Z.of_nat d)) <$> parse_depth (nlp c)
                 = Raise err ->
                 find_root (nlp c) = None /\ err = AssertionError).
      { intros c Hc. apply parse_depth_raise.
        destruct (parse_depth (nlp c)) as [d|e']; [discriminate|].
        injection Hc as ->. reflexivity. }
      split.
      * apply Exists_exists in H as (c & _ & Hc). now apply Hone in Hc.
      * eapply List.Exists_impl; [|exact H]. intros c Hc. now apply Hone in Hc.
  - intros [(-> & -> & H)|(-> & -> & H)]; unfold scores; simpl.
    + unfold parse_depth_scores. apply traverse_exists_raise.
      * intros tokens e' He'.
        destruct (parse_depth tokens) as [d|e''] eqn:Hd; [discriminate|].
        injection He' as <-. now apply parse_depth_raise in Hd.
      * rewrite Exists_map. eapply List.Exists_impl; [|exact H].
        intros c Hc. exists AssertionError.
        assert (Hd : parse_depth (nlp c) = Raise AssertionError)
          by now apply parse_depth_raise.
        now rewrite Hd.
    + apply traverse_exists_raise.
      * intros tokens e' He'. now apply max_word_difference_raise in He'.
      * rewrite Exists_map. eapply List.Exists_impl; [|exact H].
        intros c Hc. exists RuntimeError.
        now apply max_word_difference_raise.
Qed.

Lemma Qsquare_nonneg (x : Q) : (0 <= x * x)%Q.
Proof. destruct x as [n d]. unfold Qle. simpl. nia. Qed.

Lemma squared_distance_nonneg (u v : list Q) : (0 <= squared_distance u v)%Q.
Proof.
  unfold squared_distance. revert v.
  induction u as [|a u IH]; intros [|b v]; simpl; try apply Qle_refl.
  refine (Qplus_le_compat 0 _ 0 _ _ _); [|apply IH].
  apply Qsquare_nonneg.
Qed.

Lemma squared_distance_self (u : list Q) : (squared_distance u u == 0)%Q.
Proof.
  unfold squared_distance. induction u as [|a u IH]; simpl; [reflexivity|].
  rewrite IH. ring.
Qed.

Lemma max_of_upper (x : Q) (l : list Q) :
  forall y, In y (x :: l) -> (y <= max_of x l)%Q.
Proof.
  unfold max_of. revert x. induction l as [|z l IH]; intros x y Hy.
  - destruct Hy as [<-|[]]. apply Qle_refl.
  - simpl. destruct (Py.Qltb x z) eqn:Hxz.
    + apply Qltb_true_lt in Hxz.
      destruct Hy as [<-|Hy].
      * eapply Qle_trans; [apply Qlt_le_weak, Hxz|]. apply IH. now left.
      * now apply IH.
    + apply Qltb_false_le in Hxz.
      destruct Hy as [<-|[<-|Hy]].
      * apply IH. now left.
      * eapply Qle_trans; [exact Hxz|]. apply IH. now left.
      * apply IH. now right.
Qed.

Lemma max_of_attained (x : Q) (l : list Q) : In (max_of x l) (x :: l).
Proof.
  unfold max_of. revert x. induction l as [|z l IH]; intros x; [now left|].
  simpl. destruct (Py.Qltb x z).
  - right. apply IH.
  - destruct (IH x) as [H|H]; [now left|right; now right].
Qed.

(** X6: the score of the max-word-difference experiment is the largest
    squared distance between the vectors of two tokens of the caption:
    no pair of tokens lies further apart, some pair lies that far apart,
    and a caption of a single token scores zero. *)
Theorem max_word_difference_largest (tokens : list token) :
  tokens <> [] ->
  exists score : Q,
    max_word_difference vector tokens = Ok score /\
    (forall u v, In u tokens -> In v tokens ->
                 (squared_distance (vector u) (vector v) <= score)%Q) /\
    (exists u v, In u tokens /\ In v tokens /\
                 score = squared_distance (vector u) (vector v)) /\
    (0 <= score)%Q /\
    (length tokens = 1%nat -> (score == 0)%Q).
Proof.
  intros Hne. unfold max_word_difference.
  set (vectors := List.map vector tokens).
  set (pairs := flat_map (fun u => List.map (squared_distance u) vectors) vectors).
  assert (Hin : forall d, In d pairs
                          <-> exists u v, In u tokens /\ In v tokens /\
                                          d = squared_distance (vector u) (vector v)).
  { intros d. unfold pairs, vectors. rewrite in_flat_map. split.
    - intros (x & Hx & Hd). apply in_map_iff in Hx as (u & <- & Hu).
      apply in_map_iff in Hd as (y & <- & Hy).
      apply in_map_iff in Hy as (v & <- & Hv). now exists u, v.
    - intros (u & v & Hu & Hv & ->). exists (vector u). split.
      + now apply in_map.
      + apply in_map. now apply in_map. }
  destruct pairs as [|d distances] eqn:Hpairs.
  { destruct tokens as [|t tokens]; [congruence|].
    exfalso. assert (H : In (squared_distance (vector t) (vector t)) [])
      by (apply Hin; exists t, t; repeat split; now left).
    inversion H. }
  exists (max_of d distances). split; [reflexivity|]. split; [|split; [|split]].
  - intros u v Hu Hv. apply max_of_upper. apply Hin. now exists u, v.
  - apply Hin. apply max_of_attained.
  - destruct (proj1 (Hin _) (max_of_attained d distances)) as (u & v & _ & _ & ->).
    apply squared_distance_nonneg.
  - intros Hone. destruct tokens as [|t [|t' tokens]]; try discriminate.
    unfold vectors in Hpairs. simpl in Hpairs. injection Hpairs as <- <-.
    apply squared_distance_self.
Qed.
End ScoreErrors.

Section Ranking.
Import Driver.

(** X7: units with the same score are ranked by their index, in both
    orders: among the units whose score is [k], the ranking lists the
    smaller index first. *)
Theorem indices_ties_in_unit_order (captions : list string) (scs : list Q)
    (o : order) (idx : list nat) (k : Q) :
  indices captions scs o = Ok idx ->
  List.filter (fun i => Qeq_bool (score_at scs i) k) idx
  = List.filter (fun i => Qeq_bool (score_at scs i) k)
                (Py.range (length captions)).
Proof.
  unfold indices.
  destruct (length scs <? length captions)%nat; [discriminate|].
  intros [= <-]. apply (sorted_filter (score_at scs)).
Qed.

Lemma slice_to_take {X} (k : Z) (l : list X) :
  exists n, Py.slice_to k l = take n l.
Proof. unfold Py.slice_to. destruct (k <? 0); eexists; reflexivity. Qed.

Lemma indices_perm (captions : list string) (scs : list Q) (o : order)
    (idx : list nat) :
  indices captions scs o = Ok idx ->
  Permutation idx (Py.range (length captions)).
Proof.
  unfold indices.
  destruct (length scs <? length captions)%nat; [discriminate|].
  intros [= <-]. apply sorted_perm.
Qed.

(** X9: whatever the fraction (negative, or larger than one), a list of
    ablated units is a prefix of the ranking: distinct indices of units
    of the network, no more than there are units.  The slice returns
    whenever the product [fraction * len(indices)] is a finite double;
    and from fraction one on all units are ablated, for fewer than
    [2 ^ 53] units and a product that does not overflow. *)
Theorem ablated_units_distinct_in_range (captions : list string)
    (scs : list Q) (o : order) (idx : list nat) (f : F64.float) :
  indices captions scs o = Ok idx ->
  (forall l, ablated idx f = Ok l ->
     l `prefix_of` idx /\
     List.NoDup l /\
     Forall (fun unit => (unit < length captions)%nat) l /\
     (length l <= length captions)%nat) /\
  (F64.is_finite (F64.mul f (F64.of_Z (Z.of_nat (length captions)))) = true ->
   exists l, ablated idx f = Ok l) /\
  (F64.nonneg f -> (1 <= F64.to_Q f)%Q ->
   Z.of_nat (length captions) < 2 ^ 53 ->
   F64.is_finite (F64.mul f (F64.of_Z (Z.of_nat (length captions)))) = true ->
   ablated idx f = Ok idx).
Proof.
  intros Hidx. apply indices_perm in Hidx.
  assert (Hnodup : List.NoDup idx).
  { eapply Permutation_NoDup; [symmetry; exact Hidx|]. apply List.seq_NoDup. }
  assert (Hrange : Forall (fun unit => (unit < length captions)%nat) idx).
  { apply List.Forall_forall. intros u Hu.
    apply (Permutation_in _ Hidx) in Hu. apply in_seq in Hu. lia. }
  assert (Hlen : length idx = length captions).
  { rewrite (Permutation_length Hidx). unfold Py.range. apply length_seq. }
  split; [|split].
  - intros l. unfold ablated.
    destruct (Py.int _) as [k|err]; [|discriminate]. simpl. intros [= <-].
    destruct (slice_to_take k idx) as [n ->].
    split; [apply prefix_take|]. split; [|split].
    + rewrite <- (firstn_skipn n idx) in Hnodup.
      now apply List.NoDup_app_remove_r in Hnodup.
    + rewrite <- (take_drop n idx) in Hrange.
      now apply Forall_app in Hrange as [? _].
    + rewrite length_take. lia.
  - intros Hfin. unfold ablated. rewrite Hlen, (int_finite _ Hfin). simpl.
    eauto.
  - intros Hf Hone Hn Hfin.
    set (N := Z.of_nat (length captions)) in *.
    destruct (of_Z_exact N ltac:(lia)) as [HN HNq].
    destruct (of_Z_exact 1 ltac:(lia)) as [H1 H1q].
    assert (Hle : (F64.to_Q (F64.of_Z 1) <= F64.to_Q f)%Q) by (rewrite H1q; exact Hone).
    destruct (mul_mono _ _ _ H1 Hf HN Hle Hfin) as (_ & _ & Hmono).
    assert (Hq : (F64.to_Q (F64.of_Z 1) * F64.to_Q (F64.of_Z N) < 2 ^ 53)%Q).
    { rewrite H1q, HNq, Qmult_1_l, <- pow2_Z by lia. rewrite <- Zlt_Qlt. lia. }
    destruct (mul_int_bounds _ _ N H1 HN Hq) as (_ & Hlow & _).
    assert (HNle : (inject_Z N <= F64.to_Q (F64.mul f (F64.of_Z N)))%Q).
    { eapply Qle_trans; [|exact Hmono]. apply Hlow.
      rewrite H1q, HNq, Qmult_1_l. apply Qle_refl. }
    pose proof (mul_nonneg _ _ Hf HN Hfin) as Hp.
    pose proof (ablated_finite_product idx f) as Hab.
    rewrite Hlen in Hab. fold N in Hab. rewrite (Hab Hp).
    f_equal. apply take_ge. rewrite Hlen. fold N.
    apply Qfloor_resp_le in HNle. rewrite Qfloor_Z in HNle. lia.
Qed.
(** X8: a sweep that starts at a fraction that is not negative, with a
    step that is not negative, starts at [ablation_min] and never goes
    below it: its first fraction is [ablation_min] itself, and every
    fraction of it that is a finite number is a double that is not
    negative and not below [ablation_min]. *)
Theorem fractions_from_min (a : args) (fs : list F64.float) :
  F64.nonneg (ablation_min a) -> F64.nonneg (ablation_step_size a) ->
  fractions a = Ok fs ->
  (forall f, fs !! 0%nat = Some f -> f = ablation_min a) /\
  (forall i f, fs !! i = Some f -> F64.is_finite f = true ->
     F64.nonneg f /\ (F64.to_Q (ablation_min a) <= F64.to_Q f)%Q).
Proof.
  intros Hmin Hstep Hfs. split.
  - intros f Hf. exact (arange_lookup _ _ _ _ _ _ Hfs Hf).
  - intros i f Hf Hfin.
    pose proof (arange_lookup _ _ _ _ _ _ Hfs Hf) as ->.
    destruct (fill_upward _ _ 0 i Hmin Hstep ltac:(lia) Hfin) as (_ & Hn & Hle).
    split; [exact Hn|exact Hle].
Qed.
End Ranking.

Section BelowZero.
Import Driver.

(** X25: below zero the slice counts from the end of the ranking.  For a
    negative fraction [f] and [N] units, [int] truncates the product of
    doubles [f * N] to [-k], where [k], the integer part of the
    magnitude of the rounded product, lies between [floor(-f * N)] and
    [ceil(-f * N)]; the slice ablates all the units but the last [k] of
    the ranking when [k >= 1], and no unit when [k = 0]. *)
Theorem ablated_below_zero (idx : list nat) (f : F64.float) :
  F64.valid f = true -> (F64.to_Q f < 0)%Q ->
  Z.of_nat (length idx) < 2 ^ 53 ->
  (- F64.to_Q f * inject_Z (Z.of_nat (length idx)) < 2 ^ 53)%Q ->
  exists k : Z,
    Py.int (F64.mul f (F64.of_Z (Z.of_nat (length idx)))) = Ok (- k) /\
    Qfloor (- F64.to_Q f * inject_Z (Z.of_nat (length idx))) <= k
    <= Qceiling (- F64.to_Q f * inject_Z (Z.of_nat (length idx))) /\
    ablated idx f
    = Ok (if k =? 0 then [] else take (length idx - Z.to_nat k) idx).
Proof.
  intros Hv Hf Hn Hq.
  set (N := Z.of_nat (length idx)) in *.
  destruct (of_Z_exact N ltac:(lia)) as [HN HNq].
  rewrite <- HNq in Hq.
  destruct (mul_neg_int_bounds f (F64.of_Z N) Hv Hf HN Hq)
    as (Hfin & Hneg & Hint).
  set (p := F64.mul f (F64.of_Z N)) in *.
  exists (Qfloor (- F64.to_Q p)).
  assert (Hk : 0 <= Qfloor (- F64.to_Q p)).
  { change 0 with (Qfloor 0). apply Qfloor_resp_le. lra. }
  assert (Hp : Py.int p = Ok (- Qfloor (- F64.to_Q p))).
  { rewrite (int_finite p Hfin). f_equal. now apply truncate_nonpos. }
  split; [exact Hp|]. split.
  - rewrite <- HNq.
    set (q := (- F64.to_Q f * F64.to_Q (F64.of_Z N))%Q) in *.
    split.
    + destruct (Hint (Qfloor q)) as [Hlow _].
      specialize (Hlow (Qfloor_le q)).
      apply Qfloor_resp_le in Hlow. now rewrite Qfloor_Z in Hlow.
    + destruct (Hint (Qceiling q)) as [_ Hup].
      specialize (Hup (Qle_ceiling q)).
      apply Qfloor_resp_le in Hup. now rewrite Qfloor_Z in Hup.
  - unfold ablated. fold N p. rewrite Hp.
    set (k := Qfloor (- F64.to_Q p)) in *.
    change (Ok (Py.slice_to (- k) idx)
            = Ok (if k =? 0 then [] else take (length idx - Z.to_nat k) idx)).
    f_equal. unfold Py.slice_to.
    destruct (Z.eqb_spec k 0) as [H0|Hne].
    + rewrite H0. reflexivity.
    + destruct (Z.ltb_spec (- k) 0); [|lia].
      f_equal. lia.
Qed.
End BelowZero.

Section DriverExamples.
Import Driver Examples SweepExamples ParseExamples.

Lemma captions_round_trip_witness :
  load_captions (save_captions captions3) = captions3.
Proof.
  apply captions_round_trip; [discriminate|].
  repeat constructor.
Defined.

Lemma captions_reloaded_by_line_witness :
  load_captions (save_captions [two_lines; "sky"%string])
  = flat_map (Py.split Py.LF) [two_lines; "sky"%string] /\
  length (load_captions (save_captions [two_lines; "sky"%string]))
  = Nat.max 1 (sum_list (List.map (fun c => S (Py.count Py.LF c))
                                  [two_lines; "sky"%string])).
Proof.
  apply (captions_reloaded_by_line [two_lines; "sky"%string]).
  repeat constructor.
Defined.

Example captions_reloaded_example :
  load_captions (save_captions [two_lines; "sky"%string])
  = ["a"; "b"; "sky"]%string /\
  load_captions (save_captions []) = [EmptyString].
Proof. split; reflexivity. Qed.

Lemma max_word_difference_largest_witness :
  exists score : Q,
    max_word_difference word_vector [dog; a_] = Ok score /\
    (forall u v, In u [dog; a_] -> In v [dog; a_] ->
                 (squared_distance (word_vector u) (word_vector v) <= score)%Q) /\
    (exists u v, In u [dog; a_] /\ In v [dog; a_] /\
                 score = squared_distance (word_vector u) (word_vector v)) /\
    (0 <= score)%Q /\
    (length [dog; a_] = 1%nat -> (score == 0)%Q).
Proof.
  apply (max_word_difference_largest word_vector [dog; a_]). discriminate.
Defined.

Lemma indices_ties_in_unit_order_witness :
  List.filter (fun i => Qeq_bool (score_at tied_scores i) 5) [1; 0; 2]%nat
  = List.filter (fun i => Qeq_bool (score_at tied_scores i) 5)
                (Py.range (length captions3)).
Proof.
  apply (indices_ties_in_unit_order captions3 tied_scores ORDER_DECREASING).
  reflexivity.
Defined.

Lemma fractions_from_min_witness :
  (forall f, [F64.of_Z 0; F64.of_Q (1 # 3); F64.of_Q (2 # 3)] !! 0%nat = Some f ->
             f = ablation_min thirds_sweep) /\
  (forall i f,
      [F64.of_Z 0; F64.of_Q (1 # 3); F64.of_Q (2 # 3)] !! i = Some f ->
      F64.is_finite f = true ->
      F64.nonneg f /\ (F64.to_Q (ablation_min thirds_sweep) <= F64.to_Q f)%Q).
Proof.
  apply (fractions_from_min thirds_sweep).
  - split; [reflexivity|]. split; [reflexivity|].
    vm_compute. intros H. discriminate H.
  - split; [reflexivity|]. split; [reflexivity|].
    vm_compute. intros H. discriminate H.
  - vm_compute. reflexivity.
Defined.

Lemma ablated_units_distinct_in_range_witness :
  (forall l, ablated [1; 0; 2]%nat (F64.of_Z 1) = Ok l ->
     l `prefix_of` [1; 0; 2]%nat /\
     List.NoDup l /\
     Forall (fun unit => (unit < length captions3)%nat) l /\
     (length l <= length captions3)%nat) /\
  (exists l, ablated [1; 0; 2]%nat (F64.of_Z 1) = Ok l) /\
  ablated [1; 0; 2]%nat (F64.of_Z 1) = Ok [1; 0; 2]%nat.
Proof.
  destruct (ablated_units_distinct_in_range captions3 scores3 ORDER_DECREASING
              [1; 0; 2]%nat (F64.of_Z 1) eq_refl) as (Hpre & Hret & Hall).
  split; [exact Hpre|]. split; [now apply Hret|].
  apply Hall.
  - split; [reflexivity|]. split; [reflexivity|].
    vm_compute. intros H. discriminate H.
  - vm_compute. intros H. discriminate H.
  - reflexivity.
  - reflexivity.
Defined.

Lemma ablation_sweep_grows_witness : [1]%nat `prefix_of` [1; 0]%nat.
Proof.
  apply (ablation_sweep_grows thirds_sweep captions3 scores3 ORDER_DECREASING
           [[]; [1]; [1; 0]]%nat) with (i := 1%nat) (j := 2%nat).
  - split; [reflexivity|]. split; [reflexivity|].
    vm_compute. intros H. discriminate H.
  - split; [reflexivity|]. split; [reflexivity|].
    vm_compute. intros H. discriminate H.
  - vm_compute. reflexivity.
  - lia.
  - reflexivity.
  - reflexivity.
Defined.

Lemma ablated_below_zero_witness :
  exists k : Z,
    Py.int (F64.mul (F64.of_Q (-1 # 2))
                    (F64.of_Z (Z.of_nat (length [1; 0; 2]%nat)))) = Ok (- k) /\
    Qfloor (- F64.to_Q (F64.of_Q (-1 # 2))
            * inject_Z (Z.of_nat (length [1; 0; 2]%nat))) <= k
    <= Qceiling (- F64.to_Q (F64.of_Q (-1 # 2))
                 * inject_Z (Z.of_nat (length [1; 0; 2]%nat))) /\
    ablated [1; 0; 2]%nat (F64.of_Q (-1 # 2))
    = Ok (if k =? 0 then []
          else take (length [1; 0; 2]%nat - Z.to_nat k) [1; 0; 2]%nat).
Proof.
  apply (ablated_below_zero [1; 0; 2]%nat (F64.of_Q (-1 # 2))).
  - reflexivity.
  - reflexivity.
  - reflexivity.
  - reflexivity.
Defined.

(** The slice below zero follows the rounded product: ten times the
    double written [-0.3] is the double [-3], and [indices[:-3]] drops
    three units where [floor(0.3 * 10)] on the exact product of the
    double is 2. *)
Example ablated_below_zero_rounds :
  ablated (Py.range 10) (F64.of_Q (-3 # 10)) = Ok (Py.range 7) /\
  Qfloor (- F64.to_Q (F64.of_Q (-3 # 10)) * 10) = 2.
Proof. split; vm_compute; reflexivity. Qed.
End DriverExamples.

(** ** More on the classifier *)

Section ClassAccuracies.
Import Classifiers.
Context {act : Type} (zero : act) (argmax : list act -> Z).

Local Abbreviation sample := (@Classifiers.sample act).
Local Abbreviation Model := (@Classifiers.Model act).

(** X15: [accuracies] with given predictions never fails: the assertion on
    the keys holds and no class is divided by zero.  Its keys are the
    targets of the pairs that [zip] forms, and the value of a class is
    the number of right predictions among the pairs of that class,
    divided by the number of those pairs. *)
Theorem accuracies_per_class (model : Model) (dataset : list sample)
    (predictions : list Z) (batch_size : nat) (ablate : option (list Unit)) :
  exists accs : gmap Z Q,
    accuracies zero argmax model dataset (Some predictions) batch_size ablate
    = Ok accs /\
    dom accs = list_to_set (zip predictions (targets_of dataset)).*2 /\
    forall c, c ∈ (zip predictions (targets_of dataset)).*2 ->
      1 <= class_total (zip predictions (targets_of dataset)) c /\
      0 <= class_correct (zip predictions (targets_of dataset)) c
        <= class_total (zip predictions (targets_of dataset)) c /\
      accs !! c
      = Some (inject_Z (class_correct (zip predictions (targets_of dataset)) c)
              / inject_Z (class_total (zip predictions (targets_of dataset)) c))%Q.
Proof.
  destruct (accuracies_counted zero argmax model dataset predictions
              batch_size ablate)
    as (correct & total & Haccs & Hdom & Htot & Hcor).
  eexists. split; [exact Haccs|]. split.
  - now rewrite accuracies_dom.
  - intros c Hc. split; [|split; [apply class_correct_le_total|]].
    + unfold class_total. pose proof (filter_eqb_pos c _ Hc). lia.
    + assert (Hin : c ∈ dom correct)
        by (rewrite Hdom; now apply elem_of_list_to_set).
      apply elem_of_dom in Hin as [v Hv].
      rewrite map_lookup_imap, Hv. simpl.
      specialize (Hcor c). rewrite Hv in Hcor. simpl in Hcor.
      now rewrite Htot, Hcor.
Qed.

Lemma predict_empty (model : Model) (batch_size : nat)
    (ablate : option (list Unit)) :
  raises (predict zero argmax model [] batch_size ablate).
Proof.
  unfold predict, Torch.DataLoader. destruct batch_size as [|n]; simpl.
  - now exists ValueError.
  - simp batches. simpl. now exists RuntimeError.
Qed.

(** X13: on an empty dataset [accuracy] always fails: [predict] fails, and
    with given predictions the number of right ones is divided by
    zero; [accuracies] with an empty tensor of predictions returns an
    empty dictionary. *)
Theorem accuracy_of_empty_dataset (model : Model)
    (predictions : option (list Z)) (batch_size : nat)
    (ablate : option (list Unit)) :
  raises (accuracy zero argmax model [] predictions batch_size ablate) /\
  accuracy zero argmax model [] (Some []) batch_size ablate
  = Raise ZeroDivisionError /\
  accuracies zero argmax model [] (Some []) batch_size ablate = Ok ∅.
Proof.
  split; [|split; reflexivity].
  unfold accuracy. destruct predictions as [p|].
  - simpl. unfold Torch.eq. simpl.
    destruct p as [|x [|y p]]; simpl.
    + now exists ZeroDivisionError.
    + now exists ZeroDivisionError.
    + now exists RuntimeError.
  - destruct (predict_empty model batch_size ablate) as [e ->].
    now exists e.
Qed.

(** X14: [accuracy] rejects predictions whose number is not that of the
    samples, unless one of the two tensors has a single element, which
    is then compared with every element of the other. *)
Theorem accuracy_rejects_wrong_length (model : Model) (dataset : list sample)
    (predictions : list Z) (batch_size : nat) (ablate : option (list Unit)) :
  length predictions <> length dataset ->
  length predictions <> 1%nat -> length dataset <> 1%nat ->
  accuracy zero argmax model dataset (Some predictions) batch_size ablate
  = Raise RuntimeError.
Proof.
  intros Hne Hp Hd. unfold accuracy. simpl. unfold Torch.eq, targets_of.
  rewrite length_map.
  destruct (Nat.eqb_spec (length predictions) (length dataset)); [congruence|].
  destruct predictions as [|x [|y p]]; destruct dataset as [|s [|s' d]];
    simpl in *; congruence.
Qed.
End ClassAccuracies.

Section Broadcast.
Import Classifiers.
Context {act : Type} (zero : act) (argmax : list act -> Z).

Local Abbreviation sample := (@Classifiers.sample act).
Local Abbreviation Model := (@Classifiers.Model act).

Lemma sum_map_eqb (p : Z) (targets : list Z) :
  Torch.sum (List.map (Z.eqb p) targets)
  = Z.of_nat (length (List.filter (Z.eqb p) targets)).
Proof.
  unfold Torch.sum. f_equal. rewrite filter_length_map. reflexivity.
Qed.

(** X26: [accuracy] accepts a single precomputed prediction for a dataset of
    any size: the prediction is compared with every target, and the
    result is the fraction of the samples whose target it is. *)
Theorem accuracy_broadcasts_single_prediction (model : Model)
    (dataset : list sample) (p : Z) (batch_size : nat)
    (ablate : option (list Unit)) :
  (1 <= length dataset)%nat ->
  accuracy zero argmax model dataset (Some [p]) batch_size ablate
  = Ok (inject_Z (class_count dataset p)
        / inject_Z (Z.of_nat (length dataset)))%Q.
Proof.
  intros Hn. unfold accuracy, class_count. simpl.
  assert (Heq : Torch.eq [p] (targets_of dataset)
                = Ok (List.map (Z.eqb p) (targets_of dataset))).
  { unfold Torch.eq, targets_of. rewrite length_map.
    destruct dataset as [|s [|s' dataset]]; simpl in *; [lia| |]; reflexivity. }
  rewrite Heq. simpl. rewrite sum_map_eqb.
  unfold true_div.
  destruct (Z.eqb_spec (Z.of_nat (length dataset)) 0); [lia|reflexivity].
Qed.
End Broadcast.

Section BatchSize.
Import Classifiers.
Context {act : Type} (zero : act) (argmax : list act -> Z).

Local Abbreviation sample := (@Classifiers.sample act).
Local Abbreviation Model := (@Classifiers.Model act).

Lemma ablated_rowwise (model : Model) (units : list Unit) :
  rowwise model ->
  exists g, forall images, ablated zero model units images = List.map g images.
Proof.
  unfold ablated. induction 1 as [|l model [f Hf] _ [g Hg]].
  - exists (fun t => t). intros images. simpl. now rewrite map_id.
  - exists (fun t => g (zero_units zero units (name l) (f t))).
    intros images. simpl. rewrite Hg, Hf, !List.map_map. reflexivity.
Qed.

(** X12: for a model that treats the images of a batch one by one, the
    predictions do not depend on the batch size. *)
Theorem predict_batch_size_independent (model : Model) (dataset : list sample)
    (ablate : option (list Unit)) (b1 b2 : nat) :
  rowwise model -> (0 < b1)%nat -> (0 < b2)%nat ->
  predict zero argmax model dataset b1 ablate
  = predict zero argmax model dataset b2 ablate.
Proof.
  intros Hrow H1 H2.
  destruct dataset as [|s dataset].
  - unfold predict, Torch.DataLoader.
    destruct b1 as [|b1]; [lia|]. destruct b2 as [|b2]; [lia|].
    simpl. simp batches. reflexivity.
  - destruct (ablated_rowwise model (default [] ablate) Hrow) as [g Hg].
    assert (Hout : forall b, (0 < b)%nat ->
               outputs zero model (default [] ablate) b (s :: dataset)
               = List.map (fun x => g (s_image x)) (s :: dataset)).
    { intros b Hb. unfold outputs.
      rewrite <- (batches_concat b (s :: dataset) Hb) at 2.
      rewrite concat_map. f_equal.
      apply map_ext. intros batch. now rewrite Hg, List.map_map. }
    rewrite !predict_outputs by (congruence || assumption).
    now rewrite !Hout.
Qed.
End BatchSize.

Section FitParameters.
Import Classifiers.
Context {P : Type}.


End FitParameters.

Section EvaluationFacts.
Import Classifiers Evaluation.
Context {act : Type} (zero : act) (argmax : list act -> Z).
Variable units : list nat -> list Unit.

Local Abbreviation sample := (@Classifiers.sample act).
Local Abbreviation Model := (@Classifiers.Model act).

(** X11: one turn of the loop over the fractions fails on an empty dataset
    only: on any other dataset, the predictions of a model that returns
    one row per image are one per sample, so that [accuracy] and
    [accuracies] both accept them; the accuracy lies between 0 and 1 and
    there is one class accuracy for every target of the dataset. *)
Theorem evaluate_succeeds (cnn : Model) (dataset : list sample)
    (ablated : list nat) :
  row_preserving cnn ->
  (dataset = [] ->
   evaluate zero argmax units cnn dataset ablated = Raise RuntimeError) /\
  (dataset <> [] ->
   exists (a : Q) (accs : gmap Z Q),
     evaluate zero argmax units cnn dataset ablated = Ok (a, accs) /\
     (0 <= a)%Q /\ (a <= 1)%Q /\
     dom accs = list_to_set (targets_of dataset)).
Proof.
  intros Hrows. split.
  - intros ->. unfold evaluate, predict, Torch.DataLoader. simpl.
    simp batches. reflexivity.
  - intros Hne. unfold evaluate.
    rewrite predict_outputs by (exact Hne || lia).
    set (predictions := List.map argmax _).
    assert (Hlen : length predictions = length dataset).
    { unfold predictions. rewrite length_map.
      apply outputs_length; [lia|exact Hrows]. }
    assert (Hn : (1 <= length dataset)%nat)
      by (destruct dataset; [congruence|simpl; lia]).
    cbn [mbind result_bind].
    rewrite (accuracy_precomputed zero argmax cnn dataset predictions 128 None Hn Hlen).
    destruct (accuracies_counted zero argmax cnn dataset predictions 128 None)
      as (correct & total & Haccs & Hdom & _).
    rewrite Haccs. eexists _, _. split; [reflexivity|].
    destruct (ratio_bounds (matches predictions (targets_of dataset) (length dataset))
                           (Z.of_nat (length dataset)))
      as [H0 H1]; [apply matches_bounds|lia|].
    split; [exact H0|]. split; [exact H1|].
    rewrite accuracies_dom, Hdom. f_equal. apply snd_zip.
    unfold targets_of. rewrite length_map. lia.
Qed.
End EvaluationFacts.

Section ClassifierMoreExamples.
Import Classifiers Evaluation ClassifierExample FitParametersExample.

Lemma model_row_preserving : row_preserving model.
Proof. repeat constructor. intros x. apply length_map. Qed.

Lemma evaluate_succeeds_witness :
  exists (a : Q) (accs : gmap Z Q),
    evaluate 0 argmax (fun _ => []) model dataset [1; 0]%nat = Ok (a, accs) /\
    (0 <= a)%Q /\ (a <= 1)%Q /\
    dom accs = list_to_set (targets_of dataset).
Proof.
  destruct (evaluate_succeeds 0 argmax (fun _ => []) model dataset [1; 0]%nat
              model_row_preserving) as [_ Hok].
  apply Hok. discriminate.
Defined.

Lemma predict_batch_size_independent_witness :
  predict 0 argmax model dataset 1 None = predict 0 argmax model dataset 2 None.
Proof.
  apply predict_batch_size_independent; [|lia|lia].
  constructor; [|constructor]. exists swap. reflexivity.
Defined.

Lemma accuracy_rejects_wrong_length_witness :
  accuracy 0 argmax model dataset (Some [1; 0]) 2 None = Raise RuntimeError.
Proof.
  apply accuracy_rejects_wrong_length; simpl; lia.
Defined.

Lemma accuracy_broadcasts_single_prediction_witness :
  accuracy 0 argmax model dataset (Some [1]) 2 None
  = Ok (inject_Z (class_count dataset 1)
        / inject_Z (Z.of_nat (length dataset)))%Q.
Proof.
  apply accuracy_broadcasts_single_prediction. simpl. lia.
Defined.



Example fit_parameters_example :
  fit_parameters [1; 2; 3]%nat named_modules (Some ["fc"; "fc"]%string)
  = Ok [2; 3]%nat /\
  fit_parameters [1; 2; 3]%nat named_modules (Some ["fc"; "layer9"]%string)
  = Raise KeyError /\
  fit_parameters [1; 2; 3]%nat named_modules None = Ok [1; 2; 3]%nat.
Proof. repeat split; vm_compute; reflexivity. Qed.
End ClassifierMoreExamples.

(** ** More on the training loop and the model factory *)

Section FitOutcome.
Import Lms.
Context {params optim : Type}.
Variable train_epoch : optim * params -> optim * params.
Variable val_loss : params -> Q.
Variables n_train_batches n_val_batches : nat.

Local Abbreviation fit :=
  (Lms.fit train_epoch val_loss n_train_batches n_val_batches).
Local Abbreviation trained := (Lms.trained train_epoch).

(** X17: with batches to train and to validate on, [fit] returns after at
    most [max_epochs] epochs, after exactly [max_epochs] unless it
    stopped early, and the parameters it leaves in the model are those
    the last epoch it ran produced. *)
Theorem fit_returns_last_epoch (self : LanguageModel) (h : nat -> params)
    (o : optim) (max_epochs patience : nat) :
  n_train_batches <> 0%nat -> n_val_batches <> 0%nat ->
  exists r : run (params := params) (optim := optim),
    fit self h o max_epochs patience = Ok r /\
    (epochs r <= max_epochs)%nat /\
    (stopped r = false -> epochs r = max_epochs) /\
    parameters self r = snd (trained (epochs r) (o, h (storage self))).
Proof.
  intros Ht Hv.
  destruct (fit_loop_returns train_epoch val_loss n_val_batches
              self max_epochs
              {| tensors := h; optimizer := o;
                 stopper := Training.new patience;
                 best := state_dict self; epochs := 0; stopped := false |}
              Hv) as [r Hr].
  assert (Hfit : fit self h o max_epochs patience = Ok r).
  { unfold Lms.fit. now destruct (Nat.eqb_spec n_train_batches 0). }
  exists r. split; [exact Hfit|].
  now apply (fit_keeps_last_epoch train_epoch val_loss n_train_batches
               n_val_batches self h o max_epochs patience).
Qed.

(** X18: on an empty training set [fit] raises [ValueError] when it
    builds the training loader, whatever [max_epochs] is, also zero.
    With a training set that is not empty and a validation loader
    without batch, [fit] divides a loss by zero in its first epoch,
    whatever [max_epochs >= 1] is; with [max_epochs = 0] it returns at
    once and leaves the model as it is. *)
Theorem fit_without_batches (self : LanguageModel) (h : nat -> params)
    (o : optim) (max_epochs patience : nat) :
  (n_train_batches = 0%nat ->
   fit self h o max_epochs patience = Raise ValueError) /\
  (n_train_batches <> 0%nat -> n_val_batches = 0%nat ->
   fit self h o (S max_epochs) patience = Raise ZeroDivisionError /\
   exists r : run (params := params) (optim := optim),
     fit self h o 0 patience = Ok r /\ epochs r = 0%nat /\
     parameters self r = h (storage self)).
Proof.
  unfold Lms.fit. split.
  - now intros ->.
  - intros Ht Hzero. destruct (Nat.eqb_spec n_train_batches 0); [congruence|].
    split.
    + cbn [Lms.fit_loop]. destruct (train_epoch _) as [o' p].
      now rewrite Hzero.
    + eexists. split; [reflexivity|]. split; reflexivity.
Qed.
End FitOutcome.

Section IndexerOptions.
Import Lms.
Context {V : Type}.
Variables (true_ tokenizer : V).

Lemma lookup_setdefault (key : string) (value : V) (d : gmap string V)
    (k : string) :
  Py.setdefault key value d !! k
  = match d !! k with
    | Some v => Some v
    | None => if bool_decide (k = key) then Some value else None
    end.
Proof.
  unfold Py.setdefault. destruct (d !! key) as [v|] eqn:Hkey.
  - destruct (d !! k) as [w|] eqn:Hk; [reflexivity|].
    case_bool_decide; [congruence|reflexivity].
  - case_bool_decide as Heq.
    + subst k. now rewrite lookup_insert_eq, Hkey.
    + rewrite lookup_insert_ne by congruence. now destruct (d !! k).
Qed.

(** X19: [lm] never overrides an option of the caller: every key of
    [indexer_kwargs] keeps its value; the only keys added are
    [tokenize], with the default tokenizer, and [start], [stop], [pad]
    and [unk], with [True]. *)
Theorem lm_indexer_kwargs (given : option (gmap string V)) (key : string) :
  indexer_kwargs true_ tokenizer given !! key
  = match default ∅ given !! key with
    | Some value => Some value
    | None =>
        if bool_decide (key = "tokenize"%string) then Some tokenizer
        else if bool_decide (key ∈ ["start"; "stop"; "pad"; "unk"]%string)
             then Some true_ else None
    end.
Proof.
  unfold indexer_kwargs. cbn [fold_left].
  rewrite !lookup_setdefault.
  set (d := default ∅ given).
  assert (Hin : forall k : string,
             bool_decide (k ∈ ["start"; "stop"; "pad"; "unk"]%string)
             = bool_decide (k = "start"%string) || bool_decide (k = "stop"%string)
               || bool_decide (k = "pad"%string) || bool_decide (k = "unk"%string)).
  { intros k. repeat case_bool_decide; simpl; try reflexivity; exfalso.
    all: repeat match goal with
                | H : _ ∈ _ :: _ |- _ => apply elem_of_cons in H as [H|H]
                | H : _ ∈ [] |- _ => now apply not_elem_of_nil in H
                end; try congruence.
    all: match goal with H : ¬ _ ∈ _ |- _ => apply H end; subst; set_solver. }
  rewrite Hin.
  destruct (bool_decide (is_Some (d !! "tokenize"%string))) eqn:Htok.
  - apply bool_decide_eq_true in Htok as [t Ht].
    destruct (d !! key) as [v|] eqn:Hk; [reflexivity|].
    assert (Hne : key <> "tokenize"%string) by congruence.
    rewrite (bool_decide_eq_false_2 _ Hne).
    repeat case_bool_decide; reflexivity.
  - apply bool_decide_eq_false in Htok.
    destruct (decide (key = "tokenize"%string)) as [->|Hne].
    + rewrite lookup_insert_eq.
      destruct (d !! "tokenize"%string) as [v|] eqn:Hk;
        [exfalso; apply Htok; eauto|]. reflexivity.
    + rewrite lookup_insert_ne by congruence.
      rewrite (bool_decide_eq_false_2 _ Hne).
      destruct (d !! key) as [v|]; [reflexivity|].
      repeat case_bool_decide; reflexivity.
Qed.
End IndexerOptions.

Section LmPredict.
Import Torch Lms.
Context {prob : Type}.
Variable exp : Q -> prob.
Variable indexer : list string -> bool -> bool -> bool -> list (list nat).
Variable model : list (list nat) -> list (list (list Q)).

Lemma traverse_ok_length {A B} (f : A -> result B) (l : list A) :
  (forall x, In x l -> exists y, f x = Ok y) ->
  exists ys, traverse f l = Ok ys /\ length ys = length l.
Proof.
  induction l as [|x l IH]; intros Hall; simpl.
  - now exists [].
  - destruct (Hall x (or_introl eq_refl)) as [y ->].
    destruct IH as [ys [-> Hlen]]; [intros; apply Hall; now right|].
    exists (y :: ys). simpl. now rewrite Hlen.
Qed.

Lemma concat_lengths {A B} (xss : list (list A)) (yss : list (list B)) :
  Forall2 (fun xs ys => length ys = length xs) xss yss ->
  length (concat yss) = length (concat xss).
Proof.
  induction 1 as [|xs ys xss yss Hlen _ IH]; simpl; [reflexivity|].
  now rewrite !length_app, Hlen, IH.
Qed.

Lemma traverse_Forall2 {A B} (P : A -> B -> Prop) (f : A -> result B)
    (l : list A) (ys : list B) :
  (forall x y, In x l -> f x = Ok y -> P x y) ->
  traverse f l = Ok ys -> Forall2 P l ys.
Proof.
  revert ys. induction l as [|x l IH]; intros ys Hall; simpl.
  - intros [= <-]. constructor.
  - destruct (f x) as [y|e] eqn:Hx; [|discriminate].
    destruct (traverse f l) as [ys'|e] eqn:Hl; [|discriminate].
    intros [= <-]. constructor.
    + apply Hall; [now left|exact Hx].
    + apply IH; [|reflexivity]. intros x' y' Hin. apply Hall. now right.
Qed.

(** X27: when the indexer and the model return one row for every string of a
    batch and every target index lies within the output of the model,
    [predict] returns one probability for every sequence; for an empty
    list of sequences that is an empty tensor, and no error. *)
Theorem lm_predict_one_per_sequence (sequences : list string)
    (batch_size : nat) :
  (0 < batch_size)%nat ->
  (forall batch,
      exists inputs, tensor (indexer batch true false true) = Ok inputs /\
                     length (model inputs) = length batch) ->
  (forall batch, length (indexer batch false true false) = length batch) ->
  (forall batch inputs output target,
      tensor (indexer batch true false true) = Ok inputs ->
      In (output, target) (zip (model inputs) (indexer batch false true false)) ->
      exists lp, logprob output target = Ok lp) ->
  exists probs,
    predict exp indexer model sequences batch_size = Ok probs /\
    length probs = length sequences.
Proof.
  intros Hb Hin Htg Hrange. unfold predict, Torch.DataLoader.
  destruct (Nat.eqb_spec batch_size 0); [lia|]. simpl.
  assert (Hbatch : forall batch,
             exists lps, predict_batch indexer model batch = Ok lps /\
                         length lps = length batch).
  { intros batch. unfold predict_batch.
    destruct (Hin batch) as (inputs & Hinputs & Hout). rewrite Hinputs. simpl.
    destruct (traverse_ok_length
                (fun ot : list (list Q) * list nat => logprob ot.1 ot.2)
                (zip (model inputs) (indexer batch false true false)))
      as (lps & Hlps & Hlen).
    { intros [output target] Hot. now apply (Hrange batch inputs). }
    exists lps. split; [exact Hlps|].
    rewrite Hlen, length_zip, Hout, Htg. lia. }
  destruct (traverse_ok_length (predict_batch indexer model)
              (Torch.batches batch_size sequences))
    as (lpss & Hlpss & _).
  { intros batch _. destruct (Hbatch batch) as (lps & Hlps & _). eauto. }
  rewrite Hlpss. simpl. eexists. split; [reflexivity|].
  rewrite length_map.
  rewrite <- (batches_concat batch_size sequences Hb) at 1.
  apply concat_lengths.
  eapply traverse_Forall2; [|exact Hlpss].
  intros batch lps _ Hlps.
  destruct (Hbatch batch) as (lps' & Hlps' & Hlen). congruence.
Qed.
End LmPredict.

Section FitMoreExamples.
Import Lms FitExample.

Lemma fit_returns_last_epoch_witness :
  exists r : run (params := Z) (optim := unit),
    Lms.fit train_epoch val_loss 1 1 self initial tt 10 2 = Ok r /\
    (epochs r <= 10)%nat /\
    (stopped r = false -> epochs r = 10%nat) /\
    parameters self r
    = snd (trained train_epoch (epochs r) (tt, initial (storage self))).
Proof.
  apply (fit_returns_last_epoch train_epoch val_loss 1 1 self initial tt 10 2);
    discriminate.
Defined.

Lemma fit_without_batches_witness :
  Lms.fit train_epoch val_loss 0 1 self initial tt 0 2 = Raise ValueError /\
  Lms.fit train_epoch val_loss 1 0 self initial tt 10 2
  = Raise ZeroDivisionError /\
  exists r : run (params := Z) (optim := unit),
    Lms.fit train_epoch val_loss 1 0 self initial tt 0 2 = Ok r /\
    epochs r = 0%nat /\
    parameters self r = initial (storage self).
Proof.
  split.
  - apply (fit_without_batches train_epoch val_loss 0 1 self initial tt 0 2).
    reflexivity.
  - apply (fit_without_batches train_epoch val_loss 1 0 self initial tt 9 2);
      [discriminate|reflexivity].
Defined.
End FitMoreExamples.

Section LmPredictExamples.
Import Torch Lms LmExample.

Lemma lm_predict_one_per_sequence_witness :
  exists probs,
    predict (fun lp => lp) indexer model ["a dog"; "sky"; "a red car"]%string 2
    = Ok probs /\
    length probs = length ["a dog"; "sky"; "a red car"]%string.
Proof.
  apply (lm_predict_one_per_sequence (fun lp => lp) indexer model
           ["a dog"; "sky"; "a red car"]%string 2).
  - lia.
  - intros batch. exists (indexer batch true false true). split.
    + unfold indexer, tensor. destruct batch as [|s batch]; [reflexivity|].
      simpl. replace (forallb _ _) with true; [reflexivity|].
      symmetry. apply forallb_forall. intros r Hr.
      apply in_map_iff in Hr as (x & <- & _). reflexivity.
    + unfold model, indexer. now rewrite !length_map.
  - intros batch. unfold indexer. apply length_map.
  - intros batch inputs output target Hinputs Hot.
    apply list_elem_of_In in Hot.
    pose proof (elem_of_zip_l _ _ _ _ Hot) as Ho.
    pose proof (elem_of_zip_r _ _ _ _ Hot) as Ht.
    apply list_elem_of_In, in_map_iff in Ho as (x & <- & _).
    apply list_elem_of_In, in_map_iff in Ht as (y & <- & _).
    eexists. reflexivity.
Defined.

Example lm_predict_example :
  predict (fun lp => lp) indexer model ["a dog"; "sky"; "a red car"]%string 2
  = Ok [0; 0; 0]%Q /\
  predict (fun lp => lp) indexer model [] 2 = Ok [].
Proof. split; reflexivity. Qed.
End LmPredictExamples.

(** ** More on the featurizers *)

Section MapBatchSize.
Import Featurizer.
Context {tensor row : Type}.
Variable forward : list tensor -> list tensor -> result (list row).

Local Abbreviation sample := (Featurizer.sample tensor).
Local Abbreviation field := (Featurizer.field tensor).

(** A featurizer that treats the samples of a batch one by one. *)
Variable feature : tensor -> tensor -> row.
Hypothesis forward_samplewise :
  forall images masks,
    length images = length masks ->
    forward images masks = Ok (zip_with feature images masks).

Lemma holds_tensors_columns (batch : list sample) :
  Forall holds_tensors batch ->
  Forall (fun f : field => exists t, f = FTensor t) (List.map at_image batch) /\
  Forall (fun f : field => exists t, f = FTensor t) (List.map at_mask batch).
Proof.
  intros H. split; apply Forall_map; revert H; apply List.Forall_impl.
  - now intros s [H _].
  - now intros s [_ H].
Qed.

Lemma omap_tensors_length (batch : list sample) :
  Forall holds_tensors batch ->
  length (omap (fun s => tensor_of (at_image s)) batch) = length batch /\
  length (omap (fun s => tensor_of (at_mask s)) batch) = length batch.
Proof.
  induction 1 as [|s batch [[i Hi] [m Hm]] _ [IH1 IH2]]; [now split|].
  cbn [omap list_omap]. rewrite Hi, Hm. simpl. now rewrite IH1, IH2.
Qed.

Lemma map_loop_samplewise (chunks : list (list sample))
    (mapped : list (list row)) :
  Forall (fun batch => batch <> []) chunks ->
  Forall (Forall holds_tensors) chunks ->
  map_loop forward chunks mapped
  = Ok (mapped
        ++ List.map (fun batch =>
                       zip_with feature
                                (omap (fun s => tensor_of (at_image s)) batch)
                                (omap (fun s => tensor_of (at_mask s)) batch))
                    chunks).
Proof.
  intros Hne Hall. revert mapped.
  induction Hall as [|batch chunks Hbatch _ IH]; intros mapped; simpl.
  - now rewrite app_nil_r.
  - inversion Hne as [|? ? Hb Hne']; subst.
    destruct (holds_tensors_columns batch Hbatch) as [Himg Hmsk].
    assert (Hi0 : List.map at_image batch <> [])
      by (intros H0; apply map_eq_nil in H0; congruence).
    assert (Hm0 : List.map at_mask batch <> [])
      by (intros H0; apply map_eq_nil in H0; congruence).
    rewrite (collate_tensors _ Hi0 Himg), (collate_tensors _ Hm0 Hmsk).
    simpl. rewrite !omap_map.
    rewrite forward_samplewise; cycle 1.
    { destruct (omap_tensors_length batch Hbatch) as [-> ->]. reflexivity. }
    simpl. rewrite (IH Hne'). now rewrite <- app_assoc.
Qed.

Lemma zip_with_omap_app (l1 l2 : list sample) :
  Forall holds_tensors l1 ->
  zip_with feature (omap (fun s => tensor_of (at_image s)) (l1 ++ l2))
                   (omap (fun s => tensor_of (at_mask s)) (l1 ++ l2))
  = zip_with feature (omap (fun s => tensor_of (at_image s)) l1)
                     (omap (fun s => tensor_of (at_mask s)) l1)
    ++ zip_with feature (omap (fun s => tensor_of (at_image s)) l2)
                        (omap (fun s => tensor_of (at_mask s)) l2).
Proof.
  intros H1. rewrite !omap_app. apply zip_with_app.
  destruct (omap_tensors_length l1 H1) as [-> ->]. reflexivity.
Qed.

(** X20: for a featurizer that treats the samples of a batch one by one,
    [map] gives every sample the features of its own image and mask,
    whatever the batch size. *)
Theorem map_batch_size_independent (dataset : list sample) (b1 b2 : nat) :
  Forall holds_tensors dataset -> (0 < b1)%nat -> (0 < b2)%nat ->
  Featurizer.map forward dataset b1 = Featurizer.map forward dataset b2 /\
  (dataset <> [] ->
   Featurizer.map forward dataset b1
   = Ok (zip_with feature (omap (fun s => tensor_of (at_image s)) dataset)
                          (omap (fun s => tensor_of (at_mask s)) dataset))).
Proof.
  intros Hall H1 H2.
  assert (Hmap : forall b, (0 < b)%nat -> dataset <> [] ->
             Featurizer.map forward dataset b
             = Ok (zip_with feature
                            (omap (fun s => tensor_of (at_image s)) dataset)
                            (omap (fun s => tensor_of (at_mask s)) dataset))).
  { intros b Hb Hne. unfold Featurizer.map, Torch.DataLoader.
    destruct (Nat.eqb_spec b 0); [lia|]. simpl.
    assert (Hchunks : Forall (Forall holds_tensors) (Torch.batches b dataset)).
    { apply Forall_concat. now rewrite batches_concat. }
    rewrite (map_loop_samplewise _ _ (batches_nonempty _ _) Hchunks). simpl.
    rewrite cat_ok; cycle 1.
    { intros Hnil. apply map_eq_nil in Hnil.
      now apply (batches_nil_iff b dataset Hb) in Hnil. }
    f_equal. rewrite <- (batches_concat b dataset Hb) at 2 3.
    induction Hchunks as [|batch chunks Hbatch _ IH]; [reflexivity|].
    simpl. rewrite IH. symmetry. now apply zip_with_omap_app. }
  split.
  - destruct dataset as [|s dataset].
    + unfold Featurizer.map, Torch.DataLoader.
      destruct b1 as [|b1]; [lia|]. destruct b2 as [|b2]; [lia|].
      simpl. simp batches. reflexivity.
    + rewrite !Hmap by (assumption || congruence). reflexivity.
  - intros Hne. now apply Hmap.
Qed.
End MapBatchSize.

Section PyramidShape.
Import PretrainedPyramidFeaturizer.
Context {F image : Type}.
Variables (fzero : F) (fadd fmul fdiv : F -> F -> F) (is_zero : F -> bool).
Variable resize : @grid F -> nat * nat -> @grid F.
Variable featurizer : indexed image -> result (list (activations (F := F))).
Variable feature_size : nat.

Local Abbreviation forward :=
  (PretrainedPyramidFeaturizer.forward fzero fadd fmul fdiv is_zero resize
     featurizer feature_size).

Lemma fit_row_length (r r' : list F) :
  fit_row feature_size r = Ok r' -> length r' = feature_size.
Proof.
  unfold fit_row. destruct (Nat.eqb_spec (length r) feature_size) as [Heq|Hne].
  - now intros [= <-].
  - destruct r as [|x [|y r]]; try discriminate.
    intros [= <-]. apply length_replicate.
Qed.

Lemma traverse_fit_row_lengths (rows rows' : list (list F)) :
  traverse (fit_row feature_size) rows = Ok rows' ->
  Forall (fun r => length r = feature_size) rows'.
Proof.
  revert rows'. induction rows as [|r rows IH]; intros rows'; simpl.
  - intros [= <-]. constructor.
  - destruct (fit_row feature_size r) as [r'|e] eqn:Hr; [|discriminate].
    destruct (traverse (fit_row feature_size) rows) as [rs|e]; [|discriminate].
    intros [= <-]. constructor; [now apply fit_row_length in Hr|now apply IH].
Qed.

Lemma fold_insert_shape (P : list F -> Prop) (pairs : list (nat * list F))
    (res0 : list (list F)) :
  Forall (fun ir => P (snd ir)) pairs -> Forall P res0 ->
  length (fold_left (fun res (ir : nat * list F) => <[fst ir := snd ir]> res)
                    pairs res0) = length res0 /\
  Forall P (fold_left (fun res (ir : nat * list F) => <[fst ir := snd ir]> res)
                      pairs res0).
Proof.
  intros Hpairs. revert res0.
  induction Hpairs as [|[i r] pairs Hr _ IH]; intros res0 Hres; simpl.
  - now split.
  - destruct (IH (<[i := r]> res0)) as [Hlen Hall].
    + now apply Forall_insert.
    + rewrite length_insert in Hlen. now split.
Qed.

Lemma assign_shape (result0 rows result : list (list F)) (indices : index) :
  Forall (fun r => length r = feature_size) result0 ->
  assign feature_size result0 indices rows = Ok result ->
  length result = length result0 /\
  Forall (fun r => length r = feature_size) result.
Proof.
  intros H0. unfold assign. destruct indices as [i|positions].
  - destruct rows as [|r [|r' rows]]; try discriminate.
    destruct (fit_row feature_size r) as [r'|e] eqn:Hr; [|discriminate].
    simpl. destruct (i <? length result0)%nat; [|discriminate].
    intros [= <-]. rewrite length_insert. split; [reflexivity|].
    apply Forall_insert; [exact H0|]. now apply fit_row_length in Hr.
  - destruct (negb _); [discriminate|].
    destruct (traverse (fit_row feature_size) rows) as [rows'|e] eqn:Hrows;
      [|discriminate].
    simpl. destruct (forallb _ positions); [|discriminate].
    intros [= <-]. apply fold_insert_shape; [|exact H0].
    apply traverse_fit_row_lengths in Hrows.
    apply List.Forall_forall. intros [i r] Hin. simpl.
    apply list_elem_of_In, elem_of_zip_r, list_elem_of_In in Hin.
    rewrite List.Forall_forall in Hrows. now apply Hrows.
Qed.

(** X23: whenever [forward] returns, its result has one row per image and
    every row has [feature_size] entries; the network was run at most
    once. *)
Theorem forward_result_shape (images : list image) (masks : list (@grid F))
    (calls : list (indexed image)) (result : list (list F)) :
  forward images masks = (calls, Ok result) ->
  length result = length images /\
  Forall (fun row => length row = feature_size) result /\
  (length calls <= 1)%nat.
Proof.
  unfold PretrainedPyramidFeaturizer.forward. cbv zeta.
  set (result0 := replicate (length images) (replicate feature_size fzero)).
  assert (H0 : Forall (fun r : list F => length r = feature_size) result0).
  { apply Forall_replicate. apply length_replicate. }
  assert (Hl0 : length result0 = length images) by apply length_replicate.
  destruct (negb _).
  - intros [= <- <-]. simpl. repeat split; [exact Hl0|exact H0|lia].
  - destruct (select images _) as [images'|e]; [|intros [= _ ?]; discriminate].
    destruct (select masks _) as [masks'|e]; [|intros [= _ ?]; discriminate].
    intros [= <- Hres]. simpl.
    destruct (featurizer images') as [features|e]; [|discriminate].
    simpl in Hres.
    destruct (traverse _ features) as [masked|e]; [|discriminate].
    simpl in Hres.
    destruct (cat_last masked) as [rows|e]; [|discriminate].
    simpl in Hres.
    apply (assign_shape _ _ _ _ H0) in Hres as [Hlen Hall].
    repeat split; [congruence|exact Hall|lia].
Qed.
End PyramidShape.

Section PyramidWeights.
Import PretrainedPyramidFeaturizer.

Local Abbreviation total := (PretrainedPyramidFeaturizer.total 0%Q Qplus).
Local Abbreviation normalise :=
  (PretrainedPyramidFeaturizer.normalise 0%Q Qplus Qdiv).
Local Abbreviation pool := (PretrainedPyramidFeaturizer.pool 0%Q Qplus Qmult).

Lemma sum_scaled (s : Q) (l : list Q) :
  (foldr Qplus 0 (List.map (fun x => x / s) l) == foldr Qplus 0 l / s)%Q.
Proof.
  induction l as [|x l IH]; simpl.
  - unfold Qdiv. now rewrite Qmult_0_l.
  - rewrite IH. unfold Qdiv. ring.
Qed.

Lemma sum_weighted_constant (c s : Q) (l : list Q) :
  (foldr Qplus 0 (zip_with Qmult (List.map (fun _ => c) l)
                           (List.map (fun x => x / s) l))
   == c * (foldr Qplus 0 l / s))%Q.
Proof.
  induction l as [|x l IH]; simpl.
  - unfold Qdiv. ring.
  - rewrite IH. unfold Qdiv. ring.
Qed.

Lemma sum_app (l1 l2 : list Q) :
  (foldr Qplus 0 (l1 ++ l2) == foldr Qplus 0 l1 + foldr Qplus 0 l2)%Q.
Proof.
  induction l1 as [|x l1 IH]; simpl; [ring|]. rewrite IH. ring.
Qed.

Lemma grid_sums (m : list (list Q)) (c s : Q) :
  (total (List.map (List.map (fun x => x / s)%Q) m) == total m / s)%Q /\
  (total (zip_with (zip_with Qmult)
                   (List.map (List.map (fun _ => c)) m)
                   (List.map (List.map (fun x => x / s)%Q) m))
   == c * (total m / s))%Q.
Proof.
  unfold PretrainedPyramidFeaturizer.total.
  induction m as [|row m' IH]; cbn [List.map zip_with concat].
  - split; unfold Qdiv; simpl; ring.
  - destruct IH as [IH1 IH2].
    rewrite !sum_app, IH1, IH2, sum_scaled, sum_weighted_constant.
    split; unfold Qdiv; ring.
Qed.

(** X24: the weights a mask is turned into sum to one, so that pooling is a
    weighted mean: a channel that is [c] everywhere is pooled to [c]. *)
Theorem pool_weighted_mean (m : list (list Q)) (c : Q) :
  ~ (total m == 0)%Q ->
  (total (normalise m) == 1)%Q /\
  exists v, pool [List.map (List.map (fun _ => c)) m] (normalise m) = [v] /\
            (v == c)%Q.
Proof.
  intros Hs. destruct (grid_sums m c (total m)) as [H1 H2].
  assert (Hone : (total m / total m == 1)%Q) by (now apply Qmult_inv_r).
  split.
  - eapply Qeq_trans; [exact H1|exact Hone].
  - eexists. split; [reflexivity|].
    eapply Qeq_trans; [exact H2|]. rewrite Hone. apply Qmult_1_r.
Qed.
End PyramidWeights.

Section PyramidMoreExamples.
Import PretrainedPyramidFeaturizer PyramidExample.

Lemma forward_all_zero_witness :
  PyramidExample.forward [7; 8]%nat [zeros; zeros]
  = ([], Ok (replicate (length [7; 8]%nat) (replicate 1 0%Q))).
Proof.
  apply (forward_all_zero 0%Q Qplus Qmult Qdiv is_zero resize featurizer 1
           [7; 8]%nat [zeros; zeros]).
  repeat constructor.
Defined.

Lemma forward_valid_batch_witness :
  exists result,
    PyramidExample.forward [7; 8; 9]%nat [ones; zeros; ones]
    = ([Batch [7; 9]%nat], Ok result) /\
    length result = length [7; 8; 9]%nat /\
    (forall i m, [ones; zeros; ones] !! i = Some m ->
                 all_zero is_zero m = true ->
                 result !! i = Some (replicate 1 0%Q)) /\
    (forall j i m,
        nonzero (nonzero_masks is_zero [ones; zeros; ones]) !! j = Some i ->
        [ones; zeros; ones] !! i = Some m ->
        result !! i
        = Some (pyramid_row 0%Q Qplus Qmult Qdiv resize
                            [layer [7; 9]%nat] j m)).
Proof.
  apply (forward_valid_batch 0%Q Qplus Qmult Qdiv is_zero resize featurizer 1
           [7; 8; 9]%nat [ones; zeros; ones] [7; 9]%nat [layer [7; 9]%nat]).
  - reflexivity.
  - vm_compute. lia.
  - repeat constructor.
  - reflexivity.
  - discriminate.
  - repeat constructor.
  - intros j i m Hj Hm.
    destruct j as [|[|j]]; vm_compute in Hj; try discriminate Hj;
      injection Hj as <-; vm_compute in Hm; injection Hm as <-; reflexivity.
Defined.

Lemma forward_result_shape_witness :
  length [[7 # 1]; [0]; [9 # 1]]%Q = length [7; 8; 9]%nat /\
  Forall (fun row => length row = 1%nat) [[7 # 1]; [0]; [9 # 1]]%Q /\
  (length [Batch [7; 9]%nat] <= 1)%nat.
Proof.
  apply (forward_result_shape 0%Q Qplus Qmult Qdiv is_zero resize featurizer 1
           [7; 8; 9]%nat [ones; zeros; ones]).
  reflexivity.
Defined.

Lemma pool_weighted_mean_witness :
  (total 0%Q Qplus (normalise 0%Q Qplus Qdiv ones) == 1)%Q /\
  exists v, pool 0%Q Qplus Qmult [List.map (List.map (fun _ => 3%Q)) ones]
                 (normalise 0%Q Qplus Qdiv ones) = [v] /\
            (v == 3)%Q.
Proof.
  apply (pool_weighted_mean ones 3%Q). intros H. discriminate H.
Defined.
End PyramidMoreExamples.

Section MapMoreExamples.
Import Featurizer FeaturizerExample.

Lemma forward_samplewise_example (images masks : list nat) :
  length images = length masks ->
  FeaturizerExample.forward images masks
  = Ok (zip_with (fun _ _ => [0; 0]) images masks).
Proof.
  unfold FeaturizerExample.forward. intros Hlen. f_equal.
  revert masks Hlen. induction images as [|i images IH]; intros [|m masks] Hlen;
    simpl in *; try discriminate; [reflexivity|].
  f_equal. apply IH. lia.
Qed.

Lemma map_batch_size_independent_witness :
  Featurizer.map FeaturizerExample.forward dataset 1
  = Featurizer.map FeaturizerExample.forward dataset 2 /\
  Featurizer.map FeaturizerExample.forward dataset 1
  = Ok (zip_with (fun _ _ => [0; 0])
                 (omap (fun s => tensor_of (at_image s)) dataset)
                 (omap (fun s => tensor_of (at_mask s)) dataset)).
Proof.
  destruct (map_batch_size_independent FeaturizerExample.forward
              (fun _ _ => [0; 0]) forward_samplewise_example dataset 1 2)
    as [Hsame Hvalue]; [|lia|lia|].
  - repeat constructor; eexists; reflexivity.
  - split; [exact Hsame|]. apply Hvalue. discriminate.
Defined.
End MapMoreExamples.
